(** * Re_ADOJAS: level loading, tile angle recurrence, track meshes, orbit crossings

    A shallow embedding of the parts of the repository that the specification
    talks about:
    - [src/lib/ADOFAI/src/parser.js]     (module [Parser])
    - the path-code table imported as [./pathdata], [src/unnamed/part_001]
                                         (module [PathData])
    - [src/lib/ADOFAI/src/structure.js]  (module [Level])
    - [src/lib/Geo/mesh_reserve.js]      (module [Mesh])
    - the previewer class of the editor page, [src/unnamed/part_000] and
      [src/app/editor/page.tsx]          (module [Previewer])
    - [src/lib/ADOFAI/src/presets.js]    (module [Presets])
    - [src/lib/ADOFAI/src/effectProcessor.js]
                                         (modules [EffectProcessor] and
                                          [LevelEffects])
    - the event registry of [structure.js]
                                         (module [Emitter])
    - [src/lib/ADOFAI/src/format.js]     (module [Format]).

    The modules [LevelCases], [ParserCases], [MeshCases] and [PreviewerCases]
    hold the concrete levels, texts and states that the statements speak
    about; the modules [LevelFacts], [ParserFacts], [DoubleFacts] (the whole
    numbers that doubles hold), [MeshFacts] and [PreviewerFacts] hold the
    lemmas.  The modules that follow them in each
    part ([LevelMoreCases] to [FormatCases], [ExportFacts] to [FormatFacts])
    do the same for the export, the queries, the position pass, the floor
    operations, the path code, the repair pass, the mesh families, the frames
    of the playback, the clearing of events, the event registry and the
    formatted export.

    Modelling conventions.
    - In [Level], headings (the entries of [angleData]) are JavaScript
      numbers holding whole numbers; while the numbers involved stay below
      2^53 the operators [-], [+] and [%] are exact on them, so they are
      modelled on [Z], with [%] as the truncating [Z.rem].  Fractional
      headings are outside this model, and so are whole headings so large
      that a sum or a difference is rounded: the statements that rest on
      the arithmetic of the headings bound them by 2^51.  The two other
      values that the code can run into, [NaN] and [undefined] (an
      out-of-range array read, a path character outside the table), are kept
      as separate constructors of [JS.value].
    - Every other number (coordinates, radians, tempo) is an IEEE-754 double,
      modelled by Rocq's primitive [float]; in [Mesh] the headings are
      doubles as well, with the subtraction of doubles and with [%] on
      doubles ([JSMath.rem]).  [Math.cos], [Math.sin], [Math.pow],
      [Math.atan2] and [toFixed] are not part of the primitive floats; the
      functions that call them take them as section variables.
    - The keys of the object that [load] reads hold values of any kind; the
      kinds that [load] and [_createArray] treat differently are told apart
      ([Level.AngleValue], [Level.SettingsValue], [Level.EventsValue],
      [Level.PathValue]).
    - Mutable fields of objects are threaded explicitly through the functions
      that write them. *)

From Stdlib Require Import ZArith List String Ascii Bool Lia Floats.
Import ListNotations.
Set Warnings "-inexact-float".
Open Scope Z_scope.

(* ------------------------------------------------------------------ *)
(** ** JavaScript values used for headings *)

Module JS.

(** A heading as [Level] handles it: a number that is a whole number, [NaN]
    or [undefined].  The arithmetic below is that of doubles as long as the
    operands and the result stay below 2^53 in magnitude; fractions and
    rounding are not represented. *)
Inductive value : Type :=
| Num (z : Z)
| NaN
| Undefined.

(** [a - b]: both operands go through ToNumber, [undefined] becomes [NaN]. *)
Definition sub (a b : value) : value :=
  match a, b with
  | Num x, Num y => Num (x - y)
  | _, _ => NaN
  end.

Definition add (a b : value) : value :=
  match a, b with
  | Num x, Num y => Num (x + y)
  | _, _ => NaN
  end.

(** [a % m] for a non-zero integer [m]: the result has the sign of [a]. *)
Definition rem (a : value) (m : Z) : value :=
  match a with
  | Num x => Num (Z.rem x m)
  | _ => NaN
  end.

(** [a == k] and [a === k] for a number literal [k]. *)
Definition eqZ (a : value) (k : Z) : bool :=
  match a with
  | Num x => x =? k
  | _ => false
  end.

(** [a == NaN]: false for every [a], [NaN] included. *)
Definition eqNaN (a : value) : bool := false.

(** [a || 0] where a number is expected: [0], [NaN] and [undefined] are falsy. *)
Definition orZero (a : value) : Z :=
  match a with
  | Num x => x
  | _ => 0
  end.

(** [arr[i]] on an array of such values; any index outside the array gives
    [undefined], [-1] included. *)
Definition index (arr : list value) (i : Z) : value :=
  if i <? 0 then Undefined
  else match nth_error arr (Z.to_nat i) with
       | Some v => v
       | None => Undefined
       end.

(** [Array.from({length: n}, (_, i) => f(i))] where [f] reads and writes the
    fields [St] of [this]: the callback runs for [i = 0 .. n-1] in order. *)
Fixpoint array_from_at {St A : Type} (f : nat -> St -> A * St)
         (n : nat) (i : nat) (s : St) : list A * St :=
  match n with
  | O => ([], s)
  | S n' =>
      let (a, s1) := f i s in
      let (rest, s2) := array_from_at f n' (S i) s1 in
      (a :: rest, s2)
  end.

Definition array_from {St A : Type} (f : nat -> St -> A * St) (n : nat) (s : St)
  : list A * St :=
  array_from_at f n 0%nat s.

End JS.

(* ------------------------------------------------------------------ *)
(** ** Doubles *)

Module JSMath.

(** [Math.PI] *)
Definition PI : float := 0x1.921fb54442d18p+1%float.

(** The double nearest to an integer (exact below 2^53). *)
Definition ofZ (z : Z) : float :=
  SF2Prim (binary_normalize prec emax z 0 false).

(** [x % y] on the doubles [x] and [y]: the remainder of the division that
    truncates.  It is a double, so nothing is rounded; it has the sign of
    [x], also when it is a zero.  For two finite operands both mantissas
    are brought to the smaller exponent, and the remainder of the two whole
    numbers is taken. *)
Definition SFrem (x y : spec_float) : spec_float :=
  match x, y with
  | S754_nan, _ | _, S754_nan => S754_nan
  | S754_infinity _, _ => S754_nan
  | _, S754_zero _ => S754_nan
  | S754_zero _, _ => x
  | S754_finite _ _ _, S754_infinity _ => x
  | S754_finite sx mx ex, S754_finite _ my ey =>
      let e := Z.min ex ey in
      let r := Z.rem (Zpos (fst (shl_align mx ex e)))
                     (Zpos (fst (shl_align my ey e))) in
      binary_normalize prec emax (cond_Zopp sx r) e sx
  end.

Definition rem (x y : float) : float :=
  SF2Prim (SFrem (Prim2SF x) (Prim2SF y)).

(** Falsy numbers: [0], [-0] and [NaN]. *)
Definition falsy (x : float) : bool :=
  PrimFloat.eqb x 0 || negb (PrimFloat.eqb x x).

(** [x || d] where [x] is an optional numeric property. *)
Definition orElse (x : option float) (d : float) : float :=
  match x with
  | Some v => if falsy v then d else v
  | None => d
  end.

End JSMath.

(* ------------------------------------------------------------------ *)
(** ** Events (actions and decorations) *)

(** The values of [editorOnly] that [calculateTileCoordinates] tells apart. *)
Inductive EditorOnly : Type :=
| EditorOnlyTrue            (* the boolean [true] *)
| EditorOnlyEnabled         (* the string ["Enabled"] *)
| EditorOnlyOther.          (* anything else, e.g. ["Disabled"] or [false] *)

(** An event without its [floor] key, as it is stored inside a tile.  Only the
    payload fields that the code reads are kept; [None] is an absent key. *)
Record Event : Type := {
  eventType : string;
  duration : option float;
  speedType : option string;
  bpmMultiplier : option float;
  beatsPerMinute : option float;
  positionOffset : option (float * float);
  editorOnly : option EditorOnly
}.

(** An entry of the flat [actions] / [decorations] arrays of a level file. *)
Record Floored : Type := {
  floor : Z;
  rest : Event
}.

Definition plainEvent (ty : string) : Event :=
  {| eventType := ty; duration := None; speedType := None;
     bpmMultiplier := None; beatsPerMinute := None;
     positionOffset := None; editorOnly := None |}.

(* ------------------------------------------------------------------ *)
(** ** The path-code table ([./pathdata]) *)

Module PathData.

Definition pathDataTable : list (ascii * Z) :=
  [ ("R", 0); ("p", 15); ("J", 30); ("E", 45); ("T", 60); ("o", 75);
    ("U", 90); ("q", 105); ("G", 120); ("Q", 135); ("H", 150); ("W", 165);
    ("L", 180); ("x", 195); ("N", 210); ("Z", 225); ("F", 240); ("V", 255);
    ("D", 270); ("Y", 285); ("B", 300); ("C", 315); ("M", 330); ("A", 345);
    ("5", 555); ("6", 666); ("7", 777); ("8", 888); ("!", 999) ]%char.

Fixpoint lookup (t : list (ascii * Z)) (c : ascii) : option Z :=
  match t with
  | [] => None
  | (k, v) :: t' => if Ascii.eqb k c then Some v else lookup t' c
  end.

(** [parseToangleData]: one table lookup per character; a character outside
    the table yields [undefined], kept as [JS.Undefined]. *)
Definition parseToangleData (pathdata : string) : list JS.value :=
  map (fun c => match lookup pathDataTable c with
                | Some z => JS.Num z
                | None => JS.Undefined
                end)
      (list_ascii_of_string pathdata).

End PathData.

(* ------------------------------------------------------------------ *)
(** ** parser.js *)

Module Parser.

(** A JavaScript string is a sequence of UTF-16 code units. *)
Definition str : Type := list N.

(** The code units of an ASCII literal. *)
Definition lit (s : string) : str :=
  map (fun c => N_of_ascii c) (list_ascii_of_string s).

Definition COMMA : N := 44.
Definition LBRACE : N := 123.
Definition RBRACE : N := 125.
Definition LBRACKET : N := 91.
Definition RBRACKET : N := 93.
Definition BOM : N := 65279.

(** The class [\s] of a regular expression without the [u] flag. *)
Definition isSpace (c : N) : bool :=
  ((9 <=? c) && (c <=? 13) || (c =? 32) || (c =? 160) || (c =? 5760)
   || (8192 <=? c) && (c <=? 8202) || (c =? 8232) || (c =? 8233)
   || (c =? 8239) || (c =? 8287) || (c =? 12288) || (c =? 65279))%N.

Fixpoint prefixb (pat s : str) : bool :=
  match pat, s with
  | [], _ => true
  | p :: pat', c :: s' => (p =? c)%N && prefixb pat' s'
  | _ :: _, [] => false
  end.

(** [s.replace(pat, rep)] for a string [pat] and a replacement without [$]:
    only the first occurrence is replaced. *)
Fixpoint replaceFirst (pat rep s : str) : str :=
  if prefixb pat s then rep ++ skipn (List.length pat) s
  else match s with
       | [] => []
       | c :: s' => c :: replaceFirst pat rep s'
       end.

(** [s.replaceAll(pat, rep)] for a non-empty string [pat]: every occurrence,
    left to right, without overlap.  [skip] counts the code units of the
    current occurrence that are still to be dropped. *)
Fixpoint replaceAll_from (pat rep : str) (skip : nat) (s : str) : str :=
  match s with
  | [] => []
  | c :: s' =>
      match skip with
      | S k => replaceAll_from pat rep k s'
      | O =>
          if prefixb pat s
          then rep ++ replaceAll_from pat rep (List.length pat - 1) s'
          else c :: replaceAll_from pat rep 0 s'
      end
  end.

Definition replaceAll (pat rep s : str) : str := replaceAll_from pat rep 0 s.

(** Length of the match of [\s*X] at the start of [s], where [X] is one code
    unit accepted by [close]; [\s] and [close] are disjoint, so the greedy
    and the lazy star agree. *)
Fixpoint spacesThen (close : N -> bool) (s : str) : option nat :=
  match s with
  | [] => None
  | c :: s' =>
      if close c then Some 1%nat
      else if isSpace c then option_map S (spacesThen close s')
      else None
  end.

Definition isCloser (c : N) : bool := ((c =? RBRACE) || (c =? RBRACKET))%N.
Definition isOpener (c : N) : bool := ((c =? LBRACE) || (c =? LBRACKET))%N.

(** [s.replace(/,(\s*[}\]])/g, '$1')]: a comma that is followed by optional
    white space and a closing bracket is dropped, the rest of the match is
    kept.  [keep] counts the code units of the current match still to copy. *)
Fixpoint dropTrailingCommas_from (keep : nat) (s : str) : str :=
  match s with
  | [] => []
  | c :: s' =>
      match keep with
      | S k => c :: dropTrailingCommas_from k s'
      | O =>
          if (c =? COMMA)%N then
            match spacesThen isCloser s' with
            | Some n => dropTrailingCommas_from n s'
            | None => c :: dropTrailingCommas_from 0 s'
            end
          else c :: dropTrailingCommas_from 0 s'
      end
  end.

Definition dropTrailingCommas (s : str) : str := dropTrailingCommas_from 0 s.

(** [s.replace(/,\s*X/g, 'X')] for one closing bracket [X]: the comma and the
    white space are both dropped.  [skip] counts the code units of the
    current match still to drop before [X] is copied. *)
Fixpoint squeezeBefore_from (x : N) (skip : nat) (s : str) : str :=
  match s with
  | [] => []
  | c :: s' =>
      match skip with
      | S k => squeezeBefore_from x k s'
      | O =>
          if (c =? COMMA)%N then
            match spacesThen (N.eqb x) s' with
            | Some n => squeezeBefore_from x (n - 1) s'
            | None => c :: squeezeBefore_from x 0 s'
            end
          else c :: squeezeBefore_from x 0 s'
      end
  end.

Definition squeezeBefore (x : N) (s : str) : str := squeezeBefore_from x 0 s.

(** For the text after a [{]: the offset of the first comma that is reached
    through code units other than braces and is followed by optional white
    space and an opening bracket (the lazy [[^{}]*?] and the lookahead). *)
Fixpoint findCommaBeforeOpener (s : str) : option nat :=
  match s with
  | [] => None
  | c :: s' =>
      if ((c =? LBRACE) || (c =? RBRACE))%N then None
      else if (c =? COMMA)%N then
             match spacesThen isOpener s' with
             | Some _ => Some 0%nat
             | None => option_map S (findCommaBeforeOpener s')
             end
           else option_map S (findCommaBeforeOpener s')
  end.

Inductive mode : Type :=
| Scan
| CopyThenDrop (k : nat).

(** [s.replace(/(\{[^{}]*?)(,)(?=\s*?(\{|\[))/g, '$1')]: group 1 is copied
    and the comma that ends the match is dropped; the lookahead is not
    consumed. *)
Fixpoint dropCommaBeforeOpener_from (m : mode) (s : str) : str :=
  match s with
  | [] => []
  | c :: s' =>
      match m with
      | CopyThenDrop (S k) => c :: dropCommaBeforeOpener_from (CopyThenDrop k) s'
      | CopyThenDrop O => dropCommaBeforeOpener_from Scan s'
      | Scan =>
          if (c =? LBRACE)%N then
            match findCommaBeforeOpener s' with
            | Some k => c :: dropCommaBeforeOpener_from (CopyThenDrop k) s'
            | None => c :: dropCommaBeforeOpener_from Scan s'
            end
          else c :: dropCommaBeforeOpener_from Scan s'
      end
  end.

Definition dropCommaBeforeOpener (s : str) : str :=
  dropCommaBeforeOpener_from Scan s.

(** [f.replace(/^\uFEFF/, '')]: a leading byte-order mark is removed. *)
Definition stripBOM (f : str) : str :=
  match f with
  | c :: f' => if (c =? BOM)%N then f' else f
  | [] => []
  end.

(** The text that reaches the last substitution of [parseError].  A Rocq
    string literal has no escapes: [lit "\n"] is the two code units backslash
    and [n], the JavaScript literal ['\\n']. *)
Definition beforeCommaFix (f : str) : str :=
  let e := stripBOM f in
  let e := replaceAll (10%N :: lit "\n") (lit "\n") e in
  let e := dropTrailingCommas e in
  let e := squeezeBefore RBRACE e in
  let e := squeezeBefore RBRACKET e in
  let e := dropCommaBeforeOpener e in
  replaceFirst (32%N :: 34%N :: lit "decorations" ++ [34%N])
               (44%N :: 34%N :: lit "decorations" ++ [34%N]) e.

Definition parseError (f : str) : str :=
  replaceFirst (lit ",,") (lit ",") (beforeCommaFix f).

Definition parseAsText (t : str) : str := parseError t.

(** [parseAsObject(t, provider)]: [provider.parse] (or [JSON.parse]) applied
    to the repaired text; [None] stands for a thrown exception. *)
Definition parseAsObject {Obj : Type} (parse : str -> option Obj) (t : str)
  : option Obj :=
  parse (parseAsText t).

(** Number of positions at which two commas stand side by side. *)
Fixpoint doubledCommas (s : str) : nat :=
  match s with
  | c :: ((d :: _) as s') =>
      ((if (c =? COMMA)%N && (d =? COMMA)%N then 1 else 0)
       + doubledCommas s')%nat
  | _ => 0%nat
  end.

End Parser.

(* ------------------------------------------------------------------ *)
(** ** structure.js: the class [Level] *)

Module Level.

(** What [calculateTileCoordinates] attaches to a tile: the array [[x, y]]
    with the extra keys [angle1], [angle2] and [cangle]. *)
Record Position : Type := {
  pos_x : float;
  pos_y : float;
  angle1 : Z;
  angle2 : Z;
  cangle : JS.value
}.

Record Tile : Type := {
  direction : JS.value;
  _lastdir : JS.value;
  actions : list Event;
  angle : JS.value;
  addDecorations : list Event;
  twirl : Z;
  position : option Position
}.

(** The two scalars that the angle recurrence threads through [this]. *)
Record Accum : Type := {
  _angleDir : JS.value;
  _twirlCount : Z
}.

Definition isTwirlEvent (e : Event) : bool := String.eqb (eventType e) "Twirl".

(** [_filterByFloor]: keeps the entries of floor [i], adds the number of
    Twirl events among them to [_twirlCount], and drops the [floor] key. *)
Definition _filterByFloor (this : Accum) (arr : list Floored) (i : Z)
  : list Event * Accum :=
  let actionT := filter (fun item => floor item =? i) arr in
  let n := Z.of_nat (List.length (filter (fun t => isTwirlEvent (rest t)) actionT)) in
  (map rest actionT,
   {| _angleDir := _angleDir this; _twirlCount := _twirlCount this + n |}).

Definition _filterByFloorwithDeco (arr : list Floored) (i : Z) : list Event :=
  map rest (filter (fun item => floor item =? i) arr).

(** [_parseAngle(agd, i, isTwirl)]: returns [prev] and the new [_angleDir]. *)
Definition _parseAngle (angleDir : JS.value) (agd : list JS.value) (i : Z)
           (isTwirl : Z) : JS.value * JS.value :=
  let angleDir := if i =? 0 then JS.Num 180 else angleDir in
  if JS.eqZ (JS.index agd i) 999 then
    let angleDir := JS.index agd (i - 1) in
    let angleDir := if JS.eqNaN angleDir then JS.Num 0 else angleDir in
    (JS.Num 0, angleDir)
  else
    let prev :=
      if isTwirl =? 0
      then JS.rem (JS.sub angleDir (JS.index agd i)) 360
      else JS.sub (JS.Num 360) (JS.rem (JS.sub angleDir (JS.index agd i)) 360) in
    let prev := if JS.eqZ prev 0 then JS.Num 360 else prev in
    (prev, JS.add (JS.index agd i) (JS.Num 180)).

(** [_parsechangedAngle(agd, i, isTwirl, lstagd)], the variant used after an
    edit: it takes the heading and the previous heading of one tile. *)
Definition _parsechangedAngle (angleDir : JS.value) (agd : JS.value) (i : Z)
           (isTwirl : Z) (lstagd : JS.value) : JS.value * JS.value :=
  let angleDir := if i =? 0 then JS.Num 180 else angleDir in
  if JS.eqZ agd 999 then
    let angleDir := lstagd in
    let angleDir := if JS.eqNaN angleDir then JS.Num 0 else angleDir in
    (JS.Num 0, angleDir)
  else
    let prev :=
      if isTwirl =? 0
      then JS.rem (JS.sub angleDir agd) 360
      else JS.sub (JS.Num 360) (JS.rem (JS.sub angleDir agd) 360) in
    let prev := if JS.eqZ prev 0 then JS.Num 360 else prev in
    (prev, JS.add agd (JS.Num 180)).

(** The argument [opt] of [_createArray]. *)
Record CreateOpt : Type := {
  opt_angleData : list JS.value;
  opt_actions : list Floored;
  opt_decorations : list Floored
}.

(** The object literal built for index [i]; its properties are evaluated in
    source order, so [_filterByFloor] has already counted the Twirls of floor
    [i] when [_parseAngle] receives [_twirlCount % 2]. *)
Definition createTile (opt : CreateOpt) (i : nat) (this : Accum) : Tile * Accum :=
  let i := Z.of_nat i in
  let d := JS.index (opt_angleData opt) i in
  let l := JS.Num (JS.orZero (JS.index (opt_angleData opt) (i - 1))) in
  let (acts, this1) := _filterByFloor this (opt_actions opt) i in
  let (ang, dir2) :=
    _parseAngle (_angleDir this1) (opt_angleData opt) i
                (Z.rem (_twirlCount this1) 2) in
  let this2 := {| _angleDir := dir2; _twirlCount := _twirlCount this1 |} in
  let decos := _filterByFloorwithDeco (opt_decorations opt) i in
  ({| direction := d; _lastdir := l; actions := acts; angle := ang;
      addDecorations := decos; twirl := _twirlCount this2;
      position := None |},
   this2).

Definition _createArray (xLength : nat) (opt : CreateOpt) (this : Accum)
  : list Tile * Accum :=
  JS.array_from (createTile opt) xLength this.

(** *** The level object *)

Record Settings : Type := {
  bpm : option float
}.

(** [load] stores what the keys of its argument hold without looking at
    it; what comes of the value later depends on its kind only.

    [angleData]: an array of headings; [null] or [undefined], on which
    reading [length] throws; or a value whose [length] and items read as
    [undefined] (a number, a boolean, an object of another shape). *)
Inductive AngleValue : Type :=
| AngleArray (a : list JS.value)
| AngleNullish
| AngleLengthless.

(** [settings]: an object, or anything else ([null], a number, a string). *)
Inductive SettingsValue : Type :=
| SettingsObject (s : Settings)
| SettingsOther.

(** [actions] and [decorations]: an array of event objects, or a value
    without the method [filter] ([null], a number, a string, an object). *)
Inductive EventsValue : Type :=
| EventsArray (l : list Floored)
| EventsOther.

(** [pathData]: a string, or another value, of which [String(...)] makes the
    text [rendered]. *)
Inductive PathValue : Type :=
| PathString (s : string)
| PathOther (rendered : string).

(** [String(pathdata)] *)
Definition pathText (p : PathValue) : string :=
  match p with
  | PathString s => s
  | PathOther rendered => rendered
  end.

Definition eventsOf (v : EventsValue) : list Floored :=
  match v with
  | EventsArray l => l
  | EventsOther => []
  end.

(** The fields of [this]; [levelActions] is [this.actions].  [angleData],
    [levelActions], [settings] and [__decorations] are [undefined], here
    [None], until [load] assigns them. *)
Record State : Type := {
  angleData : option AngleValue;
  levelActions : option EventsValue;
  settings : option SettingsValue;
  __decorations : option EventsValue;
  tiles : list Tile;
  acc : Accum
}.

Definition setTiles (this : State) (ts : list Tile) (a : Accum) : State :=
  {| angleData := angleData this; levelActions := levelActions this;
     settings := settings this; __decorations := __decorations this;
     tiles := ts; acc := a |}.

(** A new object, as [load] finds it: none of the fields that [load] reads
    or keeps has a value.  The constructor does not assign [this.tiles]
    either; [load] assigns it before anything reads it, and the methods that
    read [this.tiles] are modelled for an object on which [load] has got
    that far: on a new object they throw, which [tiles := []] does not
    show. *)
Definition fresh : State :=
  {| angleData := None; levelActions := None; settings := None;
     __decorations := None; tiles := [];
     acc := {| _angleDir := JS.Undefined; _twirlCount := 0 |} |}.

(** *** [load] *)

(** The object handed to the constructor or returned by the JSON provider;
    [None] is an absent key, and a key that is present holds a value of any
    kind. *)
Record RawLevel : Type := {
  raw_pathData : option PathValue;
  raw_angleData : option AngleValue;
  raw_actions : option EventsValue;
  raw_settings : option SettingsValue;
  raw_decorations : option EventsValue
}.

Inductive Options : Type :=
| OptString (text : Parser.str)
| OptObject (o : RawLevel)
| OptOther.

(** What the JSON provider makes of a text: an object, or a value that is
    no object (a number, a string, a boolean, [null]), on which the
    operator [in] throws. *)
Inductive Parsed : Type :=
| ParsedObject (o : RawLevel)
| ParsedOther.

Inductive Reason : Type :=
| ParseFailure            (* the exception thrown by the JSON provider *)
| NotStringOrObject       (* "Options must be String or Object" *)
| NoAngleDatas            (* "There is not any angle datas." *)
| NoSettings              (* "There is no ADOFAI settings." *)
| TypeError.              (* thrown by the executor itself *)

Inductive Outcome : Type :=
| Resolved
| Rejected (r : Reason).

(** [reject] and [resolve] settle the promise only the first time one of
    them is called; the executor keeps running after a [reject]. *)
Definition settle (cur : option Outcome) (o : Outcome) : option Outcome :=
  match cur with
  | Some _ => cur
  | None => Some o
  end.

Definition settled (cur : option Outcome) (last : Outcome) : Outcome :=
  match cur with
  | Some o => o
  | None => last
  end.

(** The promise of [_createArray(a.length, { angleData: a, actions,
    decorations })] when [actions] and [decorations] hold values of any
    kind: [None] when it is rejected, with the accumulators as they are
    then.  [filter] is called on both values in the callback of each tile:
    on a value that is not an array it throws, in the callback of tile 0,
    for [decorations] after the actions and the angle of that tile have
    been worked out.  Without a heading no callback runs. *)
Definition createArrayOf (a : list JS.value) (acts decos : EventsValue)
           (this : Accum) : option (list Tile) * Accum :=
  match acts, decos, a with
  | EventsOther, _, _ :: _ => (None, this)
  | EventsArray ac, EventsOther, _ :: _ =>
      (None,
       snd (createTile {| opt_angleData := a; opt_actions := ac;
                          opt_decorations := [] |} 0 this))
  | _, _, _ =>
      let (e, acc') :=
        _createArray (List.length a)
          {| opt_angleData := a; opt_actions := eventsOf acts;
             opt_decorations := eventsOf decos |} this in
      (Some e, acc')
  end.

Section Load.

(** [provider.parse], [None] when it throws. *)
Variable parse : Parser.str -> option Parsed.

(** [load]: the outcome of the returned promise and the fields of [this]
    once the executor and the continuation of [_createArray] have run.
    Event callbacks registered with [on] are not modelled. *)
Definition load (opt : Options) (this : State) : Outcome * State :=
  let '(options, st) :=
    match opt with
    | OptString text =>
        match Parser.parseAsObject parse text with
        | Some (ParsedObject o) => (Some o, None)
        | Some ParsedOther => (None, None)
        | None => (None, Some (Rejected ParseFailure))
        end
    | OptObject o => (Some o, None)
    | OptOther => (None, Some (Rejected NotStringOrObject))
    end in
  match options with
  | None =>
      (* ['pathData' in options] throws inside the executor: [options] is
         [undefined] or no object *)
      (settled st (Rejected TypeError), this)
  | Some options =>
      let '(ad, st) :=
        match raw_pathData options with
        | Some pd =>
            (Some (AngleArray (PathData.parseToangleData (pathText pd))), st)
        | None =>
            match raw_angleData options with
            | Some a => (Some a, st)
            | None => (angleData this, settle st (Rejected NoAngleDatas))
            end
        end in
      let acts :=
        match raw_actions options with
        | Some a => a
        | None => EventsArray []
        end in
      let '(se, st) :=
        match raw_settings options with
        | Some x => (Some x, st)
        | None => (settings this, settle st (Rejected NoSettings))
        end in
      let decos :=
        match raw_decorations options with
        | Some d => d
        | None => EventsArray []
        end in
      let this :=
        {| angleData := ad; levelActions := Some acts; settings := se;
           __decorations := Some decos; tiles := [];
           acc := {| _angleDir := JS.Num (-180); _twirlCount := 0 |} |} in
      match ad with
      | None | Some AngleNullish =>
          (* [this.angleData.length] throws inside the executor *)
          (settled st (Rejected TypeError), this)
      | Some AngleLengthless =>
          (* [Array.from({ length: undefined })] is the empty array *)
          (settled st Resolved, this)
      | Some (AngleArray a) =>
          match createArrayOf a acts decos (acc this) with
          | (Some e, acc') => (settled st Resolved, setTiles this e acc')
          | (None, acc') =>
              (settled st (Rejected TypeError), setTiles this [] acc')
          end
      end
  end.

End Load.

(** *** Queries on the tile list *)

Fixpoint indexed_from {A : Type} (i : Z) (l : list A) : list (Z * A) :=
  match l with
  | [] => []
  | a :: l' => (i, a) :: indexed_from (i + 1) l'
  end.

(** [filterActionsByEventType(en)] *)
Definition filterActionsByEventType (ts : list Tile) (en : string)
  : list (Z * Event) :=
  filter (fun p => String.eqb (eventType (snd p)) en)
         (flat_map (fun ia => map (fun b => (fst ia, b)) (actions (snd ia)))
                   (indexed_from 0 ts)).

(** [getActionsByIndex(en, index).actions]; [count] is its length. *)
Definition getActionsByIndex (ts : list Tile) (en : string) (index : Z)
  : list Event :=
  map snd (filter (fun p => fst p =? index) (filterActionsByEventType ts en)).

(** *** Edits *)

Definition setAngle (t : Tile) (a : JS.value) : Tile :=
  {| direction := direction t; _lastdir := _lastdir t; actions := actions t;
     angle := a; addDecorations := addDecorations t; twirl := twirl t;
     position := position t |}.

(** The [map] of [_changeAngle]: [y] is incremented before it is passed on,
    so the first tile is processed with [i = 1]. *)
Fixpoint changeAngle_from (y : Z) (angleDir : JS.value) (ts : list Tile)
  : list Tile * JS.value :=
  match ts with
  | [] => ([], angleDir)
  | t :: ts' =>
      let y := y + 1 in
      let (a, angleDir1) :=
        _parsechangedAngle angleDir (direction t) y (twirl t) (_lastdir t) in
      let (rest, angleDir2) := changeAngle_from y angleDir1 ts' in
      (setAngle t a :: rest, angleDir2)
  end.

Definition _changeAngle (this : State) : State :=
  let (ts, d) := changeAngle_from 0 (_angleDir (acc this)) (tiles this) in
  setTiles this ts
           {| _angleDir := d; _twirlCount := _twirlCount (acc this) |}.

Inductive OpType : Type :=
| append
| insert
| delete
| otherOp.

Record Info : Type := {
  type : OpType;
  id : Z;
  info_direction : JS.value
}.

Definition newTile (d : JS.value) (before : Tile) : Tile :=
  {| direction := d; angle := JS.Num 0; actions := []; addDecorations := [];
     _lastdir := direction before; twirl := twirl before;
     position := None |}.

Definition tileAt (ts : list Tile) (i : Z) : option Tile :=
  if i <? 0 then None else nth_error ts (Z.to_nat i).

(** [appendFloor(args)]; [None] when reading [direction] of the missing last
    tile throws. *)
Definition appendFloor (this : State) (args : Info) : option State :=
  match tileAt (tiles this) (Z.of_nat (List.length (tiles this)) - 1) with
  | None => None
  | Some lastTile =>
      Some (_changeAngle
              (setTiles this
                        (tiles this ++ [newTile (info_direction args) lastTile])
                        (acc this)))
  end.

(** The start index that [splice] derives from its first argument. *)
Definition spliceStart (len : nat) (start : Z) : nat :=
  if start <? 0 then Z.to_nat (Z.max (Z.of_nat len + start) 0)
  else Nat.min (Z.to_nat start) len.

(** [floorOperation(info)]; [None] when it throws. *)
Definition floorOperation (this : State) (info : Info) : option State :=
  match type info with
  | append => option_map _changeAngle (appendFloor this info)
  | insert =>
      match tileAt (tiles this) (id info - 1) with
      | None => None
      | Some before =>
          let k := spliceStart (List.length (tiles this)) (id info) in
          Some (_changeAngle
                  (setTiles this
                     (firstn k (tiles this)
                      ++ newTile (info_direction info) before
                      :: skipn k (tiles this))
                     (acc this)))
      end
  | delete =>
      let k := spliceStart (List.length (tiles this)) (id info) in
      Some (_changeAngle
              (setTiles this
                        (firstn k (tiles this) ++ skipn (S k) (tiles this))
                        (acc this)))
  | otherOp => Some this
  end.

(** *** [calculateTileCoordinates] *)

Definition setPosition (t : Tile) (p : Position) : Tile :=
  {| direction := direction t; _lastdir := _lastdir t; actions := actions t;
     angle := angle t; addDecorations := addDecorations t; twirl := twirl t;
     position := Some p |}.

Fixpoint replaceAt {A : Type} (l : list A) (i : nat) (a : A) : list A :=
  match l, i with
  | [], _ => []
  | _ :: l', O => a :: l'
  | b :: l', S i' => b :: replaceAt l' i' a
  end.

(** [e !== true & e !== 'Enabled'] on the [editorOnly] property. *)
Definition offsetApplies (e : option EditorOnly) : bool :=
  match e with
  | Some EditorOnlyTrue => false
  | Some EditorOnlyEnabled => false
  | _ => true
  end.

Section Coordinates.

Variables Math_cos Math_sin : float -> float.

(** [Number(x.toFixed(8))] *)
Variable toFixed8 : float -> float.

(** The first loop: the heading of every tile, a midspin taking the raw
    previous entry plus 180. *)
Definition floatsOf (angles : list JS.value) (n : nat) : list JS.value :=
  map (fun i =>
         let value := JS.index angles (Z.of_nat i) in
         if JS.eqZ value 999
         then JS.add (JS.index angles (Z.of_nat i - 1)) (JS.Num 180)
         else value)
      (seq 0 n).

(** One round of the second loop; the state is [startPos] and the tiles. *)
Definition coordinateStep (floats : list JS.value)
           (st : float * float * list Tile) (i : Z)
  : float * float * list Tile :=
  let '(sx, sy, ts) := st in
  let len := Z.of_nat (List.length floats) in
  let angle1 :=
    JS.orZero (if i =? len then JS.index floats (i - 1)
               else JS.index floats i) in
  let angle2 :=
    JS.orZero (if i =? 0 then JS.Num 0 else JS.index floats (i - 1)) in
  let currentTile := tileAt ts i in
  let '(sx, sy) :=
    match getActionsByIndex ts "PositionTrack" i with
    | pevent :: _ =>
        match positionOffset pevent with
        | Some (ox, oy) =>
            if offsetApplies (editorOnly pevent)
            then ((sx + ox)%float, (sy + oy)%float)
            else (sx, sy)
        | None => (sx, sy)
        end
    | [] => (sx, sy)
    end in
  let sx := (sx + Math_cos (JSMath.ofZ angle1 * JSMath.PI / 180))%float in
  let sy := (sy + Math_sin (JSMath.ofZ angle1 * JSMath.PI / 180))%float in
  match currentTile with
  | Some t =>
      let p :=
        {| pos_x := toFixed8 sx; pos_y := toFixed8 sy;
           angle1 := angle1; angle2 := angle2 - 180;
           cangle := if i =? len
                     then JS.add (JS.index floats (i - 1)) (JS.Num 180)
                     else JS.index floats i |} in
      (sx, sy, replaceAt ts (Z.to_nat i) (setPosition t p))
  | None => (sx, sy, ts)
  end.

(** [calculateTileCoordinates()]; [None] when indexing an [angleData] that
    was never assigned, or is [null], throws.  The items of an [angleData]
    of another kind read as [undefined], like those past the end of an
    array. *)
Definition calculateTileCoordinates (this : State) : option State :=
  let n := List.length (tiles this) in
  match angleData this, n with
  | None, S _ | Some AngleNullish, S _ => None
  | ad, _ =>
      let angles := match ad with Some (AngleArray a) => a | _ => [] end in
      let floats := floatsOf angles n in
      let '(_, _, ts) :=
        fold_left (coordinateStep floats)
                  (map Z.of_nat (seq 0 (S (List.length floats))))
                  (0%float, 0%float, tiles this) in
      Some (setTiles this ts (acc this))
  end.

End Coordinates.

(** *** Export helpers *)

Definition _flattenAngleDatas (ts : list Tile) : list JS.value :=
  map direction ts.

Definition _flattenActionsWithFloor (ts : list Tile) : list Floored :=
  flat_map (fun ia => map (fun a => {| floor := fst ia; rest := a |})
                          (actions (snd ia)))
           (indexed_from 0 ts).

Definition _flattenDecorationsWithFloor (ts : list Tile) : list Floored :=
  flat_map (fun ia => map (fun a => {| floor := fst ia; rest := a |})
                          (addDecorations (snd ia)))
           (indexed_from 0 ts).

(** The tile list that [load] builds from an exported level: fresh
    accumulators, then [_createArray] over the flattened data. *)
Definition rebuild (ts : list Tile) : list Tile :=
  fst (_createArray (List.length ts)
         {| opt_angleData := _flattenAngleDatas ts;
            opt_actions := _flattenActionsWithFloor ts;
            opt_decorations := _flattenDecorationsWithFloor ts |}
         {| _angleDir := JS.Num (-180); _twirlCount := 0 |}).

End Level.

(* ------------------------------------------------------------------ *)
(** ** mesh_reserve.js *)

Module Mesh.

Open Scope float_scope.

Definition TILE_WIDTH : float := 0.275.
Definition TILE_LENGTH : float := 0.5.
Definition OUTLINE : float := 0.025.

(** [fmod]: [x >= 0] is false for [NaN]. *)
Definition fmod (x y : float) : float :=
  if 0 <=? x then JSMath.rem x y else JSMath.rem x y + y.

Definition lerp (a b t : float) : float := a + (b - a) * t.

Record Vector3 : Type := { x : float; y : float; z : float }.
Record Color : Type := { r : float; g : float; b : float }.

(** The three arrays of a mesh under construction.  Face entries are vertex
    indices. *)
Record Buffers : Type := {
  vertices : list float;
  faces : list Z;
  colors : list float
}.

Definition empty : Buffers := {| vertices := []; faces := []; colors := [] |}.

Definition pushVertices (m : Buffers) (vs : list float) : Buffers :=
  {| vertices := vertices m ++ vs; faces := faces m; colors := colors m |}.
Definition pushFaces (m : Buffers) (fs : list Z) : Buffers :=
  {| vertices := vertices m; faces := faces m ++ fs; colors := colors m |}.
Definition pushColors (m : Buffers) (cs : list float) : Buffers :=
  {| vertices := vertices m; faces := faces m; colors := colors m ++ cs |}.

(** [vertices.length / 3]: only whole triples are ever pushed, so the
    quotient is an integer ([MeshFacts.vertexCount_exact] states it for the
    finished mesh). *)
Definition vertexCount (m : Buffers) : Z :=
  (Z.of_nat (List.length (vertices m)) / 3)%Z.

(** [for (let i = 0; i < n; i++) colors.push(c.r, c.g, c.b)] *)
Fixpoint pushColorTimes (n : nat) (c : Color) (m : Buffers) : Buffers :=
  match n with
  | O => m
  | S n' => pushColorTimes n' c (pushColors m [r c; g c; b c])
  end.

Definition blackColor : Color := {| r := 0; g := 0; b := 0 |}.
Definition whiteColor : Color := {| r := 1; g := 1; b := 1 |}.

Section Generator.

Variables Math_cos Math_sin : float -> float.
Variable Math_pow : float -> float -> float.

(** The loop of [createCircle] that adds the rim vertices, for
    [i = i0 .. i0 + n - 1]. *)
Fixpoint circleRim (n : nat) (i0 : Z) (resolution : Z)
         (center : Vector3) (radius : float) (color : Color) (m : Buffers)
  : Buffers :=
  match n with
  | O => m
  | S n' =>
      let angle := (2 * JSMath.PI * JSMath.ofZ i0) / JSMath.ofZ resolution in
      let vx := Math_cos angle * radius + x center in
      let vy := Math_sin angle * radius + y center in
      let m := pushVertices m [vx; vy; z center] in
      let m := pushColors m [r color; g color; b color] in
      circleRim n' (i0 + 1)%Z resolution center radius color m
  end.

(** The loop of [createCircle] that adds the fan triangles, for
    [i = i0 .. i0 + n - 1]. *)
Fixpoint circleFan (n : nat) (i0 : Z) (centerIndex : Z) (m : Buffers)
  : Buffers :=
  match n with
  | O => m
  | S n' =>
      circleFan n' (i0 + 1)%Z centerIndex
                (pushFaces m [centerIndex; (centerIndex + i0)%Z;
                              (centerIndex + i0 + 1)%Z])
  end.

Definition createCircle (center : Vector3) (radius : float) (color : Color)
           (m : Buffers) (resolution : Z) : Buffers :=
  let resolution := if (resolution <=? 0)%Z then 32%Z else resolution in
  let centerIndex := vertexCount m in
  let m := pushVertices m [x center; y center; z center] in
  let m := pushColors m [r color; g color; b color] in
  let m := circleRim (Z.to_nat resolution) 0 resolution center radius color m in
  let m := circleFan (Z.to_nat resolution - 1) 1 centerIndex m in
  pushFaces m [centerIndex; (centerIndex + resolution)%Z; (centerIndex + 1)%Z].

(** The seven vertices of one layer of the midspin marker. *)
Definition midSpinVertices (midpoint : Vector3) (lengthi w m1 m2 : float)
  : list float :=
  [ x midpoint + lengthi * m1 + w * m2;
    y midpoint + lengthi * m2 - w * m1;
    0;
    x midpoint + lengthi * m1 - w * m2;
    y midpoint + lengthi * m2 + w * m1;
    0;
    x midpoint - w * m2;
    y midpoint + w * m1;
    0;
    x midpoint + w * m2;
    y midpoint - w * m1;
    0;
    x midpoint - w * m1;
    y midpoint - w * m2;
    0;
    x midpoint + w * m2;
    y midpoint - w * m1;
    0;
    x midpoint - w * m2;
    y midpoint + w * m1;
    0 ].

Definition midSpinFaces (count : Z) : list Z :=
  [ count; count + 1; count + 2; count + 2; count + 3; count;
    count + 4; count + 5; count + 6 ]%Z.

(** [createMidSpinMesh(angle, width, length, outline)].  The outer layer
    uses the copies [widthi] and [lengthi]; the inner layer uses the
    parameter [width] itself and the already enlarged [lengthi]. *)
Definition createMidSpinMesh (angle : float) (width length outline : float)
  : Buffers :=
  let widthi := width in
  let lengthi := length in
  let m1 := Math_cos ((angle / 180) * JSMath.PI) in
  let m2 := Math_sin ((angle / 180) * JSMath.PI) in
  let m := empty in
  let midpoint := {| x := (- m1) * 0.04; y := (- m2) * 0.04; z := 0 |} in
  let widthi := widthi + outline in
  let lengthi := lengthi + outline in
  let count := 0%Z in
  let m := pushVertices m (midSpinVertices midpoint lengthi widthi m1 m2) in
  let m := pushColorTimes 7 blackColor m in
  let m := pushFaces m (midSpinFaces count) in
  let width := width - OUTLINE * 2 in
  let lengthi := lengthi - OUTLINE * 2 in
  let count := vertexCount m in
  let m := pushVertices m (midSpinVertices midpoint lengthi width m1 m2) in
  let m := pushColorTimes 7 whiteColor m in
  pushFaces m (midSpinFaces count).

(** The six vertices joining the chamfer circle to the two heading rays. *)
Definition connectingVertices (radius circlex circley width a0 a1 : float)
  : list float :=
  [ (- radius) * Math_sin a1 + circlex;
    radius * Math_cos a1 + circley;
    0;
    circlex;
    circley;
    0;
    radius * Math_sin a0 + circlex;
    (- radius) * Math_cos a0 + circley;
    0;
    width * Math_sin a0;
    (- width) * Math_cos a0;
    0;
    0;
    0;
    0;
    (- width) * Math_sin a1;
    width * Math_cos a1;
    0 ].

Definition connectingFaces (count : Z) : list Z :=
  [ count; count + 1; count + 5;
    count + 4; count + 1; count + 5;
    count + 2; count + 3; count + 4;
    count + 1; count + 3; count + 4 ]%Z.

(** The eight vertices of the two end caps. *)
Definition endCapVertices (length width m11 m12 m21 m22 : float)
  : list float :=
  [ length * m11 + width * m12;
    length * m12 - width * m11;
    0;
    length * m11 - width * m12;
    length * m12 + width * m11;
    0;
    (- width) * m12;
    width * m11;
    0;
    width * m12;
    (- width) * m11;
    0;
    length * m21 + width * m22;
    length * m22 - width * m21;
    0;
    length * m21 - width * m22;
    length * m22 + width * m21;
    0;
    (- width) * m22;
    width * m21;
    0;
    width * m22;
    (- width) * m21;
    0 ].

Definition endCapFaces (count : Z) : list Z :=
  [ count; count + 1; count + 2; count + 2; count + 3; count;
    count + 4; count + 5; count + 6; count + 6; count + 7; count + 4 ]%Z.

(** The four vertices of the wedge of the wide family. *)
Definition wedgeVertices (circlex circley width a0 a1 : float) : list float :=
  [ circlex;
    circley;
    0;
    width * Math_sin a0;
    (- width) * Math_cos a0;
    0;
    0;
    0;
    0;
    (- width) * Math_sin a1;
    width * Math_cos a1;
    0 ].

Definition wedgeFaces (count : Z) : list Z :=
  [ count; count + 1; count + 2; count + 2; count + 3; count ]%Z.

(** The radius scale [x] of the curved family. *)
Definition chamferScale (angle : float) : float :=
  if angle <? 0.08726646 then 1
  else if angle <? 0.5235988 then
    lerp 1 0.83 (Math_pow ((angle - 0.08726646) / 0.43633235) 0.5)
  else if angle <? 0.7853982 then
    lerp 0.83 0.77 (Math_pow ((angle - 0.5235988) / 0.2617994) 1)
  else if angle <? 1.5707964 then
    lerp 0.77 0.15 (Math_pow ((angle - 0.7853982) / 0.7853982) 0.7)
  else
    lerp 0.15 0 (Math_pow ((angle - 1.5707964) / 0.5235988) 0.5).

(** The normalised pair [a[0]], [a[1]] in radians.  The headings are
    doubles, and so are their differences: [u >= v] is [v <= u]. *)
Definition sweep (startAngle endAngle : float) : float * float :=
  if fmod (endAngle - startAngle) 360 <=? fmod (startAngle - endAngle) 360
  then
    let a0 := (fmod startAngle 360 * JSMath.PI) / 180 in
    (a0, a0 + (fmod (endAngle - startAngle) 360 * JSMath.PI) / 180)
  else
    let a0 := (fmod endAngle 360 * JSMath.PI) / 180 in
    (a0, a0 + (fmod (startAngle - endAngle) 360 * JSMath.PI) / 180).

Definition createTileMesh (startAngle endAngle : float)
           (length width outline : float) : Buffers :=
  let m := empty in
  let m11 := Math_cos ((startAngle / 180) * JSMath.PI) in
  let m12 := Math_sin ((startAngle / 180) * JSMath.PI) in
  let m21 := Math_cos ((endAngle / 180) * JSMath.PI) in
  let m22 := Math_sin ((endAngle / 180) * JSMath.PI) in
  let (a0, a1) := sweep startAngle endAngle in
  let angle := a1 - a0 in
  let mid := a0 + angle / 2 in
  if (angle <? 2.0943952) && (0 <? angle) then
    (* Small angle case *)
    let sx := chamferScale angle in
    let '(distance, radius) :=
      if sx =? 1 then (0, width)
      else let radius := lerp 0 width sx in
           ((width - radius) / Math_sin (angle / 2), radius) in
    let circlex := (- distance) * Math_cos mid in
    let circley := (- distance) * Math_sin mid in
    (* outline *)
    let width := width + outline in
    let length := length + outline in
    let radius := radius + outline in
    let m := createCircle {| x := circlex; y := circley; z := 0 |}
                          radius blackColor m 32 in
    let count := vertexCount m in
    let m := pushVertices m
               (connectingVertices radius circlex circley width a0 a1) in
    let m := pushColorTimes 6 blackColor m in
    let m := pushFaces m (connectingFaces count) in
    let count := vertexCount m in
    let m := pushVertices m (endCapVertices length width m11 m12 m21 m22) in
    let m := pushColorTimes 8 blackColor m in
    let m := pushFaces m (endCapFaces count) in
    (* inner part *)
    let width := width - outline * 2 in
    let length := length - outline * 2 in
    let radius := radius - outline * 2 in
    let '(radius, circlex, circley) :=
      if radius <? 0
      then (0, ((- width) / Math_sin (angle / 2)) * Math_cos mid,
               ((- width) / Math_sin (angle / 2)) * Math_sin mid)
      else (radius, circlex, circley) in
    let m := createCircle {| x := circlex; y := circley; z := 0 |}
                          radius whiteColor m 32 in
    let count := vertexCount m in
    let m := pushVertices m
               (connectingVertices radius circlex circley width a0 a1) in
    let m := pushColorTimes 6 whiteColor m in
    let m := pushFaces m (connectingFaces count) in
    let count := vertexCount m in
    let m := pushVertices m (endCapVertices length width m11 m12 m21 m22) in
    let m := pushColorTimes 8 whiteColor m in
    pushFaces m (endCapFaces count)
  else if 0 <? angle then
    (* Normal case *)
    let width := width + outline in
    let length := length + outline in
    let circlex := ((- width) / Math_sin (angle / 2)) * Math_cos mid in
    let circley := ((- width) / Math_sin (angle / 2)) * Math_sin mid in
    let count := 0%Z in
    let m := pushVertices m (wedgeVertices circlex circley width a0 a1) in
    let m := pushColorTimes 4 blackColor m in
    let m := pushFaces m (wedgeFaces count) in
    let count := vertexCount m in
    let m := pushVertices m (endCapVertices length width m11 m12 m21 m22) in
    let m := pushColorTimes 8 blackColor m in
    let m := pushFaces m (endCapFaces count) in
    let width := width - outline * 2 in
    let length := length - outline * 2 in
    let innerCirclex := ((- width) / Math_sin (angle / 2)) * Math_cos mid in
    let innerCircley := ((- width) / Math_sin (angle / 2)) * Math_sin mid in
    let count := vertexCount m in
    let m := pushVertices m
               (wedgeVertices innerCirclex innerCircley width a0 a1) in
    let m := pushColorTimes 4 whiteColor m in
    let m := pushFaces m (wedgeFaces count) in
    let count := vertexCount m in
    let m := pushVertices m (endCapVertices length width m11 m12 m21 m22) in
    let m := pushColorTimes 8 whiteColor m in
    pushFaces m (endCapFaces count)
  else m.

(** [createTrackMesh(startAngle, endAngle, isMidspin, length, width,
    outline)]; the midspin marker is built with its own default sizes. *)
Definition createTrackMesh (startAngle endAngle : float) (isMidspin : bool)
           (length width outline : float) : Buffers :=
  if isMidspin
  then createMidSpinMesh startAngle TILE_WIDTH TILE_WIDTH OUTLINE
  else createTileMesh startAngle endAngle length width outline.

End Generator.

End Mesh.

(* ------------------------------------------------------------------ *)
(** ** The previewer of the editor page: orbiting planets *)

Module Previewer.

Open Scope float_scope.

Inductive PlaybackState : Type :=
| HOLDING
| PLAYING.

(** A planet; [pos] is the [x] and [y] of [mesh.position]. *)
Record Planet : Type := {
  id : Z;
  pos : float * float;
  angle : float;
  isCenter : bool;
  tileIndex : Z
}.

(** The fields of the previewer that the simulation reads and writes. *)
Record State : Type := {
  playbackState : PlaybackState;
  planets : list Planet;
  currentBpm : float;
  rotationSpeed : float;
  isClockwise : bool;
  centerPlanetIndex : Z;
  currentTileIndex : Z
}.

Definition setAngle (p : Planet) (a : float) : Planet :=
  {| id := id p; pos := pos p; angle := a; isCenter := isCenter p;
     tileIndex := tileIndex p |}.

Definition setPos (p : Planet) (xy : float * float) : Planet :=
  {| id := id p; pos := xy; angle := angle p; isCenter := isCenter p;
     tileIndex := tileIndex p |}.

Definition setPlanets (this : State) (ps : list Planet) : State :=
  {| playbackState := playbackState this; planets := ps;
     currentBpm := currentBpm this; rotationSpeed := rotationSpeed this;
     isClockwise := isClockwise this;
     centerPlanetIndex := centerPlanetIndex this;
     currentTileIndex := currentTileIndex this |}.

Definition planetAt (this : State) (i : Z) : option Planet :=
  if (i <? 0)%Z then None else nth_error (planets this) (Z.to_nat i).

(** [this.isClockwise ? 1 : -1] *)
Definition sign (this : State) : float :=
  if isClockwise this then 1 else -1.

(** [updateRotationSpeed()] *)
Definition updateRotationSpeed (this : State) : State :=
  {| playbackState := playbackState this; planets := planets this;
     currentBpm := currentBpm this;
     rotationSpeed := (2 * JSMath.PI) / (60000 / currentBpm this);
     isClockwise := isClockwise this;
     centerPlanetIndex := centerPlanetIndex this;
     currentTileIndex := currentTileIndex this |}.

Definition setBpm (this : State) (v : float) : State :=
  {| playbackState := playbackState this; planets := planets this;
     currentBpm := v; rotationSpeed := rotationSpeed this;
     isClockwise := isClockwise this;
     centerPlanetIndex := centerPlanetIndex this;
     currentTileIndex := currentTileIndex this |}.

Definition flipClockwise (this : State) : State :=
  {| playbackState := playbackState this; planets := planets this;
     currentBpm := currentBpm this; rotationSpeed := rotationSpeed this;
     isClockwise := negb (isClockwise this);
     centerPlanetIndex := centerPlanetIndex this;
     currentTileIndex := currentTileIndex this |}.

Definition setCenter (this : State) (planetIndex tileIdx : Z) : State :=
  {| playbackState := playbackState this; planets := planets this;
     currentBpm := currentBpm this; rotationSpeed := rotationSpeed this;
     isClockwise := isClockwise this;
     centerPlanetIndex := planetIndex;
     currentTileIndex := tileIdx |}.

(** The Pause part of [processActionsAtTile]. *)
Definition applyPause (tiles : list Level.Tile) (tileIdx : Z) (this : State)
  : State :=
  match Level.getActionsByIndex tiles "Pause" tileIdx with
  | first :: _ =>
      let d := JSMath.orElse (duration first) 0 in
      let extraRotation := ((d / 2) * 2) * JSMath.PI in
      setPlanets this
        (map (fun planet =>
                if (id planet =? centerPlanetIndex this)%Z then planet
                else setAngle planet (angle planet + extraRotation * sign this))
             (planets this))
  | [] => this
  end.

(** The SetSpeed part of [processActionsAtTile]. *)
Definition applySetSpeed (tiles : list Level.Tile) (tileIdx : Z) (this : State)
  : State :=
  match Level.getActionsByIndex tiles "SetSpeed" tileIdx with
  | action :: _ =>
      let this :=
        match speedType action with
        | Some ty =>
            if String.eqb ty "Multiplier"
            then setBpm this
                        (currentBpm this * JSMath.orElse (bpmMultiplier action) 1)
            else if String.eqb ty "Bpm"
            then setBpm this
                        (JSMath.orElse (beatsPerMinute action) (currentBpm this))
            else this
        | None => this
        end in
      updateRotationSpeed this
  | [] => this
  end.

(** The Twirl part of [processActionsAtTile]. *)
Definition applyTwirl (tiles : list Level.Tile) (tileIdx : Z) (this : State)
  : State :=
  match Level.getActionsByIndex tiles "Twirl" tileIdx with
  | _ :: _ => flipClockwise this
  | [] => this
  end.

(** [processActionsAtTile(tileIndex)] *)
Definition processActionsAtTile (tiles : list Level.Tile) (tileIdx : Z)
           (this : State) : State :=
  applyTwirl tiles tileIdx (applySetSpeed tiles tileIdx (applyPause tiles tileIdx this)).

Section Simulation.

Variable Math_cos Math_sin : float -> float.
Variable Math_pow : float -> float -> float.
Variable Math_atan2 : float -> float -> float.

(** [recalculatePlanetAngles()] *)
Definition recalculatePlanetAngles (this : State) : State :=
  match planetAt this (centerPlanetIndex this) with
  | None => this
  | Some centerPlanet =>
      setPlanets this
        (map (fun ip =>
                let planet := snd ip in
                if (fst ip =? centerPlanetIndex this)%Z then planet
                else
                  let dx := fst (pos planet) - fst (pos centerPlanet) in
                  let dy := snd (pos planet) - snd (pos centerPlanet) in
                  setAngle planet (Math_atan2 dy dx))
             (Level.indexed_from 0 (planets this)))
  end.

(** The distance test of [checkPlanetTileTransition]. *)
Definition closeEnough (planetPos tilePos : float * float) : bool :=
  let distance :=
    PrimFloat.sqrt (Math_pow (fst planetPos - fst tilePos) 2
                    + Math_pow (snd planetPos - snd tilePos) 2) in
  distance <? 0.5.

(** [checkPlanetTileTransition(planet, planetIndex)] with
    [planet = this.planets[planetIndex]]; [None] when destructuring the
    [position] of a tile that has none throws. *)
Definition checkPlanetTileTransition (tiles : list Level.Tile)
           (this : State) (planetIndex : Z) : option State :=
  let nextTileIndex := (centerPlanetIndex this + 1)%Z in
  match Level.tileAt tiles nextTileIndex, planetAt this planetIndex with
  | None, _ => Some this
  | Some _, None => Some this
  | Some nextTile, Some planet =>
      match Level.position nextTile with
      | None => None
      | Some p =>
          if closeEnough (pos planet) (Level.pos_x p, Level.pos_y p) then
            let this := setCenter this planetIndex nextTileIndex in
            let this := processActionsAtTile tiles nextTileIndex this in
            Some (recalculatePlanetAngles this)
          else Some this
      end
  end.

(** One round of the [forEach] of [updatePlanets]; [c0] is the index of
    the planet whose position object [centerPos] refers to. *)
Definition updatePlanet (tiles : list Level.Tile) (c0 : Z)
           (rotationDelta : float) (this : State) (index : Z)
  : option State :=
  if (index =? centerPlanetIndex this)%Z then Some this
  else
    match planetAt this index, planetAt this c0 with
    | Some planet, Some centerPlanet =>
        let a := angle planet + rotationDelta in
        let radius := 3.0 in
        let px := fst (pos centerPlanet) + radius * Math_cos a in
        let py := snd (pos centerPlanet) + radius * Math_sin a in
        let this :=
          setPlanets this
            (Level.replaceAt (planets this) (Z.to_nat index)
                             (setPos (setAngle planet a) (px, py))) in
        checkPlanetTileTransition tiles this index
    | _, _ => Some this
    end.

(** [updatePlanets(deltaTime)], without the particle trails. *)
Definition updatePlanets (tiles : list Level.Tile) (deltaTime : float)
           (this : State) : option State :=
  match playbackState this, planets this with
  | HOLDING, _ => Some this
  | PLAYING, [] => Some this
  | PLAYING, _ :: _ =>
      match planetAt this (centerPlanetIndex this) with
      | None => Some this
      | Some _ =>
          let c0 := centerPlanetIndex this in
          let rotationDelta := (rotationSpeed this * deltaTime) * sign this in
          fold_left
            (fun st index =>
               match st with
               | Some s => updatePlanet tiles c0 rotationDelta s index
               | None => None
               end)
            (map Z.of_nat (seq 0 (List.length (planets this))))
            (Some this)
      end
  end.

End Simulation.

Section Rendering.

Variables Math_cos Math_sin : float -> float.
Variable Math_pow : float -> float -> float.

Definition directionAt (tiles : list Level.Tile) (i : Z) : JS.value :=
  match Level.tileAt tiles i with
  | Some t => Level.direction t
  | None => JS.Undefined
  end.

(** The mesh requested for the tile [id] when the visible tiles are
    drawn: [createTrackMesh(pred, pred2, tiles[id]?.direction == 999)].
    The headings of the tiles are handed over as the doubles they are, and
    [- 180] is the subtraction of doubles. *)
Definition tileMeshData (tiles : list Level.Tile) (id : Z) : Mesh.Buffers :=
  let pred := JSMath.ofZ (JS.orZero (directionAt tiles (id - 1))) - 180 in
  let pred :=
    if JS.eqZ (directionAt tiles (id - 1)) 999
    then JSMath.ofZ (JS.orZero (directionAt tiles (id - 2)))
    else pred in
  let pred2 := JSMath.ofZ (JS.orZero (directionAt tiles id)) in
  Mesh.createTrackMesh Math_cos Math_sin Math_pow pred pred2
                       (JS.eqZ (directionAt tiles id) 999)
                       Mesh.TILE_LENGTH Mesh.TILE_WIDTH Mesh.OUTLINE.

End Rendering.

(** The two planets that [createPlanets] puts on the first two tiles. *)
Definition createPlanets (tile0 tile1 : float * float) : list Planet :=
  [ {| id := 0; pos := tile0; angle := 0; isCenter := true; tileIndex := 0 |};
    {| id := 1; pos := tile1; angle := JSMath.PI; isCenter := false;
       tileIndex := 1 |} ].

End Previewer.

(* ------------------------------------------------------------------ *)
(** ** presets.js *)

Module Presets.

Record Preset : Type := {
  type : string;
  events : list string
}.

Definition preset_noeffect : Preset :=
  {| type := "exclude";
     events := [ "Flash"; "SetFilter"; "SetFilterAdvanced"; "HallOfMirrors";
                 "Bloom"; "ScalePlanets"; "ScreenTile"; "ScreenScroll";
                 "ShakeScreen" ]%string |}.

Definition preset_noholds : Preset :=
  {| type := "exclude"; events := [ "Hold" ]%string |}.

Definition preset_nomovecamera : Preset :=
  {| type := "exclude"; events := [ "MoveCamera" ]%string |}.

Definition preset_noeffect_completely : Preset :=
  {| type := "exclude";
     events := [ "AddDecoration"; "AddText"; "AddObject"; "Checkpoint";
                 "SetHitsound"; "PlaySound"; "SetPlanetRotation";
                 "ScalePlanets"; "ColorTrack"; "AnimateTrack";
                 "RecolorTrack"; "MoveTrack"; "PositionTrack";
                 "MoveDecorations"; "SetText"; "SetObject";
                 "SetDefaultText"; "CustomBackground"; "Flash";
                 "MoveCamera"; "SetFilter"; "HallOfMirrors"; "ShakeScreen";
                 "Bloom"; "ScreenTile"; "ScreenScroll"; "SetFrameRate";
                 "RepeatEvents"; "SetConditionalEvents"; "EditorComment";
                 "Bookmark"; "Hold"; "SetHoldSound"; "Hide"; "ScaleMargin";
                 "ScaleRadius" ]%string |}.

Definition preset_inner_no_deco : Preset :=
  {| type := "special";
     events := [ "MoveDecorations"; "SetText"; "SetObject";
                 "SetDefaultText" ]%string |}.

(** The exports of the module by name. *)
Definition exported : list (string * Preset) :=
  [ ("preset_noeffect", preset_noeffect);
    ("preset_noholds", preset_noholds);
    ("preset_nomovecamera", preset_nomovecamera);
    ("preset_noeffect_completely", preset_noeffect_completely);
    ("preset_inner_no_deco", preset_inner_no_deco) ]%string.

(** [presets[presetName]] on the module namespace object; [None] is
    [undefined]. *)
Fixpoint lookup (l : list (string * Preset)) (presetName : string)
  : option Preset :=
  match l with
  | [] => None
  | (k, v) :: l' => if String.eqb k presetName then Some v else lookup l' presetName
  end.

End Presets.

(* ------------------------------------------------------------------ *)
(** ** effectProcessor.js *)

Module EffectProcessor.

Import Level.

(** [eventTypes.includes(ty)] *)
Definition includes (eventTypes : list string) (ty : string) : bool :=
  existsb (String.eqb ty) eventTypes.

(** [{ ...tile }] with [actions] and [addDecorations] replaced.  Every tile
    that [Level] builds has both keys and [actions] is an array, so the
    guards [hasOwnProperty('addDecorations')] and [Array.isArray] hold. *)
Definition withActions (tile : Tile) (acts : list Event) : Tile :=
  {| direction := direction tile; _lastdir := _lastdir tile; actions := acts;
     angle := angle tile; addDecorations := addDecorations tile;
     twirl := twirl tile; position := position tile |}.

Definition withDecorations (tile : Tile) (decos : list Event) : Tile :=
  {| direction := direction tile; _lastdir := _lastdir tile;
     actions := actions tile; angle := angle tile; addDecorations := decos;
     twirl := twirl tile; position := position tile |}.

Definition clearDecorations (tiles : list Tile) : list Tile :=
  map (fun tile =>
         let newTile := withDecorations tile [] in
         withActions newTile
           (filter (fun action =>
                      negb (includes (Presets.events Presets.preset_inner_no_deco)
                                     (eventType action)))
                   (actions newTile)))
      tiles.

Definition clearEvents (eventTypes : list string) (tiles : list Tile)
  : list Tile :=
  map (fun tile =>
         withActions tile
           (filter (fun action => negb (includes eventTypes (eventType action)))
                   (actions tile)))
      tiles.

Definition keepEvents (eventTypes : list string) (tiles : list Tile)
  : list Tile :=
  map (fun tile =>
         withActions tile
           (filter (fun action => includes eventTypes (eventType action))
                   (actions tile)))
      tiles.

End EffectProcessor.

(* ------------------------------------------------------------------ *)
(** ** structure.js: the methods of [Level] that clear events *)

Module LevelEffects.

Import Level.

(** [clearDeco()]; it returns [true]. *)
Definition clearDeco (this : State) : State :=
  setTiles this (EffectProcessor.clearDecorations (tiles this)) (acc this).

(** [clearEvent(preset)] *)
Definition clearEvent (this : State) (preset : Presets.Preset) : State :=
  if String.eqb (Presets.type preset) "include" then
    setTiles this
             (EffectProcessor.keepEvents (Presets.events preset) (tiles this))
             (acc this)
  else if String.eqb (Presets.type preset) "exclude" then
    setTiles this
             (EffectProcessor.clearEvents (Presets.events preset) (tiles this))
             (acc this)
  else this.

(** [clearEffect(presetName)]; [None] when reading [type] of [undefined]
    throws. *)
Definition clearEffect (this : State) (presetName : string) : option State :=
  match Presets.lookup Presets.exported presetName with
  | Some preset => Some (clearEvent this preset)
  | None => None
  end.

End LevelEffects.

(* ------------------------------------------------------------------ *)
(** ** structure.js: the event registry of [Level] *)

Module Emitter.

(** A GUID is the string [event_<Date.now()>_<guidCounter>_<salt>]; two such
    strings are equal exactly when the three numbers are, so a GUID is kept
    as the triple.  A string of another shape is never a key of
    [guidCallbacks]. *)
Record Guid : Type := {
  stamp : Z;
  serial : Z;
  salt : Z
}.

Definition guid_eqb (a b : Guid) : bool :=
  (stamp a =? stamp b) && (serial a =? serial b) && (salt a =? salt b).

(** A callback is compared by reference ([cb !== callback]); it is kept as
    the name of the function object. *)
Definition Callback : Type := nat.

(** An entry [{ guid, callback }] of the array of an event name. *)
Record Registration : Type := {
  guid : Guid;
  callback : Callback
}.

(** A value [{ eventName, callback }] of [guidCallbacks]. *)
Record Origin : Type := {
  eventName : string;
  origin_callback : Callback
}.

(** *** [Map]: [get], [has], [set] and [delete] *)

Section Maps.

Context {K V : Type}.
Variable eqb : K -> K -> bool.

Fixpoint get (m : list (K * V)) (k : K) : option V :=
  match m with
  | [] => None
  | (k', v) :: m' => if eqb k' k then Some v else get m' k
  end.

Definition has (m : list (K * V)) (k : K) : bool :=
  match get m k with
  | Some _ => true
  | None => false
  end.

(** An existing key keeps its place, a new key goes to the end. *)
Fixpoint set (m : list (K * V)) (k : K) (v : V) : list (K * V) :=
  match m with
  | [] => [(k, v)]
  | (k', v') :: m' =>
      if eqb k' k then (k', v) :: m' else (k', v') :: set m' k v
  end.

Definition delete (m : list (K * V)) (k : K) : list (K * V) :=
  filter (fun kv => negb (eqb (fst kv) k)) m.

End Maps.

(** The three fields that the constructor sets up. *)
Record State : Type := {
  _events : list (string * list Registration);
  guidCallbacks : list (Guid * Origin);
  guidCounter : Z
}.

Definition fresh : State :=
  {| _events := []; guidCallbacks := []; guidCounter := 0 |}.

(** [generateGUID()], where [now] is [Date.now()] and [rnd] is
    [Math.floor(Math.random() * 1000)]. *)
Definition generateGUID (this : State) (now rnd : Z) : Guid * State :=
  ({| stamp := now; serial := guidCounter this; salt := rnd |},
   {| _events := _events this; guidCallbacks := guidCallbacks this;
      guidCounter := guidCounter this + 1 |}).

(** [on(eventName, callback)] *)
Definition on (this : State) (name : string) (cb : Callback) (now rnd : Z)
  : Guid * State :=
  let events :=
    if has String.eqb (_events this) name then _events this
    else set String.eqb (_events this) name [] in
  let (g, this1) := generateGUID this now rnd in
  let eventCallbacks :=
    match get String.eqb events name with
    | Some l => l
    | None => []
    end in
  let events :=
    set String.eqb events name
        (eventCallbacks ++ [{| guid := g; callback := cb |}]) in
  (g,
   {| _events := events;
      guidCallbacks :=
        set guid_eqb (guidCallbacks this1) g
            {| eventName := name; origin_callback := cb |};
      guidCounter := guidCounter this1 |}).

(** [trigger(eventName, ...args)]: the callbacks that are called, in the
    order of the calls. *)
Definition trigger (this : State) (name : string) : list Callback :=
  match get String.eqb (_events this) name with
  | None => []
  | Some eventCallbacks => map callback eventCallbacks
  end.

(** [off(guid)] *)
Definition off (this : State) (g : Guid) : bool * State :=
  match get guid_eqb (guidCallbacks this) g with
  | None => (false, this)
  | Some o =>
      let events :=
        match get String.eqb (_events this) (eventName o) with
        | Some eventCallbacks =>
            set String.eqb (_events this) (eventName o)
                (filter (fun r =>
                           negb (guid_eqb (guid r) g)
                           && negb (Nat.eqb (callback r) (origin_callback o)))
                        eventCallbacks)
        | None => _events this
        end in
      (true,
       {| _events := events;
          guidCallbacks := delete guid_eqb (guidCallbacks this) g;
          guidCounter := guidCounter this |})
  end.

(** [offEvent(eventName)] *)
Definition offEvent (this : State) (name : string) : State :=
  match get String.eqb (_events this) name with
  | None => this
  | Some eventCallbacks =>
      {| _events := delete String.eqb (_events this) name;
         guidCallbacks :=
           fold_left (fun m r => delete guid_eqb m (guid r))
                     eventCallbacks (guidCallbacks this);
         guidCounter := guidCounter this |}
  end.

End Emitter.

(* ------------------------------------------------------------------ *)
(** ** format.js *)

Module Format.

Local Infix "+++" := String.append (right associativity, at level 60).

(** The line feed ['\n']. *)
Definition LF : string := String (ascii_of_nat 10) EmptyString.

Section Values.

(** The primitives of a JSON document (numbers, strings, booleans, [null])
    with [JSON.stringify] on them, and [JSON.stringify] on an object key. *)
Variable Prim : Type.
Variable stringify : Prim -> string.
Variable quote : string -> string.

(** A JSON document; the fields of an object are listed in the order of
    [Object.keys]. *)
Local Unset Elimination Schemes.

Inductive json : Type :=
| JPrim (p : Prim)
| JArr (items : list json)
| JObj (fields : list (string * json)).

Local Set Elimination Schemes.

(** [typeof item !== 'object' || item === null] *)
Definition isPrimitive (item : json) : bool :=
  match item with
  | JPrim _ => true
  | _ => false
  end.

(** [parts.join(sep)] *)
Fixpoint join (sep : string) (parts : list string) : string :=
  match parts with
  | [] => EmptyString
  | [p] => p
  | p :: parts' => p +++ sep +++ join sep parts'
  end.

(** [' '.repeat(n)] *)
Fixpoint spaces (n : nat) : string :=
  match n with
  | O => EmptyString
  | S n' => String " "%char (spaces n')
  end.

Fixpoint formatAsSingleLine (obj : json) : string :=
  match obj with
  | JPrim p => stringify p
  | JArr items => "[" +++ join "," (map formatAsSingleLine items) +++ "]"
  | JObj fields =>
      "{"
      +++ join ", "
               (map (fun kv => quote (fst kv) +++ ": "
                               +++ formatAsSingleLine (snd kv))
                    fields)
      +++ "}"
  end.

(** [customFormatJSON(obj, indent, isRoot)] for a whole number
    [indent >= 0]. *)
Fixpoint customFormatJSON (obj : json) (indent : nat) (isRoot : bool)
  : string :=
  match obj with
  | JPrim p => stringify p
  | JArr items =>
      if forallb isPrimitive items then
        "[" +++ join "," (map (fun item => customFormatJSON item 0 false) items)
        +++ "]"
      else
        "[" +++ LF
        +++ join ("," +++ LF)
                 (map (fun item => spaces indent +++ "  "
                                   +++ formatAsSingleLine item)
                      items)
        +++ LF +++ spaces indent +++ "]"
  | JObj fields =>
      if isRoot then
        "{" +++ LF
        +++ join ("," +++ LF)
                 (map (fun kv => "  " +++ quote (fst kv) +++ ": "
                                 +++ customFormatJSON (snd kv) 2 false)
                      fields)
        +++ LF +++ "}"
      else
        "{" +++ LF
        +++ join ("," +++ LF)
                 (map (fun kv => spaces indent +++ "  " +++ quote (fst kv)
                                 +++ ": "
                                 +++ customFormatJSON (snd kv) (indent + 2)
                                                      false)
                      fields)
        +++ LF +++ spaces indent +++ "}"
  end.

End Values.

End Format.

(* ------------------------------------------------------------------ *)
(** * Levels, texts, headings and states used in the statements *)

Module LevelCases.

Import Level.

(** A level file given as an object with all four keys. *)
Definition levelFile (agd : list JS.value) (acts decos : list Floored)
  : RawLevel :=
  {| raw_pathData := None; raw_angleData := Some (AngleArray agd);
     raw_actions := Some (EventsArray acts);
     raw_settings := Some (SettingsObject {| bpm := None |});
     raw_decorations := Some (EventsArray decos) |}.

(** The level object after [new Level(file).load()]. *)
Definition loaded (agd : list JS.value) (acts decos : list Floored) : State :=
  snd (load (fun _ => None) (OptObject (levelFile agd acts decos)) fresh).

Definition tilesOf (agd : list JS.value) (acts decos : list Floored)
  : list Tile :=
  tiles (loaded agd acts decos).

(** The accumulators as [load] sets them before it calls [_createArray]. *)
Definition start : Accum := {| _angleDir := JS.Num (-180); _twirlCount := 0 |}.

Definition optOf (agd : list JS.value) (acts decos : list Floored) : CreateOpt :=
  {| opt_angleData := agd; opt_actions := acts; opt_decorations := decos |}.

(** The event [tw] registered at floor [fl]. *)
Definition twirlAt (fl : Z) (tw : Event) : Floored := {| floor := fl; rest := tw |}.

(** The tiles of the midspin scenario: headings [0, 999, 0], no actions. *)
Definition midspinScenario : list Tile :=
  tilesOf [JS.Num 0; JS.Num 999; JS.Num 0] [] [].

(** The reading of the midspin scenario in which the [direction] of the
    second tile is the heading [0] of its predecessor. *)
Definition midspin_direction_is_inherited : Prop :=
  forall t, nth_error midspinScenario 1 = Some t -> direction t = JS.Num 0.

(** The value of [options] in [load] when it is an object. *)
Definition parsedObject (parse : Parser.str -> option Parsed) (opt : Options)
  : option RawLevel :=
  match opt with
  | OptString text =>
      match Parser.parseAsObject parse text with
      | Some (ParsedObject o) => Some o
      | _ => None
      end
  | OptObject o => Some o
  | OptOther => None
  end.






(** The statement that the position pass records 0 as [angle2] of tile 0. *)
Definition first_tile_angle2_is_zero : Prop :=
  forall Math_cos Math_sin toFixed8 this s' t p,
    calculateTileCoordinates Math_cos Math_sin toFixed8 this = Some s' ->
    nth_error (tiles s') 0 = Some t ->
    position t = Some p ->
    angle2 p = 0.

(** The reading of the Twirl scenario in which floor 2 keeps the angle it
    has without the Twirl. *)
Definition twirl_spares_its_own_floor : Prop :=
  forall agd acts1 acts2 decos tw t t',
    eventType tw = "Twirl"%string ->
    nth_error (tilesOf agd (acts1 ++ acts2) decos) 2 = Some t ->
    nth_error (tilesOf agd (acts1 ++ twirlAt 2 tw :: acts2) decos) 2 = Some t' ->
    angle t' = angle t.

(** A heading array whose entries are all numbers. *)
Definition nums (l : list Z) : list JS.value := map JS.Num l.

(** The number that [_filterByFloor] adds to [_twirlCount] at floor [i]. *)
Definition twirlsAt (acts : list Floored) (i : Z) : Z :=
  Z.of_nat (List.length (filter (fun t => isTwirlEvent (rest t))
                                (filter (fun item => floor item =? i) acts))).

End LevelCases.

Module ParserCases.

Import Parser.

(** The statement that no two commas are adjacent in any repaired text. *)
Definition no_doubled_comma_survives : Prop :=
  forall f, doubledCommas (parseError f) = 0%nat.

End ParserCases.

Module MeshCases.

Import Mesh.

(** Degrees to radians, as [sweep] computes it. *)
Definition rad (d : Z) : float := ((JSMath.ofZ d * JSMath.PI) / 180)%float.

(** The double that holds the whole number [z], for [0 < |z| < 2^53]: its
    sign, its mantissa of 53 bits and its exponent. *)
Definition wholeDouble (z : Z) : spec_float :=
  let k := (53 - Zpos (digits2_pos (Z.to_pos (Z.abs z))))%Z in
  S754_finite (z <? 0)%Z (Z.to_pos (Z.abs z * 2 ^ k)) (- k).

(** The whole numbers of magnitude at most 2^51: doubles hold them, their
    sums and their differences. *)
Definition safeWhole (z : Z) : Prop := (Z.abs z <= 2 ^ 51)%Z.

(** The whole number that a double holds, if it holds one. *)
Definition wholeValue (x : float) : option Z :=
  match Prim2SF x with
  | S754_zero _ => Some 0%Z
  | S754_finite s m e =>
      if (0 <=? e)%Z then Some (cond_Zopp s (Zpos m * 2 ^ e))
      else if (Zpos m mod 2 ^ (- e) =? 0)%Z
           then Some (cond_Zopp s (Zpos m / 2 ^ (- e)))
           else None
  | _ => None
  end.

(** The statement that two headings that are whole numbers congruent modulo
    360 never have a mesh. *)
Definition congruent_headings_have_no_mesh : Prop :=
  forall (Math_cos Math_sin : float -> float)
         (Math_pow : float -> float -> float)
         startAngle endAngle s e length width outline,
    wholeValue startAngle = Some s ->
    wholeValue endAngle = Some e ->
    ((s - e) mod 360 = 0)%Z ->
    createTrackMesh Math_cos Math_sin Math_pow startAngle endAngle false
                    length width outline
    = empty.

End MeshCases.

Module PreviewerCases.

Import Previewer.
Open Scope float_scope.

(** A straight level whose tiles lie 3 units apart: headings [0, 0, 0, 0]
    with a PositionTrack offset of [2, 0] on floors 1 to 3, after the
    position pass. *)
Definition shift : Event :=
  {| eventType := "PositionTrack"; duration := None; speedType := None;
     bpmMultiplier := None; beatsPerMinute := None;
     positionOffset := Some (2, 0); editorOnly := None |}.

Definition tileOn (px : float) (acts : list Event) (outgoing : Z) : Level.Tile :=
  {| Level.direction := JS.Num 0; Level._lastdir := JS.Num 0;
     Level.actions := acts; Level.angle := JS.Num 180;
     Level.addDecorations := []; Level.twirl := 0;
     Level.position :=
       Some {| Level.pos_x := px; Level.pos_y := 0; Level.angle1 := 0;
               Level.angle2 := outgoing; Level.cangle := JS.Num 0 |} |}.

Definition spacedTiles : list Level.Tile :=
  [ tileOn 1 [] (-180); tileOn 4 [shift] (-180); tileOn 7 [shift] (-180);
    tileOn 10 [shift] (-180) ].

(** The state when playback starts on [spacedTiles]. *)
Definition started : State :=
  updateRotationSpeed
    {| playbackState := PLAYING; planets := createPlanets (1, 0) (4, 0);
       currentBpm := 120; rotationSpeed := 0; isClockwise := true;
       centerPlanetIndex := 0; currentTileIndex := 0 |}.

(** [planets[i].mesh.position.set(x, y, 5)], the placement that
    [updatePlanets] makes before each crossing check. *)
Definition place (this : State) (i : Z) (xy : float * float) : State :=
  match planetAt this i with
  | Some planet =>
      setPlanets this (Level.replaceAt (planets this) (Z.to_nat i)
                                       (setPos planet xy))
  | None => this
  end.

(** A planet put on a position, then checked for a crossing. *)
Definition arrive (Math_pow Math_atan2 : float -> float -> float)
           (st : option State) (i : Z) (xy : float * float) : option State :=
  match st with
  | Some this =>
      checkPlanetTileTransition Math_pow Math_atan2 spacedTiles
                                (place this i xy) i
  | None => None
  end.

(** The pair [centerPlanetIndex], [currentTileIndex] of a state. *)
Definition indices (st : option State) : option (Z * Z) :=
  option_map (fun s => (centerPlanetIndex s, currentTileIndex s)) st.

End PreviewerCases.


Module LevelMoreCases.

Import Level.
Import LevelCases.

(** The actions of floor [i], in file order. *)
Definition onFloor (acts : list Floored) (i : Z) : list Floored :=
  filter (fun item => floor item =? i) acts.

(** The actions of the floors [k], [k+1], ..., [k+n-1], floor by floor. *)
Definition byFloor (acts : list Floored) (k : Z) (n : nat) : list Floored :=
  flat_map (fun j => onFloor acts (k + Z.of_nat j)) (seq 0 n).

(** Floors never decrease along the list. *)
Fixpoint floorsAscend (acts : list Floored) : Prop :=
  match acts with
  | [] => True
  | a :: rest => Forall (fun b => floor a <= floor b) rest /\ floorsAscend rest
  end.

(** The Twirl events registered on the floors [0] to [i]. *)
Definition twirlsUpTo (acts : list Floored) (i : Z) : list Floored :=
  filter (fun a => isTwirlEvent (rest a) && (0 <=? floor a) && (floor a <=? i)) acts.

(** The Twirl events registered on the floors [0] to [k - 1]. *)
Definition twirlsBelow (acts : list Floored) (k : Z) : list Floored :=
  filter (fun a => isTwirlEvent (rest a) && (0 <=? floor a) && (floor a <? k)) acts.

(** A heading that is a number other than the midspin sentinel. *)
Definition plainHeading (v : JS.value) : Prop :=
  exists z, v = JS.Num z /\ z <> 999.

(** A heading that is a number, the sentinel included. *)
Definition numericHeading (v : JS.value) : Prop := exists z, v = JS.Num z.

(** A heading that is a whole number of magnitude at most 2^51, the
    sentinel included: on these doubles the sums and differences that the
    recurrence forms stay below 2^53, so that [+], [-] and [%] are exact. *)
Definition wholeHeading (v : JS.value) : Prop :=
  exists z, v = JS.Num z /\ Z.abs z <= 2 ^ 51.

(** What the recurrence guarantees for the relative angle [a] of a tile with
    heading [d] and Twirl count [c], when all headings are whole numbers: 0
    on a
    midspin; otherwise a non-zero number above -360 and at most 360 under
    even parity, above 0 and below 720 under odd parity. *)
Definition angleWithinReach (d a : JS.value) (c : Z) : Prop :=
  if JS.eqZ d 999 then a = JS.Num 0
  else exists z,
      a = JS.Num z /\ z <> 0
      /\ (if Z.rem c 2 =? 0 then -360 < z <= 360 else 0 < z < 720).

End LevelMoreCases.


Module PositionCases.

Import Level.

(** The headings that the position pass records on tile [i], read off the
    array [floats] of resolved headings. *)
Definition recorded (floats : list JS.value) (i : nat) (p : Position) : Prop :=
  angle1 p = JS.orZero (JS.index floats (Z.of_nat i))
  /\ angle2 p
     = JS.orZero (if Z.of_nat i =? 0 then JS.Num 0
                  else JS.index floats (Z.of_nat i - 1)) - 180
  /\ cangle p = JS.index floats (Z.of_nat i).

(** The tiles [now] after the rounds [0 .. m-1] of the second loop over the
    tiles [before]. *)
Definition placedUpTo (floats : list JS.value) (before now : list Tile) (m : nat)
  : Prop :=
  List.length now = List.length before
  /\ forall j,
      ((j < m)%nat ->
       forall t, nth_error before j = Some t ->
                 exists p, nth_error now j = Some (setPosition t p)
                           /\ recorded floats j p)
      /\ ((m <= j)%nat -> nth_error now j = nth_error before j).

End PositionCases.

Module TilesCases.

Import Level.
Import LevelCases.

(** The objects whose [this.tiles] holds an array.  The constructor does
    not assign it; [load] assigns it once it has an object to read the keys
    of, before [_createArray] is called and also when the promise ends up
    rejected; and the methods that write [this.tiles] write an array. *)
Inductive tilesAssigned : State -> Prop :=
| assigned_load parse opt o this :
    parsedObject parse opt = Some o ->
    tilesAssigned (snd (load parse opt this))
| assigned_floorOperation this info s' :
    tilesAssigned this ->
    floorOperation this info = Some s' ->
    tilesAssigned s'
| assigned_coordinates Math_cos Math_sin toFixed8 this s' :
    tilesAssigned this ->
    calculateTileCoordinates Math_cos Math_sin toFixed8 this = Some s' ->
    tilesAssigned s'
| assigned_clearDeco this :
    tilesAssigned this ->
    tilesAssigned (LevelEffects.clearDeco this)
| assigned_clearEvent this preset :
    tilesAssigned this ->
    tilesAssigned (LevelEffects.clearEvent this preset).

End TilesCases.

Module EditCases.

Import Level.

(** What [export] reads of a tile: heading, actions and decorations. *)
Definition shape (ts : list Tile) : list (JS.value * list Event * list Event) :=
  map (fun t => (direction t, actions t, addDecorations t)) ts.

(** The shape of a tile that [floorOperation] creates. *)
Definition blank (d : JS.value) : JS.value * list Event * list Event :=
  (d, [], []).

Definition appendOf (d : JS.value) : Info :=
  {| type := append; id := 0; info_direction := d |}.

Definition insertOf (i : Z) (d : JS.value) : Info :=
  {| type := insert; id := i; info_direction := d |}.

Definition deleteOf (i : Z) : Info :=
  {| type := delete; id := i; info_direction := JS.Undefined |}.

(** The relative angle, under even Twirl parity, of a tile with heading [h]
    that follows a tile with heading [hp]. *)
Definition turn (hp h : JS.value) : JS.value :=
  let prev := JS.rem (JS.sub (JS.add hp (JS.Num 180)) h) 360 in
  if JS.eqZ prev 0 then JS.Num 360 else prev.

(** A tile that is no midspin, has Twirl count 0 and carries no Twirl. *)
Definition untwirled (t : Tile) : Prop :=
  JS.eqZ (direction t) 999 = false
  /\ twirl t = 0
  /\ Forall (fun e => isTwirlEvent e = false) (actions t).

End EditCases.

Module RepairCases.

Import Parser.

(** The code units that the repair pass may add, drop or exchange: commas
    and white space (the byte-order mark belongs to [\s]). *)
Definition isFiller (c : N) : bool := (c =? COMMA)%N || isSpace c.

(** A text without its commas and white space. *)
Definition skeleton (s : str) : str := filter (fun c => negb (isFiller c)) s.

(** [t] has the skeleton of [s] and is not longer. *)
Definition thinned (s t : str) : Prop :=
  skeleton t = skeleton s /\ (List.length t <= List.length s)%nat.

End RepairCases.

Module TurnCases.

Import Mesh.
Import MeshCases.

(** [fmod(x, 360)] on a whole number. *)
Definition normalised (x : Z) : Z :=
  if (x >=? 0)%Z then Z.rem x 360 else (Z.rem x 360 + 360)%Z.

(** The turn between two headings in whole degrees, as [createTileMesh]
    takes it: the smaller of the two normalised differences. *)
Definition turnDegrees (startAngle endAngle : Z) : Z :=
  Z.min (normalised (startAngle - endAngle)) (normalised (endAngle - startAngle)).

(** On the whole numbers [a] and [b], [<=] on the doubles that hold them
    is [<=]. *)
Definition ordersAgree (a b : Z) : bool :=
  Bool.eqb (JSMath.ofZ a <=? JSMath.ofZ b)%float (a <=? b)%Z.

(** For the start [h] and the turn [d] in degrees: the two tests that
    [createTileMesh] makes on the swept angle in radians come out as the
    tests [0 < d <= 120] and [0 < d] on the degrees. *)
Definition testsAgree (h d : Z) : bool :=
  let angle := ((rad h + rad d) - rad h)%float in
  Bool.eqb ((angle <? 2.0943952) && (0 <? angle))%float
           ((0 <? d)%Z && (d <=? 120)%Z)
  && Bool.eqb (0 <? angle)%float (0 <? d)%Z.

(** Number of entries of [vertices] for a turn of [d] degrees. *)
Definition entriesFor (d : Z) : nat :=
  if (d =? 0)%Z then 0%nat else if (d <=? 120)%Z then 282%nat else 72%nat.

End TurnCases.

Module PlaybackCases.

Import Previewer.

(** The centre index names one of the planets. *)
Definition centred (this : State) : Prop :=
  (0 <= centerPlanetIndex this < Z.of_nat (List.length (planets this)))%Z.

(** Every tile has been given a position by the position pass. *)
Definition placed (tiles : list Level.Tile) : Prop :=
  Forall (fun t => Level.position t <> None) tiles.

(** What a frame keeps of the state [s0] it starts from: the planets and
    their ids, the playback state, a centre index that names a planet, and
    a tile index that is the old one or lies between 1 and the number of
    planets. *)
Definition keeps (s0 s : State) : Prop :=
  map id (planets s) = map id (planets s0)
  /\ playbackState s = playbackState s0
  /\ centred s
  /\ (currentTileIndex s = currentTileIndex s0
      \/ (1 <= currentTileIndex s <= Z.of_nat (List.length (planets s0)))%Z).

(** A run of frames with the given time steps; [None] when a frame throws. *)
Definition frames (Math_cos Math_sin : float -> float)
           (Math_pow Math_atan2 : float -> float -> float)
           (tiles : list Level.Tile) (steps : list float) (this : State)
  : option State :=
  fold_left (fun st dt =>
               match st with
               | Some s => updatePlanets Math_cos Math_sin Math_pow Math_atan2
                                         tiles dt s
               | None => None
               end)
            steps (Some this).

End PlaybackCases.

Module EffectCases.

Import Level.

(** What the game play reads of a tile: heading, relative angle and Twirl
    count. *)
Definition gameplay (t : Tile) : JS.value * JS.value * Z :=
  (direction t, angle t, twirl t).

(** The test of [clearEvents] on an exported action. *)
Definition cleared (eventTypes : list string) (a : Floored) : bool :=
  negb (EffectProcessor.includes eventTypes (eventType (rest a))).

(** The test of [keepEvents] on an exported action. *)
Definition kept (eventTypes : list string) (a : Floored) : bool :=
  EffectProcessor.includes eventTypes (eventType (rest a)).

End EffectCases.

Module EmitterCases.

Import Emitter.

(** A call of one of the registry methods that change the registry. *)
Inductive Call : Type :=
| CallOn (name : string) (cb : Callback) (now rnd : Z)
| CallOff (g : Guid)
| CallOffEvent (name : string).

Definition step (this : State) (c : Call) : State :=
  match c with
  | CallOn name cb now rnd => snd (on this name cb now rnd)
  | CallOff g => snd (off this g)
  | CallOffEvent name => offEvent this name
  end.

(** The registry after a sequence of calls on a new [Level]. *)
Definition run (calls : list Call) : State := fold_left step calls fresh.

(** A registration request: event name, callback, clock and random draw. *)
Definition Request : Type := (string * Callback * Z * Z)%type.

Definition register (this : State) (r : Request) : State :=
  let '(name, cb, now, rnd) := r in snd (on this name cb now rnd).

Definition requested (name : string) (r : Request) : bool :=
  let '(n, _, _, _) := r in String.eqb n name.

Definition callbackOf (r : Request) : Callback :=
  let '(_, cb, _, _) := r in cb.

(** What holds of the registry after any sequence of calls: every GUID in
    use was made before the current counter value, and every registration
    in the array of an event name is known to [guidCallbacks] under that
    name and with its callback. *)
Definition consistent (this : State) : Prop :=
  (forall g o, In (g, o) (guidCallbacks this) -> serial g < guidCounter this)
  /\ (forall name l r,
        get String.eqb (_events this) name = Some l ->
        In r l ->
        get guid_eqb (guidCallbacks this) (guid r)
        = Some {| eventName := name; origin_callback := callback r |}).

End EmitterCases.

Module FormatCases.

Import Format.

(** Number of line feeds in a text. *)
Fixpoint lineFeeds (s : string) : nat :=
  match s with
  | EmptyString => 0
  | String c s' =>
      ((if Ascii.eqb c (ascii_of_nat 10) then 1 else 0) + lineFeeds s')%nat
  end.

Section Induction.

Context {Prim : Type}.
Variable P : json Prim -> Prop.
Hypothesis onPrim : forall p, P (JPrim Prim p).
Hypothesis onArr : forall items, Forall P items -> P (JArr Prim items).
Hypothesis onObj :
  forall fields, Forall (fun kv => P (snd kv)) fields -> P (JObj Prim fields).

(** Induction on a document, with the property for every item of an array
    and every value of an object at hand. *)
Fixpoint json_induction (obj : json Prim) : P obj :=
  match obj with
  | JPrim _ p => onPrim p
  | JArr _ items =>
      onArr items
            ((fix all (l : list (json Prim)) : Forall P l :=
                match l with
                | [] => Forall_nil P
                | x :: l' => Forall_cons x (json_induction x) (all l')
                end) items)
  | JObj _ fields =>
      onObj fields
            ((fix all (l : list (string * json Prim))
               : Forall (fun kv => P (snd kv)) l :=
                match l with
                | [] => Forall_nil _
                | kv :: l' =>
                    Forall_cons kv (json_induction (snd kv)) (all l')
                end) fields)
  end.

End Induction.

End FormatCases.

(* ------------------------------------------------------------------ *)
(** * Properties *)

(** ** The tile list built by [load] *)

Module LevelFacts.

Import Level.
Import LevelCases.

Lemma tilesOf_eq agd acts decos :
  tilesOf agd acts decos
  = fst (_createArray (List.length agd) (optOf agd acts decos) start).
Proof.
  unfold tilesOf, loaded, load, levelFile; cbn.
  fold start. unfold optOf.
  destruct (_createArray _ _ _) as [e a]; reflexivity.
Qed.

(** C1.  The level with headings [0, 270] and no actions: tile 1 is not a
    midspin, and [_parseAngle] gives it the relative angle [-90], outside
    (0, 360]: [(180 - 270) % 360] keeps the sign of the dividend. *)
Theorem right_turn_relative_angle_is_negative :
  exists t, nth_error (tilesOf (nums [0; 270]) [] []) 1 = Some t
            /\ direction t = JS.Num 270
            /\ JS.eqZ (direction t) 999 = false
            /\ angle t = JS.Num (-90).
Proof.
  eexists; repeat split.
Qed.

(** *** The effect of one more Twirl *)

Lemma twirlsAt_nonneg acts i : 0 <= twirlsAt acts i.
Proof. unfold twirlsAt; lia. Qed.

Lemma twirlsAt_insert acts1 acts2 fl tw i :
  eventType tw = "Twirl"%string ->
  twirlsAt (acts1 ++ twirlAt fl tw :: acts2) i
  = twirlsAt (acts1 ++ acts2) i + (if fl =? i then 1 else 0).
Proof.
  intros Htw. unfold twirlsAt.
  rewrite !filter_app. cbn [filter twirlAt floor rest].
  destruct (fl =? i).
  - assert (E : isTwirlEvent (rest (twirlAt fl tw)) = true)
      by (unfold isTwirlEvent; cbn [rest twirlAt]; rewrite Htw; reflexivity).
    cbn [filter]. rewrite E, !length_app. cbn [List.length]. lia.
  - rewrite !length_app. lia.
Qed.

Lemma createTile_eq opt i s :
  let k := Z.of_nat i in
  let c := _twirlCount s + twirlsAt (opt_actions opt) k in
  let pa := _parseAngle (_angleDir s) (opt_angleData opt) k (Z.rem c 2) in
  createTile opt i s
  = ({| direction := JS.index (opt_angleData opt) k;
        _lastdir := JS.Num (JS.orZero (JS.index (opt_angleData opt) (k - 1)));
        actions := map rest (filter (fun item => floor item =? k) (opt_actions opt));
        angle := fst pa;
        addDecorations := _filterByFloorwithDeco (opt_decorations opt) k;
        twirl := c;
        position := None |},
     {| _angleDir := snd pa; _twirlCount := c |}).
Proof.
  unfold createTile, _filterByFloor, twirlsAt; cbn.
  destruct (_parseAngle _ _ _ _); reflexivity.
Qed.

Lemma parseAngle_dir_indep d agd i p q :
  snd (_parseAngle d agd i p) = snd (_parseAngle d agd i q).
Proof.
  unfold _parseAngle. destruct (JS.eqZ (JS.index agd i) 999); reflexivity.
Qed.

Lemma rem2_succ c : 0 <= c -> Z.rem (c + 1) 2 = 1 - Z.rem c 2.
Proof.
  intros H. rewrite !Z.rem_mod_nonneg by lia.
  pose proof (Z.mod_pos_bound c 2 ltac:(lia)).
  pose proof (Z.mod_pos_bound (c + 1) 2 ltac:(lia)).
  pose proof (Z.div_mod c 2 ltac:(lia)).
  pose proof (Z.div_mod (c + 1) 2 ltac:(lia)).
  lia.
Qed.

Section OneMoreTwirl.

Variables (agd : list JS.value) (acts1 acts2 decos : list Floored).
Variables (fl : Z) (tw : Event).
Hypothesis Htw : eventType tw = "Twirl"%string.

(** Two runs of the recurrence from index [i] on, without and with the
    extra Twirl at floor [fl]: same reference heading, and a Twirl count
    that is one higher from floor [fl] on. *)
Lemma runs_related :
  forall n i sA sB,
    _angleDir sA = _angleDir sB ->
    0 <= _twirlCount sA ->
    _twirlCount sB
    = _twirlCount sA + (if fl <? Z.of_nat i then 1 else 0) ->
    0 <= fl ->
    forall k t t',
      nth_error
        (fst (JS.array_from_at
                (createTile (optOf agd (acts1 ++ acts2) decos)) n i sA)) k
      = Some t ->
      nth_error
        (fst (JS.array_from_at
                (createTile (optOf agd (acts1 ++ twirlAt fl tw :: acts2) decos))
                n i sB)) k
      = Some t' ->
      let j := Z.of_nat (i + k) in
      0 <= twirl t
      /\ twirl t' = twirl t + (if fl <=? j then 1 else 0)
      /\ exists dir,
           angle t = fst (_parseAngle dir agd j (Z.rem (twirl t) 2))
           /\ angle t' = fst (_parseAngle dir agd j (Z.rem (twirl t') 2)).
Proof.
  induction n as [|n IH]; intros i sA sB Hd Hc Hrel Hfl k t t' HA HB;
    cbv zeta.
  - destruct k; discriminate.
  - cbn [JS.array_from_at] in HA, HB.
    rewrite createTile_eq in HA, HB.
    cbv zeta in HA, HB.
    destruct (JS.array_from_at
                (createTile (optOf agd (acts1 ++ acts2) decos)) n (S i) _)
      as [ra sa'] eqn:EA.
    destruct (JS.array_from_at
                (createTile (optOf agd (acts1 ++ twirlAt fl tw :: acts2) decos))
                n (S i) _)
      as [rb sb'] eqn:EB.
    cbn [fst] in HA, HB.
    assert (Hins : twirlsAt (acts1 ++ twirlAt fl tw :: acts2) (Z.of_nat i)
                   = twirlsAt (acts1 ++ acts2) (Z.of_nat i)
                     + (if fl =? Z.of_nat i then 1 else 0))
      by (apply twirlsAt_insert; exact Htw).
    pose proof (twirlsAt_nonneg (acts1 ++ acts2) (Z.of_nat i)) as Hnn.
    cbn [optOf opt_actions opt_angleData] in Hins, Hnn, HA, HB.
    destruct k as [|k].
    + cbn [nth_error] in HA, HB.
      injection HA as <-. injection HB as <-.
      cbn [twirl angle]. rewrite Nat.add_0_r.
      split; [lia|]. split.
      * rewrite Hins, Hrel.
        destruct (Z.ltb_spec fl (Z.of_nat i)), (Z.eqb_spec fl (Z.of_nat i)),
                 (Z.leb_spec fl (Z.of_nat i)); lia.
      * exists (_angleDir sA). split; [reflexivity|].
        rewrite <- Hd. reflexivity.
    + cbn [nth_error] in HA, HB.
      replace (i + S k)%nat with (S i + k)%nat by lia.
      match type of EA with
      | JS.array_from_at _ _ _ ?sa1 = _ =>
          match type of EB with
          | JS.array_from_at _ _ _ ?sb1 = _ =>
              pose proof (IH (S i) sa1 sb1) as IH'
          end
      end.
      rewrite EA, EB in IH'. cbn [fst] in IH'.
      cbn [optOf opt_actions opt_angleData] in IH'.
      eapply IH'; [ | | | exact Hfl | exact HA | exact HB ].
      * cbn [_angleDir]. rewrite <- Hd. apply parseAngle_dir_indep.
      * cbn [_twirlCount]. lia.
      * cbn [_twirlCount]. rewrite Hins, Hrel.
        destruct (Z.ltb_spec fl (Z.of_nat i)), (Z.eqb_spec fl (Z.of_nat i)),
                 (Z.ltb_spec fl (Z.of_nat (S i))); lia.
Qed.

End OneMoreTwirl.

(** C2 (as amended).  Adding a Twirl action at floor 2 to any level leaves
    the Twirl count and the relative angle of floors 0 and 1 as they were,
    and raises the count by one at floor 2 and at every later floor: there
    the parity handed to [_parseAngle] is the opposite one, and the angle is
    computed from the same reference heading with that flipped parity.
    Floor 2 itself is already on the flipped side. *)
Theorem twirl_flips_from_its_own_floor :
  forall agd acts1 acts2 decos tw i t t',
    eventType tw = "Twirl"%string ->
    nth_error (tilesOf agd (acts1 ++ acts2) decos) i = Some t ->
    nth_error (tilesOf agd (acts1 ++ twirlAt 2 tw :: acts2) decos) i = Some t' ->
    ((i < 2)%nat -> twirl t' = twirl t /\ angle t' = angle t)
    /\ ((2 <= i)%nat ->
        twirl t' = twirl t + 1
        /\ Z.rem (twirl t') 2 = 1 - Z.rem (twirl t) 2
        /\ exists dir,
             angle t
             = fst (_parseAngle dir agd (Z.of_nat i) (Z.rem (twirl t) 2))
             /\ angle t'
                = fst (_parseAngle dir agd (Z.of_nat i) (Z.rem (twirl t') 2))).
Proof.
  intros agd acts1 acts2 decos tw i t t' Htw HA HB.
  rewrite tilesOf_eq in HA, HB.
  unfold _createArray, JS.array_from in HA, HB.
  destruct (runs_related agd acts1 acts2 decos 2 tw Htw
              (List.length agd) 0%nat start start eq_refl
              ltac:(cbn; lia) ltac:(cbn; lia) ltac:(lia) i t t' HA HB)
    as (Hnn & Htwirl & dir & Ha & Hb).
  cbn [Nat.add] in Htwirl, Ha, Hb.
  split; intros Hi.
  - destruct (Z.leb_spec 2 (Z.of_nat i)); [lia|].
    assert (E : twirl t' = twirl t) by lia.
    split; [exact E|]. rewrite Ha, Hb, E. reflexivity.
  - destruct (Z.leb_spec 2 (Z.of_nat i)); [|lia].
    split; [exact Htwirl|]. split.
    + rewrite Htwirl. apply rem2_succ, Hnn.
    + exists dir. split; assumption.
Qed.

Lemma twirl_flips_from_its_own_floor_witness :
  exists t t',
    nth_error (tilesOf (nums [0; 0; 90; 0]) [] []) 2 = Some t
    /\ nth_error (tilesOf (nums [0; 0; 90; 0])
                          [twirlAt 2 (plainEvent "Twirl")] []) 2 = Some t'
    /\ angle t = JS.Num 90 /\ angle t' = JS.Num 270
    /\ twirl t' = twirl t + 1.
Proof.
  eexists. eexists.
  split; [reflexivity|]. split; [reflexivity|].
  split; [reflexivity|]. split; [reflexivity|].
  refine (proj1 (proj2 (twirl_flips_from_its_own_floor
                          (nums [0; 0; 90; 0]) [] [] [] (plainEvent "Twirl")
                          2%nat _ _ eq_refl eq_refl eq_refl)
                       (le_n 2))).
Defined.

(** C2 (as stated) fails: with headings [0, 0, 90, 0], a Twirl at floor 2
    turns the relative angle of floor 2 itself from 90 into 270. *)
Lemma twirl_does_not_spare_its_own_floor : ~ twirl_spares_its_own_floor.
Proof.
  intros H.
  specialize (H (nums [0; 0; 90; 0]) [] [] [] (plainEvent "Twirl")
                _ _ eq_refl eq_refl eq_refl).
  discriminate H.
Qed.

(** C3.  A level loaded from the single heading [90], then
    [floorOperation({type: 'append', direction: 90})]: [_changeAngle] numbers
    the tiles from 1, so the reset of [_angleDir] to 180 never runs and tile
    0 is measured against the heading left by the previous pass.  Its angle
    becomes 180, while rebuilding the edited heading list gives 90. *)
Theorem append_replay_differs_from_rebuild :
  exists s,
    floorOperation (loaded (nums [90]) [] [])
                   {| type := append; id := 0; info_direction := JS.Num 90 |}
    = Some s
    /\ map direction (tiles s) = nums [90; 90]
    /\ map angle (tiles s) = nums [180; 180]
    /\ map angle (rebuild (tiles s)) = nums [90; 180].
Proof.
  eexists. repeat split.
Qed.

(** C4 (as amended).  For the headings [0, 999, 0] without actions the
    second tile has relative angle 0; its [direction] stays the sentinel 999,
    and the heading 0 of its predecessor is what its [_lastdir] holds and
    what the recurrence uses as reference heading for the next tile; drawn
    through [createTrackMesh] with the flag [direction == 999], it is the
    midspin marker and not a rail segment. *)
Theorem midspin_tile_of_scenario :
  forall Math_cos Math_sin Math_pow,
  exists t0 t1 t2,
    midspinScenario = [t0; t1; t2]
    /\ angle t1 = JS.Num 0
    /\ direction t1 = JS.Num 999
    /\ _lastdir t1 = direction t0
    /\ direction t0 = JS.Num 0
    /\ _angleDir (snd (_createArray 2 (optOf [JS.Num 0; JS.Num 999; JS.Num 0] [] [])
                                    start)) = JS.Num 0
    /\ angle t2
       = fst (_parseAngle (JS.Num 0) [JS.Num 0; JS.Num 999; JS.Num 0] 2 0)
    /\ Previewer.tileMeshData Math_cos Math_sin Math_pow midspinScenario 1
       = Mesh.createMidSpinMesh Math_cos Math_sin (-180)
                                Mesh.TILE_WIDTH Mesh.TILE_WIDTH Mesh.OUTLINE.
Proof.
  intros. do 3 eexists. repeat split.
Qed.

(** C4 (as stated) fails: the [direction] of the second tile is 999. *)
Lemma midspin_direction_is_the_sentinel : ~ midspin_direction_is_inherited.
Proof.
  intros H. specialize (H _ eq_refl). discriminate H.
Qed.

(** *** [load] *)






Lemma createArrayOf_arrays a la ld s :
  exists e s',
    createArrayOf a (EventsArray la) (EventsArray ld) s = (Some e, s').
Proof.
  unfold createArrayOf. destruct (_createArray _ _ _) as [e0 s0].
  exists e0, s0. destruct a; reflexivity.
Qed.







(** *** The position pass *)

Lemma replaceAt_head {A : Type} (l : list A) (k : nat) (a : A) :
  nth_error (replaceAt l (S k) a) 0 = nth_error l 0.
Proof. destruct l; reflexivity. Qed.

Section PositionPass.

Variables Math_cos Math_sin toFixed8 : float -> float.

Lemma coordinateStep_head floats st i :
  1 <= i ->
  nth_error (snd (coordinateStep Math_cos Math_sin toFixed8 floats st i)) 0
  = nth_error (snd st) 0.
Proof.
  intros Hi. destruct st as [[sx sy] ts]. unfold coordinateStep.
  destruct (getActionsByIndex ts "PositionTrack" i) as [|pevent ?];
    [|destruct (positionOffset pevent) as [[ox oy]|];
      [destruct (offsetApplies (editorOnly pevent))|]];
    (destruct (tileAt ts i); cbn [snd]; [|reflexivity];
     replace (Z.to_nat i) with (S (Z.to_nat (i - 1))) by lia;
     apply replaceAt_head).
Qed.

Lemma coordinateSteps_head floats l :
  (forall i, In i l -> 1 <= i) ->
  forall st,
    nth_error (snd (fold_left (coordinateStep Math_cos Math_sin toFixed8 floats)
                              l st)) 0
    = nth_error (snd st) 0.
Proof.
  induction l as [|i l IH]; intros Hl st; cbn [fold_left].
  - reflexivity.
  - rewrite IH by (intros j Hj; apply Hl; right; exact Hj).
    apply coordinateStep_head. apply Hl. left. reflexivity.
Qed.

(** C8 (as amended).  For a loaded level with at least one tile the
    position pass succeeds, and the [angle2] it records on tile 0 is
    [-180]: the placeholder 0 taken for [i = 0], minus 180 like on every
    other tile. *)
Theorem first_tile_angle2_is_minus_180 :
  forall this a t0 ts,
    angleData this = Some (AngleArray a) ->
    tiles this = t0 :: ts ->
    exists s' t p,
      calculateTileCoordinates Math_cos Math_sin toFixed8 this = Some s'
      /\ nth_error (tiles s') 0 = Some t
      /\ position t = Some p
      /\ angle2 p = -180.
Proof.
  intros this a t0 ts Ha Hts.
  unfold calculateTileCoordinates. rewrite Ha, Hts.
  cbn [List.length].
  set (floats := floatsOf a (S (List.length ts))).
  cbn [seq map fold_left].
  change (Z.of_nat 0) with 0.
  rewrite <- seq_shift, map_map.
  match goal with
  | |- context [fold_left ?f ?l ?st] =>
      pose proof (coordinateSteps_head floats l) as Hhead;
      specialize (Hhead ltac:(intros i Hi; apply in_map_iff in Hi;
                              destruct Hi as (k & <- & _); lia) st);
      destruct (fold_left f l st) as [[sx sy] ts'] eqn:E
  end.
  cbn [snd] in Hhead.
  unfold coordinateStep in Hhead at 1.
  change (tileAt (t0 :: ts) 0) with (Some t0) in Hhead.
  change (Z.to_nat 0) with 0%nat in Hhead.
  destruct (getActionsByIndex (t0 :: ts) "PositionTrack" 0) as [|pevent ?];
    [|destruct (positionOffset pevent) as [[ox oy]|];
      [destruct (offsetApplies (editorOnly pevent))|]];
    cbn [snd replaceAt nth_error] in Hhead;
    (eexists; eexists; eexists; split; [reflexivity|];
     split; [cbn [tiles setTiles]; exact Hhead|];
     split; [reflexivity|]; reflexivity).
Qed.

End PositionPass.

Lemma first_tile_angle2_is_minus_180_witness :
  exists s' t p,
    calculateTileCoordinates (fun v => v) (fun v => v) (fun v => v)
                             (loaded (nums [0]) [] []) = Some s'
    /\ nth_error (tiles s') 0 = Some t
    /\ position t = Some p
    /\ angle2 p = -180.
Proof.
  exact (first_tile_angle2_is_minus_180
           (fun v => v) (fun v => v) (fun v => v)
           (loaded (nums [0]) [] []) _ _ _ eq_refl eq_refl).
Defined.

(** C8 (as stated) fails: on the level with the single heading 0 the
    [angle2] of tile 0 is [-180], not 0. *)
Lemma first_tile_angle2_is_not_zero : ~ first_tile_angle2_is_zero.
Proof.
  intros H.
  specialize (H (fun v => v) (fun v => v) (fun v => v)
                (loaded (nums [0]) [] []) _ _ _ eq_refl eq_refl eq_refl).
  discriminate H.
Qed.

End LevelFacts.

(** ** The last substitution of [parseError] *)

Module ParserFacts.

Import Parser.
Import ParserCases.

Lemma prefixb_commas s :
  prefixb (lit ",,") s = true -> exists s', s = COMMA :: COMMA :: s'.
Proof.
  change (lit ",,") with [COMMA; COMMA]. intros E.
  destruct s as [|c [|d s]]; cbn [prefixb] in E;
    try discriminate; try (rewrite andb_false_r in E; discriminate).
  apply andb_prop in E. destruct E as [E1 E2].
  apply andb_prop in E2. destruct E2 as [E2 _].
  apply N.eqb_eq in E1, E2. subst c d. exists s. reflexivity.
Qed.

Lemma replaceFirst_commas_cons c s :
  prefixb (lit ",,") (c :: s) = false ->
  replaceFirst (lit ",,") (lit ",") (c :: s)
  = c :: replaceFirst (lit ",,") (lit ",") s.
Proof.
  intros H. cbn [replaceFirst]. rewrite H. reflexivity.
Qed.

Lemma replaceFirst_commas_hit s :
  replaceFirst (lit ",,") (lit ",") (COMMA :: COMMA :: s) = COMMA :: s.
Proof. reflexivity. Qed.

(** The first code unit of the result is a comma exactly when the first
    code unit of the argument is. *)
Lemma replaceFirst_commas_head s :
  match replaceFirst (lit ",,") (lit ",") s, s with
  | c :: _, d :: _ => c = d
  | [], [] => True
  | _, _ => False
  end.
Proof.
  destruct s as [|c s]; [exact I|].
  destruct (prefixb (lit ",,") (c :: s)) eqn:E.
  - apply prefixb_commas in E. destruct E as (s' & E). injection E as -> ->.
    reflexivity.
  - rewrite replaceFirst_commas_cons by exact E. reflexivity.
Qed.

(** The substitution removes exactly one pair of adjacent commas, if there
    is one. *)
Lemma replaceFirst_commas_count s :
  doubledCommas (replaceFirst (lit ",,") (lit ",") s)
  = Nat.pred (doubledCommas s).
Proof.
  induction s as [|c s IH]; [reflexivity|].
  destruct (prefixb (lit ",,") (c :: s)) eqn:E.
  - apply prefixb_commas in E. destruct E as (s' & E). injection E as -> ->.
    rewrite replaceFirst_commas_hit.
    change (doubledCommas (COMMA :: COMMA :: s'))
      with (1 + doubledCommas (COMMA :: s'))%nat.
    reflexivity.
  - rewrite replaceFirst_commas_cons by exact E.
    pose proof (replaceFirst_commas_head s) as Hh.
    destruct s as [|d s].
    + reflexivity.
    + destruct (replaceFirst (lit ",,") (lit ",") (d :: s)) as [|d' s'] eqn:ER;
        [contradiction|].
      subst d'.
      cbn [doubledCommas] in IH |- *.
      assert (Ecd : ((c =? COMMA)%N && (d =? COMMA)%N) = false).
      { change (lit ",,") with [COMMA; COMMA] in E. cbn [prefixb] in E.
        rewrite andb_true_r in E.
        rewrite (N.eqb_sym c), (N.eqb_sym d). exact E. }
      rewrite Ecd. cbn [Nat.add].
      exact IH.
Qed.

(** The substitution acts on the leftmost pair of adjacent commas: the text
    before that pair has no such pair and does not end in a comma, and of
    the two commas one is kept.  A text without such a pair is returned as
    it is. *)
Lemma replaceFirst_commas_leftmost s :
  (doubledCommas s = 0%nat -> replaceFirst (lit ",,") (lit ",") s = s)
  /\ ((0 < doubledCommas s)%nat ->
      exists a b,
        s = a ++ COMMA :: COMMA :: b
        /\ doubledCommas (a ++ [COMMA]) = 0%nat
        /\ replaceFirst (lit ",,") (lit ",") s = a ++ COMMA :: b).
Proof.
  induction s as [|c s IH]; [split; [reflexivity|cbn; lia]|].
  destruct (prefixb (lit ",,") (c :: s)) eqn:E.
  - apply prefixb_commas in E. destruct E as (s' & E). injection E as -> ->.
    split.
    + change (doubledCommas (COMMA :: COMMA :: s'))
        with (1 + doubledCommas (COMMA :: s'))%nat.
      discriminate.
    + intros _. exists [], s'. repeat split.
  - rewrite replaceFirst_commas_cons by exact E.
    assert (Ec : doubledCommas (c :: s) = doubledCommas s).
    { destruct s as [|d s]; [reflexivity|].
      cbn [doubledCommas].
      change (lit ",,") with [COMMA; COMMA] in E. cbn [prefixb] in E.
      rewrite andb_true_r in E.
      rewrite (N.eqb_sym c), (N.eqb_sym d), E. reflexivity. }
    rewrite Ec. destruct IH as [IH0 IH1]. split.
    + intros H0. rewrite (IH0 H0). reflexivity.
    + intros H1. destruct (IH1 H1) as (a & b & Es & Ha & Er).
      exists (c :: a), b. rewrite Er. repeat split.
      * rewrite Es. reflexivity.
      * assert (Ea : doubledCommas ((c :: a) ++ COMMA :: COMMA :: b)
                     = doubledCommas (a ++ COMMA :: COMMA :: b)).
        { pose proof Ec as Ec'. rewrite Es in Ec'. exact Ec'. }
        destruct a as [|d a].
        -- cbn [app doubledCommas] in Ea |- *.
           change (COMMA =? COMMA)%N with true in Ea.
           rewrite andb_true_r in Ea |- *.
           destruct (c =? COMMA)%N; [cbn in Ea; lia|reflexivity].
        -- cbn [app doubledCommas] in Ea, Ha |- *.
           destruct a as [|d' a]; cbn [app] in Ea, Ha |- *;
             destruct ((c =? COMMA)%N && (d =? COMMA)%N);
             cbn [Nat.add] in Ea |- *; try exact Ha; lia.
Qed.

(** C9 (as amended).  The last substitution of [parseError] collapses one
    doubled comma, the leftmost: the repaired text has one pair of adjacent
    commas fewer than the text that reaches that substitution.  So it is
    free of doubled commas when that text has at most one such pair.  A
    text without such a pair is returned as it is; otherwise the text is
    cut at its leftmost pair (nothing before the pair is a pair, or a comma
    that touches it) and one comma of that pair is dropped, the rest being
    kept as it is. *)
Theorem parseError_collapses_one_doubled_comma :
  forall f,
    doubledCommas (parseError f) = Nat.pred (doubledCommas (beforeCommaFix f))
    /\ ((doubledCommas (beforeCommaFix f) <= 1)%nat ->
        doubledCommas (parseError f) = 0%nat)
    /\ (doubledCommas (beforeCommaFix f) = 0%nat ->
        parseError f = beforeCommaFix f)
    /\ ((0 < doubledCommas (beforeCommaFix f))%nat ->
        exists a b,
          beforeCommaFix f = a ++ COMMA :: COMMA :: b
          /\ doubledCommas (a ++ [COMMA]) = 0%nat
          /\ parseError f = a ++ COMMA :: b).
Proof.
  intros f. unfold parseError.
  rewrite replaceFirst_commas_count.
  split; [reflexivity|]. split; [lia|].
  exact (replaceFirst_commas_leftmost (beforeCommaFix f)).
Qed.

Lemma parseError_collapses_one_doubled_comma_witness :
  doubledCommas
    (parseError (lit "[1]," ++ 32%N :: 34%N :: lit "decorations" ++ [34%N]))
  = 0%nat.
Proof.
  apply (proj1 (proj2 (parseError_collapses_one_doubled_comma
                  (lit "[1]," ++ 32%N :: 34%N :: lit "decorations" ++ [34%N])))).
  vm_compute. apply le_n.
Defined.

(** C9 (as stated) fails: [",,,"] is repaired to [",,"]. *)
Lemma doubled_comma_survives : ~ no_doubled_comma_survives.
Proof.
  intros H. specialize (H (lit ",,,")). discriminate H.
Qed.

End ParserFacts.

(** ** Whole numbers in doubles *)

Module DoubleFacts.

Import JSMath.
Import MeshCases.

Lemma digits2_pos_bounds p :
  2 ^ (Zpos (digits2_pos p) - 1) <= Zpos p < 2 ^ Zpos (digits2_pos p).
Proof.
  induction p as [p IH|p IH|]; cbn [digits2_pos].
  - rewrite Pos2Z.inj_succ.
    replace (Z.succ (Zpos (digits2_pos p)) - 1) with (Z.succ (Zpos (digits2_pos p) - 1)) by lia.
    rewrite !Z.pow_succ_r by lia. lia.
  - rewrite Pos2Z.inj_succ.
    replace (Z.succ (Zpos (digits2_pos p)) - 1) with (Z.succ (Zpos (digits2_pos p) - 1)) by lia.
    rewrite !Z.pow_succ_r by lia. lia.
  - cbn. lia.
Qed.

Lemma digits2_pos_le p n : 0 <= n -> Zpos p < 2 ^ n -> Zpos (digits2_pos p) <= n.
Proof.
  intros Hn Hp. destruct (Z.le_gt_cases (Zpos (digits2_pos p)) n) as [H|H]; [exact H|].
  exfalso. pose proof (digits2_pos_bounds p) as [Hl _].
  assert (2 ^ n <= 2 ^ (Zpos (digits2_pos p) - 1)) by (apply Z.pow_le_mono_r; lia).
  lia.
Qed.

Lemma Zpos_iter_xO p n : Zpos (Pos.iter xO p n) = Zpos p * 2 ^ Zpos n.
Proof.
  induction n as [|n IH] using Pos.peano_ind.
  - cbn. lia.
  - rewrite Pos.iter_succ, Pos2Z.inj_succ, Z.pow_succ_r by lia.
    rewrite Pos2Z.inj_xO, IH. lia.
Qed.

Lemma digits_iter_xO p n :
  Zpos (digits2_pos (Pos.iter xO p n)) = Zpos (digits2_pos p) + Zpos n.
Proof.
  induction n as [|n IH] using Pos.peano_ind.
  - cbn [Pos.iter digits2_pos]. lia.
  - rewrite Pos.iter_succ. cbn [digits2_pos]. rewrite !Pos2Z.inj_succ, IH. lia.
Qed.

(** The digits of a positive number are those of any power-of-two multiple,
    moved. *)
Lemma digits_scaled p q n :
  0 <= n -> Zpos q = Zpos p * 2 ^ n ->
  Zpos (digits2_pos q) = Zpos (digits2_pos p) + n.
Proof.
  intros Hn H. destruct n as [|n|n]; [| |lia].
  - rewrite Z.pow_0_r, Z.mul_1_r in H. injection H as ->. lia.
  - rewrite <- Zpos_iter_xO in H. injection H as ->. apply digits_iter_xO.
Qed.

Lemma shl_align_scaled m e e' :
  e' <= e ->
  Zpos (fst (shl_align m e e')) = Zpos m * 2 ^ (e - e')
  /\ snd (shl_align m e e') = e'.
Proof.
  intros H. unfold shl_align.
  destruct (e' - e) as [|d|d] eqn:E; try lia.
  - cbn [fst snd]. replace (e - e') with 0 by lia. rewrite Z.pow_0_r. lia.
  - cbn [fst snd]. rewrite Zpos_iter_xO. replace (e - e') with (Zpos d) by lia.
    split; reflexivity.
Qed.

Lemma shl_align_kept m e e' :
  e <= e' -> shl_align m e e' = (m, e).
Proof.
  intros H. unfold shl_align. destruct (e' - e) as [|d|d] eqn:E; try lia; reflexivity.
Qed.

(** A mantissa and an exponent in canonical form are left as they are. *)
Lemma binary_round_aux_bounded s m e :
  bounded prec emax m e = true ->
  binary_round_aux prec emax s (Zpos m) e loc_Exact = S754_finite s m e.
Proof.
  unfold bounded, canonical_mantissa. intros H.
  apply andb_prop in H. destruct H as [H1 H2]. apply Z.eqb_eq in H1.
  unfold binary_round_aux, shr_fexp. cbn [Zdigits2 shr_record_of_loc].
  rewrite H1, Z.sub_diag. cbn [shr shr_m loc_of_shr_record round_nearest_even].
  cbn [Zdigits2 shr_record_of_loc].
  rewrite H1, Z.sub_diag. cbn [shr shr_m]. rewrite H2. reflexivity.
Qed.

Lemma iter_pos_nat {A : Type} (f : A -> A) n x :
  iter_pos f n x = Nat.iter (Pos.to_nat n) f x.
Proof.
  revert x. induction n as [n IH|n IH|]; intros x; cbn [iter_pos].
  - rewrite !IH, Pos2Nat.inj_xI.
    replace (S (2 * Pos.to_nat n))%nat with (Pos.to_nat n + (Pos.to_nat n + 1))%nat by lia.
    rewrite !Nat.iter_add. reflexivity.
  - rewrite !IH, Pos2Nat.inj_xO.
    replace (2 * Pos.to_nat n)%nat with (Pos.to_nat n + Pos.to_nat n)%nat by lia.
    rewrite Nat.iter_add. reflexivity.
  - reflexivity.
Qed.

Lemma shr_1_doubled k m :
  Nat.iter k shr_1 {| shr_m := Zpos (Nat.iter k xO m); shr_r := false; shr_s := false |}
  = {| shr_m := Zpos m; shr_r := false; shr_s := false |}.
Proof.
  induction k as [|k IH]; [reflexivity|].
  rewrite Nat.iter_succ_r.
  change (Nat.iter (S k) xO m) with (xO (Nat.iter k xO m)).
  cbn [shr_1 orb]. exact IH.
Qed.

Lemma Zpos_nat_iter_xO k m : Zpos (Nat.iter k xO m) = Zpos m * 2 ^ Z.of_nat k.
Proof.
  induction k as [|k IH]; [cbn; lia|].
  change (Nat.iter (S k) xO m) with (xO (Nat.iter k xO m)).
  rewrite Pos2Z.inj_xO, IH, Nat2Z.inj_succ, Z.pow_succ_r by lia. lia.
Qed.

(** Rounding a number that the format holds gives this number: [mc] and [t]
    are its canonical mantissa and exponent. *)
Lemma binary_round_exact s m e mc t :
  bounded prec emax mc t = true ->
  Zpos m * 2 ^ (e - Z.min e t) = Zpos mc * 2 ^ (t - Z.min e t) ->
  binary_round prec emax s m e = S754_finite s mc t.
Proof.
  intros Hb Hv.
  pose proof Hb as Hb'. unfold bounded, canonical_mantissa in Hb'.
  apply andb_prop in Hb'. destruct Hb' as [Hc Ht]. apply Z.eqb_eq in Hc.
  assert (Hd : Zpos (digits2_pos m) + e = Zpos (digits2_pos mc) + t).
  { destruct (Z.le_gt_cases t e) as [Hte|Hte].
    - rewrite Z.min_r, Z.sub_diag, Z.pow_0_r, Z.mul_1_r in Hv by lia.
      rewrite (digits_scaled m mc (e - t)) by (lia || (symmetry; exact Hv)). lia.
    - rewrite Z.min_l, Z.sub_diag, Z.pow_0_r, Z.mul_1_r in Hv by lia.
      rewrite (digits_scaled mc m (t - e)) by (lia || exact Hv). lia. }
  unfold binary_round. rewrite Hd, Hc.
  destruct (Z.le_gt_cases t e) as [Hte|Hte].
  - rewrite Z.min_r, Z.sub_diag, Z.pow_0_r, Z.mul_1_r in Hv by lia.
    destruct (shl_align_scaled m e t Hte) as [H1 H2].
    destruct (shl_align m e t) as [mz ez]. cbn [fst snd] in H1, H2. subst ez.
    rewrite Hv in H1. injection H1 as ->.
    apply binary_round_aux_bounded. exact Hb.
  - rewrite Z.min_l, Z.sub_diag, Z.pow_0_r, Z.mul_1_r in Hv by lia.
    rewrite shl_align_kept by lia.
    unfold binary_round_aux, shr_fexp. cbn [Zdigits2 shr_record_of_loc].
    rewrite Hd, Hc.
    destruct (t - e) as [|n|n] eqn:En; try lia.
    cbn [shr]. rewrite iter_pos_nat.
    assert (Em : m = Nat.iter (Pos.to_nat n) xO mc).
    { apply Pos2Z.inj. rewrite Zpos_nat_iter_xO, positive_nat_Z. exact Hv. }
    rewrite Em, shr_1_doubled.
    cbn [shr_m loc_of_shr_record round_nearest_even Zdigits2 shr_record_of_loc].
    replace (e + Zpos n) with t by lia.
    rewrite Hc, Z.sub_diag. cbn [shr shr_m]. rewrite Ht. reflexivity.
Qed.


Lemma fexp_unfold z : fexp prec emax z = Z.max (z - 53) (-1074).
Proof. reflexivity. Qed.

Lemma wholeDouble_digits z :
  0 < Z.abs z < 2 ^ 53 ->
  let d := Zpos (digits2_pos (Z.to_pos (Z.abs z))) in
  1 <= d <= 53
  /\ Zpos (Z.to_pos (Z.abs z * 2 ^ (53 - d))) = Z.abs z * 2 ^ (53 - d)
  /\ Zpos (digits2_pos (Z.to_pos (Z.abs z * 2 ^ (53 - d)))) = 53.
Proof.
  intros Hz d.
  assert (Hd : 1 <= d <= 53).
  { split; [subst d; lia|].
    apply digits2_pos_le; [lia|]. rewrite Z2Pos.id by lia. lia. }
  assert (Hp : 0 < Z.abs z * 2 ^ (53 - d)).
  { apply Z.mul_pos_pos; [lia|]. apply Z.pow_pos_nonneg; lia. }
  split; [exact Hd|]. split; [apply Z2Pos.id; exact Hp|].
  rewrite (digits_scaled (Z.to_pos (Z.abs z)) _ (53 - d)).
  - fold d. lia.
  - lia.
  - rewrite !Z2Pos.id by lia. reflexivity.
Qed.

Lemma wholeDouble_bounded z :
  0 < Z.abs z < 2 ^ 53 ->
  let k := 53 - Zpos (digits2_pos (Z.to_pos (Z.abs z))) in
  bounded prec emax (Z.to_pos (Z.abs z * 2 ^ k)) (- k) = true.
Proof.
  intros Hz k. destruct (wholeDouble_digits z Hz) as (Hd & _ & H53).
  fold k in H53. unfold bounded, canonical_mantissa.
  rewrite H53, fexp_unfold. apply andb_true_intro. split.
  - apply Z.eqb_eq. subst k. lia.
  - apply Z.leb_le. change (emax - prec) with 971. subst k. lia.
Qed.

(** A whole number given with trailing zero bits is normalised to the
    double that holds it. *)
Lemma normalize_whole c K s0 :
  0 <= K -> 0 < Z.abs c < 2 ^ 53 ->
  binary_normalize prec emax (c * 2 ^ K) (- K) s0 = wholeDouble c.
Proof.
  intros HK Hc.
  pose proof (wholeDouble_bounded c Hc) as Hb.
  destruct (wholeDouble_digits c Hc) as (Hd & Hp & _).
  cbv zeta in Hb, Hd, Hp.
  set (k := 53 - Zpos (digits2_pos (Z.to_pos (Z.abs c)))) in *.
  assert (H2K : 0 < 2 ^ K) by (apply Z.pow_pos_nonneg; lia).
  assert (Hval : forall q, Zpos q = Z.abs c * 2 ^ K ->
            Zpos q * 2 ^ (- K - Z.min (- K) (- k))
            = Zpos (Z.to_pos (Z.abs c * 2 ^ k)) * 2 ^ (- k - Z.min (- K) (- k))).
  { intros q Hq. rewrite Hq, Hp, <- !Z.mul_assoc, <- !Z.pow_add_r by lia.
    f_equal. f_equal. lia. }
  unfold wholeDouble. fold k.
  destruct c as [|c|c]; [lia| |].
  - assert (Hq : Zpos c * 2 ^ K = Zpos (Z.to_pos (Zpos c * 2 ^ K)))
      by (rewrite Z2Pos.id; lia).
    rewrite Hq. cbn [binary_normalize].
    apply binary_round_exact; [exact Hb|]. apply Hval.
    rewrite <- Hq. reflexivity.
  - assert (Hq : Zneg c * 2 ^ K = Zneg (Z.to_pos (Zpos c * 2 ^ K))).
    { replace (Zneg (Z.to_pos (Zpos c * 2 ^ K)))
        with (- Zpos (Z.to_pos (Zpos c * 2 ^ K))) by reflexivity.
      rewrite Z2Pos.id by lia. lia. }
    rewrite Hq. cbn [binary_normalize].
    apply binary_round_exact; [exact Hb|]. apply Hval.
    rewrite Z2Pos.id by lia. reflexivity.
Qed.

Lemma Prim2SF_ofZ z :
  0 < Z.abs z < 2 ^ 53 -> Prim2SF (ofZ z) = wholeDouble z.
Proof.
  intros Hz. unfold ofZ.
  pose proof (normalize_whole z 0 false ltac:(lia) Hz) as H.
  rewrite Z.pow_0_r, Z.mul_1_r in H. change (- 0) with 0 in H.
  rewrite H. apply Prim2SF_SF2Prim. apply (wholeDouble_bounded z Hz).
Qed.


Lemma ofZ_0 : ofZ 0 = 0%float.
Proof. reflexivity. Qed.

Lemma ofZ_whole z :
  0 < Z.abs z < 2 ^ 53 -> ofZ z = SF2Prim (wholeDouble z).
Proof.
  intros Hz. unfold ofZ.
  pose proof (normalize_whole z 0 false ltac:(lia) Hz) as H.
  rewrite Z.pow_0_r, Z.mul_1_r in H. change (- 0) with 0 in H.
  rewrite H. reflexivity.
Qed.

(** The mantissa of a whole double, brought to a smaller exponent and
    given its sign, is the whole number times a power of two. *)
Lemma wholeDouble_aligned z ez :
  0 < Z.abs z < 2 ^ 53 ->
  let k := 53 - Zpos (digits2_pos (Z.to_pos (Z.abs z))) in
  ez <= - k ->
  cond_Zopp (z <? 0)
            (Zpos (fst (shl_align (Z.to_pos (Z.abs z * 2 ^ k)) (- k) ez)))
  = z * 2 ^ (- ez)
  /\ Zpos (fst (shl_align (Z.to_pos (Z.abs z * 2 ^ k)) (- k) ez))
     = Z.abs z * 2 ^ (- ez).
Proof.
  intros Hz k Hez.
  destruct (wholeDouble_digits z Hz) as (Hd & Hp & _). cbv zeta in Hd, Hp.
  fold k in Hp.
  destruct (shl_align_scaled (Z.to_pos (Z.abs z * 2 ^ k)) (- k) ez Hez) as [H _].
  rewrite Hp, <- Z.mul_assoc, <- Z.pow_add_r in H by lia.
  replace (k + (- k - ez)) with (- ez) in H by lia.
  split; [|exact H].
  rewrite H. unfold cond_Zopp.
  destruct (Z.ltb_spec z 0); [rewrite Z.abs_neq by lia|rewrite Z.abs_eq by lia]; lia.
Qed.

Lemma SFsub_whole a b :
  0 < Z.abs a < 2 ^ 53 -> 0 < Z.abs b < 2 ^ 53 -> Z.abs (a - b) < 2 ^ 53 ->
  SFsub prec emax (wholeDouble a) (wholeDouble b)
  = if a - b =? 0 then S754_zero false else wholeDouble (a - b).
Proof.
  intros Ha Hb Hc. unfold wholeDouble at 1 2. cbv zeta. cbn [SFsub].
  match goal with |- context [Z.min ?x ?y] => set (ez := Z.min x y) end.
  destruct (wholeDouble_digits a Ha) as (Hda & _).
  destruct (wholeDouble_digits b Hb) as (Hdb & _).
  cbv zeta in Hda, Hdb.
  destruct (wholeDouble_aligned a ez Ha ltac:(subst ez; lia)) as [Ea _].
  destruct (wholeDouble_aligned b ez Hb ltac:(subst ez; lia)) as [Eb _].
  cbv zeta in Ea, Eb. rewrite Ea, Eb.
  rewrite <- Z.mul_sub_distr_r.
  destruct (Z.eqb_spec (a - b) 0) as [E|E].
  - rewrite E. reflexivity.
  - rewrite <- (Z.opp_involutive ez) at 2.
    apply normalize_whole; [subst ez; lia|lia].
Qed.

(** Subtraction is exact on whole doubles while the difference stays
    below 2^53. *)
Lemma ofZ_sub a b :
  Z.abs a < 2 ^ 53 -> Z.abs b < 2 ^ 53 -> Z.abs (a - b) < 2 ^ 53 ->
  (ofZ a - ofZ b)%float = ofZ (a - b).
Proof.
  intros Ha Hb Hc. apply Prim2SF_inj. rewrite sub_spec.
  destruct (Z.eq_dec a 0) as [->|Na], (Z.eq_dec b 0) as [->|Nb].
  - reflexivity.
  - rewrite ofZ_0. change (Prim2SF 0) with (S754_zero false).
    rewrite !Prim2SF_ofZ by lia. unfold wholeDouble. cbn [SF64sub SFsub].
    replace (0 - b) with (- b) by lia. rewrite Z.abs_opp.
    f_equal. destruct (Z.ltb_spec b 0), (Z.ltb_spec (- b) 0); try reflexivity; lia.
  - rewrite Z.sub_0_r, ofZ_0. change (Prim2SF 0) with (S754_zero false).
    rewrite Prim2SF_ofZ by lia. reflexivity.
  - rewrite (Prim2SF_ofZ a), (Prim2SF_ofZ b) by lia.
    unfold SF64sub. rewrite SFsub_whole by lia.
    destruct (Z.eqb_spec (a - b) 0) as [E|E].
    + rewrite E. reflexivity.
    + rewrite Prim2SF_ofZ by lia. reflexivity.
Qed.


Lemma SFadd_whole a b :
  0 < Z.abs a < 2 ^ 53 -> 0 < Z.abs b < 2 ^ 53 -> Z.abs (a + b) < 2 ^ 53 ->
  SFadd prec emax (wholeDouble a) (wholeDouble b)
  = if a + b =? 0 then S754_zero false else wholeDouble (a + b).
Proof.
  intros Ha Hb Hc. unfold wholeDouble at 1 2. cbv zeta. cbn [SFadd].
  match goal with |- context [Z.min ?x ?y] => set (ez := Z.min x y) end.
  destruct (wholeDouble_digits a Ha) as (Hda & _).
  destruct (wholeDouble_digits b Hb) as (Hdb & _).
  cbv zeta in Hda, Hdb.
  destruct (wholeDouble_aligned a ez Ha ltac:(subst ez; lia)) as [Ea _].
  destruct (wholeDouble_aligned b ez Hb ltac:(subst ez; lia)) as [Eb _].
  cbv zeta in Ea, Eb. rewrite Ea, Eb.
  rewrite <- Z.mul_add_distr_r.
  destruct (Z.eqb_spec (a + b) 0) as [E|E].
  - rewrite E. reflexivity.
  - rewrite <- (Z.opp_involutive ez) at 2.
    apply normalize_whole; [subst ez; lia|lia].
Qed.

(** Addition is exact on whole doubles other than 0 while the sum stays
    below 2^53. *)
Lemma ofZ_add a b :
  0 < Z.abs a < 2 ^ 53 -> 0 < Z.abs b < 2 ^ 53 -> Z.abs (a + b) < 2 ^ 53 ->
  (ofZ a + ofZ b)%float = ofZ (a + b).
Proof.
  intros Ha Hb Hc. apply Prim2SF_inj. rewrite add_spec.
  rewrite (Prim2SF_ofZ a), (Prim2SF_ofZ b) by lia.
  unfold SF64add. rewrite SFadd_whole by lia.
  destruct (Z.eqb_spec (a + b) 0) as [E|E].
  - rewrite E. reflexivity.
  - rewrite Prim2SF_ofZ by lia. reflexivity.
Qed.

(** [%] is exact on whole doubles, and a zero remainder has the sign of the
    dividend. *)
Lemma SFrem_whole x y :
  0 < Z.abs x < 2 ^ 53 -> 0 < y < 2 ^ 53 ->
  SFrem (wholeDouble x) (wholeDouble y)
  = if Z.rem x y =? 0 then S754_zero (x <? 0) else wholeDouble (Z.rem x y).
Proof.
  intros Hx Hy. unfold wholeDouble at 1 2. cbv zeta. cbn [SFrem].
  match goal with |- context [Z.min ?a ?b] => set (ez := Z.min a b) end.
  assert (Hy' : 0 < Z.abs y < 2 ^ 53) by lia.
  destruct (wholeDouble_digits x Hx) as (Hdx & _).
  destruct (wholeDouble_digits y Hy') as (Hdy & _).
  cbv zeta in Hdx, Hdy.
  destruct (wholeDouble_aligned x ez Hx ltac:(subst ez; lia)) as [_ Ex].
  destruct (wholeDouble_aligned y ez Hy' ltac:(subst ez; lia)) as [_ Ey].
  cbv zeta in Ex, Ey. rewrite Ex, Ey.
  assert (H2 : 0 < 2 ^ (- ez)) by (apply Z.pow_pos_nonneg; subst ez; lia).
  rewrite Z.mul_rem_distr_r by lia.
  assert (Er : cond_Zopp (x <? 0) (Z.rem (Z.abs x) (Z.abs y) * 2 ^ (- ez))
               = Z.rem x y * 2 ^ (- ez)).
  { unfold cond_Zopp. rewrite (Z.abs_eq y) by lia.
    destruct (Z.ltb_spec x 0).
    - rewrite Z.abs_neq, Z.rem_opp_l' by lia. lia.
    - rewrite Z.abs_eq by lia. reflexivity. }
  rewrite Er.
  destruct (Z.eqb_spec (Z.rem x y) 0) as [E|E].
  - rewrite E. reflexivity.
  - rewrite <- (Z.opp_involutive ez) at 2.
    apply normalize_whole; [subst ez; lia|].
    pose proof (Z.rem_bound_abs x y ltac:(lia)). lia.
Qed.

Lemma Prim2SF_360 : Prim2SF 360 = wholeDouble 360.
Proof. reflexivity. Qed.

Lemma rem_ofZ_360 x :
  0 < Z.abs x < 2 ^ 53 ->
  rem (ofZ x) 360
  = if Z.rem x 360 =? 0 then (if x <? 0 then (-0)%float else 0%float)
    else ofZ (Z.rem x 360).
Proof.
  intros Hx. unfold rem. rewrite Prim2SF_ofZ, Prim2SF_360 by exact Hx.
  rewrite SFrem_whole by lia.
  destruct (Z.eqb_spec (Z.rem x 360) 0) as [E|E].
  - destruct (x <? 0); reflexivity.
  - symmetry. apply ofZ_whole.
    pose proof (Z.rem_bound_abs x 360 ltac:(lia)). lia.
Qed.

Lemma leb_0_ofZ x :
  Z.abs x < 2 ^ 53 -> (0 <=? ofZ x)%float = (0 <=? x).
Proof.
  intros Hx. rewrite leb_spec. change (Prim2SF 0) with (S754_zero false).
  destruct (Z.eq_dec x 0) as [->|N]; [reflexivity|].
  rewrite Prim2SF_ofZ by lia. unfold wholeDouble. cbv zeta.
  cbn [SFleb SFcompare].
  destruct (Z.ltb_spec x 0), (Z.leb_spec 0 x); try reflexivity; lia.
Qed.


(** *** Any doubles *)

Lemma bounded_facts m e :
  bounded prec emax m e = true ->
  Zpos (digits2_pos m) <= 53 /\ -1074 <= e <= 971 /\ Zpos m < 2 ^ 53.
Proof.
  unfold bounded, canonical_mantissa. intros H.
  apply andb_prop in H. destruct H as [H1 H2].
  apply Z.eqb_eq in H1. apply Z.leb_le in H2.
  rewrite fexp_unfold in H1. change (emax - prec) with 971 in H2.
  assert (Hd : Zpos (digits2_pos m) <= 53) by lia.
  split; [exact Hd|]. split; [lia|].
  pose proof (digits2_pos_bounds m) as [_ Hu].
  assert (2 ^ Zpos (digits2_pos m) <= 2 ^ 53) by (apply Z.pow_le_mono_r; lia).
  lia.
Qed.

(** A positive number below 2^53 with an exponent that the format has is
    rounded to itself. *)
Lemma binary_round_small s r e :
  Zpos r < 2 ^ 53 -> -1074 <= e <= 971 ->
  exists mc t,
    binary_round prec emax s r e = S754_finite s mc t
    /\ bounded prec emax mc t = true.
Proof.
  intros Hr He.
  assert (Hd : Zpos (digits2_pos r) <= 53) by (apply digits2_pos_le; lia).
  set (t := fexp prec emax (Zpos (digits2_pos r) + e)).
  assert (Ht : -1074 <= t <= e) by (subst t; rewrite fexp_unfold; lia).
  destruct (shl_align_scaled r e t ltac:(lia)) as [Hm _].
  set (mc := fst (shl_align r e t)) in *.
  assert (Hb : bounded prec emax mc t = true).
  { unfold bounded, canonical_mantissa.
    rewrite (digits_scaled r mc (e - t)) by (lia || exact Hm).
    replace (Zpos (digits2_pos r) + (e - t) + t)
      with (Zpos (digits2_pos r) + e) by lia.
    fold t. rewrite Z.eqb_refl. apply Z.leb_le.
    change (emax - prec) with 971. lia. }
  exists mc, t. split; [|exact Hb].
  apply binary_round_exact; [exact Hb|].
  rewrite Z.min_r, Z.sub_diag, Z.pow_0_r, Z.mul_1_r by lia. symmetry. exact Hm.
Qed.

(** The remainder of a finite double modulo 360, in units of the common
    exponent. *)
Lemma SFrem_360_finite sx mx ex :
  bounded prec emax mx ex = true ->
  let e := Z.min ex (-44) in
  let r := Z.rem (Zpos (fst (shl_align mx ex e)))
                 (Zpos (fst (shl_align 6333186975989760 (-44) e))) in
  (r = 0 /\ SFrem (S754_finite sx mx ex) (Prim2SF 360) = S754_zero sx)
  \/ (r <> 0
      /\ exists mc t,
          SFrem (S754_finite sx mx ex) (Prim2SF 360) = S754_finite sx mc t
          /\ bounded prec emax mc t = true).
Proof.
  intros Hb e r. change (Prim2SF 360) with (S754_finite false 6333186975989760 (-44)).
  cbn [SFrem]. fold e. fold r.
  destruct (bounded_facts mx ex Hb) as (Hd & He & Hm).
  assert (Hr : 0 <= r < 2 ^ 53).
  { subst r.
    destruct (Z.le_gt_cases ex (-44)) as [H|H].
    - assert (e = ex) as -> by (subst e; lia).
      rewrite (shl_align_kept mx) by lia. cbn [fst].
      match goal with
      | |- context [Z.rem ?a ?b] =>
          pose proof (Z.rem_bound_pos a b ltac:(lia) ltac:(lia));
          pose proof (Z.rem_le a b ltac:(lia) ltac:(lia))
      end. lia.
    - assert (e = -44) as -> by (subst e; lia).
      rewrite (shl_align_kept _ (-44) (-44)) by lia. cbn [fst].
      match goal with
      | |- context [Z.rem ?a ?b] =>
          pose proof (Z.rem_bound_pos a b ltac:(lia) ltac:(lia))
      end. lia. }
  destruct (Z.eq_dec r 0) as [E|E].
  - left. split; [exact E|]. rewrite E. destruct sx; reflexivity.
  - right. split; [exact E|].
    destruct r as [|p|p]; try lia.
    destruct (binary_round_small sx p e ltac:(lia) ltac:(subst e; lia))
      as (mc & t & H1 & H2).
    exists mc, t. split; [|exact H2].
    destruct sx; cbn [cond_Zopp Z.opp binary_normalize]; exact H1.
Qed.

Lemma binary_round_opp s p e :
  binary_round prec emax (negb s) p e = SFopp (binary_round prec emax s p e).
Proof.
  unfold binary_round, binary_round_aux.
  destruct (shl_align _ _ _) as [mz ez].
  destruct (shr_fexp _ _ _ _ _) as [mrs' e'].
  destruct (shr_fexp _ _ _ _ _) as [mrs'' e''].
  destruct (shr_m mrs''); [reflexivity| |reflexivity].
  destruct (e'' <=? emax - prec); reflexivity.
Qed.

Lemma binary_normalize_opp m e :
  m <> 0 ->
  binary_normalize prec emax (- m) e false
  = SFopp (binary_normalize prec emax m e false).
Proof.
  intros Hm. destruct m as [|p|p]; [contradiction| |]; cbn [Z.opp binary_normalize].
  - apply (binary_round_opp false).
  - apply (binary_round_opp true).
Qed.

(** The two differences of two doubles are opposite; when one is a zero,
    so is the other. *)
Lemma sub_opposite (x y : float) :
  (forall sd, Prim2SF (x - y) = S754_zero sd ->
              exists sd', Prim2SF (y - x) = S754_zero sd')
  /\ (forall sd m e, Prim2SF (x - y) = S754_finite sd m e ->
                     Prim2SF (y - x) = S754_finite (negb sd) m e).
Proof.
  rewrite !sub_spec. unfold SF64sub.
  destruct (Prim2SF x) as [sx|sx| |sx mx ex], (Prim2SF y) as [sy|sy| |sy my ey];
    cbn [SFsub]; split; intros; try discriminate;
    try (destruct sx, sy; try discriminate; eexists; reflexivity);
    try (destruct sx, sy; discriminate);
    try (match goal with H : S754_finite _ _ _ = S754_finite _ _ _ |- _ =>
           injection H as <- <- <- end;
         try rewrite negb_involutive; reflexivity).
  - revert H. rewrite (Z.min_comm ey ex).
    set (A := cond_Zopp sx _). set (B := cond_Zopp sy _).
    destruct (Z.eq_dec (A - B) 0) as [E|E].
    + intros _. replace (B - A) with 0 by lia. eexists. reflexivity.
    + replace (B - A) with (- (A - B)) by lia.
      rewrite binary_normalize_opp by exact E.
      intros ->. eexists. reflexivity.
  - revert H. rewrite (Z.min_comm ey ex).
    set (A := cond_Zopp sx _). set (B := cond_Zopp sy _).
    destruct (Z.eq_dec (A - B) 0) as [E|E].
    + rewrite E. discriminate.
    + replace (B - A) with (- (A - B)) by lia.
      rewrite binary_normalize_opp by exact E.
      intros ->. reflexivity.
Qed.

(** Adding a zero and taking the start away again never leaves a positive
    number. *)
Lemma nothing_swept (a0 z : float) :
  z = 0%float \/ z = (-0)%float ->
  (0 <? (a0 + z) - a0)%float = false.
Proof.
  intros Hz. rewrite ltb_spec, sub_spec, add_spec.
  change (Prim2SF 0) with (S754_zero false).
  assert (Ez : exists sz, Prim2SF z = S754_zero sz).
  { destruct Hz as [->| ->]; eexists; reflexivity. }
  destruct Ez as [sz ->]. unfold SF64sub, SF64add.
  destruct (Prim2SF a0) as [s|s| |s m e]; cbn [SFadd SFsub].
  - destruct s, sz; reflexivity.
  - destruct s; reflexivity.
  - reflexivity.
  - rewrite Z.sub_diag. reflexivity.
Qed.

End DoubleFacts.

(** ** Shape of the generated buffers *)

Module MeshFacts.

Import Mesh.
Import MeshCases.

(** [fmod(x, 360)] when [x] is a zero: the same zero. *)
Lemma fmod_of_zero x sd :
  Prim2SF x = S754_zero sd -> fmod x 360 = SF2Prim (S754_zero sd).
Proof.
  intros H. unfold fmod, JSMath.rem. rewrite leb_spec, H.
  change (Prim2SF 0) with (S754_zero false).
  change (Prim2SF 360) with (S754_finite false 6333186975989760 (-44)).
  reflexivity.
Qed.

(** [fmod(x, 360)] when [x] is a multiple of 360 other than 0: 0 for a
    positive [x], 360 for a negative [x], as [-0 + 360]. *)
Lemma fmod_of_multiple x sd m e :
  Prim2SF x = S754_finite sd m e ->
  JSMath.SFrem (S754_finite sd m e) (Prim2SF 360) = S754_zero sd ->
  fmod x 360 = if sd then 360 else 0.
Proof.
  intros H R. unfold fmod, JSMath.rem. rewrite leb_spec, H, R.
  change (Prim2SF 0) with (S754_zero false).
  destruct sd; reflexivity.
Qed.

(** When the difference of the headings, as the subtraction of doubles
    gives it, leaves no remainder modulo 360, the second end of the sweep
    is the first end plus a zero. *)
Lemma sweep_of_whole_turns s e :
  (JSMath.rem (s - e) 360 =? 0) = true ->
  exists a0 z, sweep s e = (a0, a0 + z) /\ (z = 0 \/ z = -0).
Proof.
  intros H. rewrite eqb_spec in H. unfold JSMath.rem in H.
  change (Prim2SF 0) with (S754_zero false) in H.
  pose proof (Prim2SF_valid (s - e)) as Hv.
  destruct (DoubleFacts.sub_opposite s e) as [Hz Hf].
  destruct (Prim2SF (s - e)) as [sd|sd| |sd m x] eqn:D.
  - destruct (Hz sd eq_refl) as [sd' D'].
    unfold sweep. rewrite (fmod_of_zero _ _ D), (fmod_of_zero _ _ D').
    destruct sd, sd'; (eexists; eexists; split; [reflexivity|]);
      (left; reflexivity) || (right; reflexivity).
  - discriminate H.
  - discriminate H.
  - cbn [valid_binary] in Hv.
    pose proof (Hf sd m x eq_refl) as D'.
    destruct (DoubleFacts.SFrem_360_finite sd m x Hv)
      as [[Er Es]|[Er (mc & t & Es & Hb)]].
    + destruct (DoubleFacts.SFrem_360_finite (negb sd) m x Hv)
        as [[_ Es']|[Er' _]]; [|contradiction].
      unfold sweep.
      rewrite (fmod_of_multiple _ _ _ _ D Es),
              (fmod_of_multiple _ _ _ _ D' Es').
      destruct sd; (eexists; eexists; split; [reflexivity|]);
        left; reflexivity.
    + rewrite Es, Prim2SF_SF2Prim in H by exact Hb.
      destruct sd; discriminate H.
Qed.

(** On whole headings that doubles hold with their difference, the
    remainder of the difference is a zero exactly for congruent headings. *)
Lemma rem_of_congruent s e :
  (Z.abs s < 2 ^ 52)%Z -> (Z.abs e < 2 ^ 52)%Z ->
  ((s - e) mod 360 = 0)%Z ->
  (JSMath.rem (JSMath.ofZ s - JSMath.ofZ e) 360 =? 0) = true.
Proof.
  intros Hs He H.
  rewrite DoubleFacts.ofZ_sub by lia.
  destruct (Z.eq_dec (s - e) 0) as [->|N]; [reflexivity|].
  rewrite DoubleFacts.rem_ofZ_360 by lia.
  assert (R : Z.rem (s - e) 360 = 0%Z).
  { apply Z.rem_divide; [lia|]. apply Z.mod_divide; [lia|exact H]. }
  rewrite R. destruct (s - e <? 0)%Z; reflexivity.
Qed.

Section AnyMath.

Variables Math_cos Math_sin : float -> float.
Variable Math_pow : float -> float -> float.

(** C6.  For all headings, either value of the midspin flag and all sizes,
    the mesh returned by [createTrackMesh] has as many entries in
    [vertices] as in [colors], both counts are multiples of 3, and so is
    the number of entries in [faces]. *)
Theorem createTrackMesh_buffers_hold_triples :
  forall startAngle endAngle isMidspin length width outline,
    let m := createTrackMesh Math_cos Math_sin Math_pow
                             startAngle endAngle isMidspin
                             length width outline in
    List.length (vertices m) = List.length (colors m)
    /\ Nat.modulo (List.length (vertices m)) 3 = 0%nat
    /\ Nat.modulo (List.length (colors m)) 3 = 0%nat
    /\ Nat.modulo (List.length (faces m)) 3 = 0%nat.
Proof.
  intros startAngle endAngle isMidspin length width outline.
  unfold createTrackMesh. destruct isMidspin.
  - cbv zeta. repeat split.
  - unfold createTileMesh.
    destruct (sweep startAngle endAngle) as [a0 a1].
    cbv zeta.
    destruct ((a1 - a0 <? 2.0943952) && (0 <? a1 - a0))%float.
    + destruct (chamferScale Math_pow (a1 - a0) =? 1)%float;
        match goal with
        | |- context [if (?r <? 0)%float then _ else _] =>
            destruct (r <? 0)%float
        end; repeat split.
    + destruct (0 <? a1 - a0)%float; repeat split.
Qed.

(** The four shapes a mesh can have: the midspin marker, the curved family,
    the wide family, and no geometry at all. *)
Lemma createTrackMesh_sizes :
  forall startAngle endAngle isMidspin length width outline,
    let m := createTrackMesh Math_cos Math_sin Math_pow
                             startAngle endAngle isMidspin
                             length width outline in
    In (List.length (vertices m), List.length (faces m))
       [ (42, 18); (282, 240); (72, 36); (0, 0) ]%nat.
Proof.
  intros startAngle endAngle isMidspin length width outline.
  unfold createTrackMesh. destruct isMidspin.
  - cbv zeta. left. reflexivity.
  - unfold createTileMesh.
    destruct (sweep startAngle endAngle) as [a0 a1].
    cbv zeta.
    destruct ((a1 - a0 <? 2.0943952) && (0 <? a1 - a0))%float.
    + right. left.
      destruct (chamferScale Math_pow (a1 - a0) =? 1)%float;
        match goal with
        | |- context [if (?r <? 0)%float then _ else _] =>
            destruct (r <? 0)%float
        end; reflexivity.
    + destruct (0 <? a1 - a0)%float.
      * right. right. left. reflexivity.
      * right. right. right. left. reflexivity.
Qed.

(** [vertices.length / 3] is an exact quotient on the finished mesh. *)
Lemma vertexCount_exact :
  forall startAngle endAngle isMidspin length width outline,
    let m := createTrackMesh Math_cos Math_sin Math_pow
                             startAngle endAngle isMidspin
                             length width outline in
    Z.of_nat (List.length (vertices m)) = (3 * vertexCount m)%Z.
Proof.
  intros startAngle endAngle isMidspin length width outline m.
  pose proof (createTrackMesh_sizes startAngle endAngle isMidspin
                                    length width outline) as H.
  fold m in H. unfold vertexCount.
  destruct H as [H|[H|[H|[H|[]]]]]; injection H as <- _; reflexivity.
Qed.

(** C10 (as amended).  When the difference of the two headings, computed
    as the source computes it by the subtraction of doubles, leaves the
    remainder 0 modulo 360 ([(startAngle - endAngle) % 360 == 0]) and the
    midspin flag is off, [createTrackMesh] returns three empty arrays,
    whatever the sizes.  This is so for all headings that are whole numbers
    of magnitude at most 2^51 and congruent modulo 360. *)
Theorem congruent_headings_give_empty_mesh :
  (forall startAngle endAngle length width outline,
     (JSMath.rem (startAngle - endAngle) 360 =? 0) = true ->
     createTrackMesh Math_cos Math_sin Math_pow startAngle endAngle false
                     length width outline
     = empty)
  /\ (forall s e length width outline,
        safeWhole s -> safeWhole e ->
        ((s - e) mod 360 = 0)%Z ->
        createTrackMesh Math_cos Math_sin Math_pow
                        (JSMath.ofZ s) (JSMath.ofZ e) false
                        length width outline
        = empty).
Proof.
  assert (A : forall startAngle endAngle length width outline,
             (JSMath.rem (startAngle - endAngle) 360 =? 0) = true ->
             createTrackMesh Math_cos Math_sin Math_pow startAngle endAngle
                             false length width outline
             = empty).
  { intros s e length width outline H.
    unfold createTrackMesh, createTileMesh.
    destruct (sweep_of_whole_turns s e H) as (a0 & z & -> & Hz).
    cbv zeta. rewrite (DoubleFacts.nothing_swept a0 z Hz), andb_false_r.
    reflexivity. }
  split; [exact A|].
  intros s e length width outline Hs He H. apply A.
  unfold safeWhole in Hs, He.
  apply rem_of_congruent; [lia|lia|exact H].
Qed.

End AnyMath.

Lemma congruent_headings_give_empty_mesh_witness :
  createTrackMesh (fun v => v) (fun v => v) (fun v _ => v) 0 360 false
                  TILE_LENGTH TILE_WIDTH OUTLINE
  = empty.
Proof.
  apply (proj1 (congruent_headings_give_empty_mesh
                  (fun v => v) (fun v => v) (fun v _ => v))).
  reflexivity.
Defined.

(** C10 (as stated) fails: the headings [-360] and [360 * 2^53] are whole
    numbers that doubles hold, and they are congruent modulo 360; their
    difference is rounded to a double that is no multiple of 360, and
    geometry is emitted. *)
Lemma rounded_difference_gives_a_mesh : ~ congruent_headings_have_no_mesh.
Proof.
  intros H.
  specialize (H (fun v => v) (fun v => v) (fun v _ => v)
                (-360) (JSMath.ofZ (360 * 2 ^ 53))
                (-360)%Z (360 * 2 ^ 53)%Z
                TILE_LENGTH TILE_WIDTH OUTLINE eq_refl eq_refl eq_refl).
  apply (f_equal (fun m => List.length (vertices m))) in H.
  vm_compute in H. discriminate H.
Qed.

End MeshFacts.

(** ** Crossings of the orbiting planets *)

Module PreviewerFacts.

Import Previewer.
Open Scope float_scope.
Import PreviewerCases.

Section Crossing.

Variable Math_pow : float -> float -> float.
Variable Math_atan2 : float -> float -> float.

(** What one crossing does: the planet becomes the centre, the tile index
    becomes the index of the old centre PLANET plus one, then Pause,
    SetSpeed and Twirl of that tile are applied in this order, then the
    angles of the other planets are recomputed. *)
Lemma crossing_effects tiles this planetIndex nextTile p planet :
  Level.tileAt tiles (centerPlanetIndex this + 1) = Some nextTile ->
  Level.position nextTile = Some p ->
  planetAt this planetIndex = Some planet ->
  closeEnough Math_pow (pos planet) (Level.pos_x p, Level.pos_y p) = true ->
  let next := (centerPlanetIndex this + 1)%Z in
  checkPlanetTileTransition Math_pow Math_atan2 tiles this planetIndex
  = Some (recalculatePlanetAngles Math_atan2
            (applyTwirl tiles next
               (applySetSpeed tiles next
                  (applyPause tiles next
                     (setCenter this planetIndex next))))).
Proof.
  intros Ht Hp Hpl Hc. unfold checkPlanetTileTransition.
  rewrite Ht, Hpl, Hp, Hc. reflexivity.
Qed.

Lemma processActionsAtTile_indices tiles tileIdx this :
  centerPlanetIndex (processActionsAtTile tiles tileIdx this)
  = centerPlanetIndex this
  /\ currentTileIndex (processActionsAtTile tiles tileIdx this)
     = currentTileIndex this.
Proof.
  unfold processActionsAtTile, applyTwirl, applySetSpeed, applyPause.
  destruct (Level.getActionsByIndex tiles "Pause" tileIdx);
    destruct (Level.getActionsByIndex tiles "SetSpeed" tileIdx) as [|a ?];
    destruct (Level.getActionsByIndex tiles "Twirl" tileIdx);
    try destruct (speedType a) as [ty|];
    try destruct (String.eqb ty "Multiplier");
    try destruct (String.eqb ty "Bpm");
    split; reflexivity.
Qed.

Lemma recalculatePlanetAngles_indices this :
  centerPlanetIndex (recalculatePlanetAngles Math_atan2 this)
  = centerPlanetIndex this
  /\ currentTileIndex (recalculatePlanetAngles Math_atan2 this)
     = currentTileIndex this.
Proof.
  unfold recalculatePlanetAngles.
  destruct (planetAt this (centerPlanetIndex this)); split; reflexivity.
Qed.

(** After any crossing the centre is the planet that crossed, and the tile
    index is one more than the index of the planet that was the centre. *)
Lemma crossing_indices tiles this planetIndex nextTile p planet this' :
  Level.tileAt tiles (centerPlanetIndex this + 1) = Some nextTile ->
  Level.position nextTile = Some p ->
  planetAt this planetIndex = Some planet ->
  closeEnough Math_pow (pos planet) (Level.pos_x p, Level.pos_y p) = true ->
  checkPlanetTileTransition Math_pow Math_atan2 tiles this planetIndex
  = Some this' ->
  centerPlanetIndex this' = planetIndex
  /\ currentTileIndex this' = (centerPlanetIndex this + 1)%Z.
Proof.
  intros Ht Hp Hpl Hc Hr.
  rewrite (crossing_effects _ _ _ _ _ _ Ht Hp Hpl Hc) in Hr.
  injection Hr as <-.
  destruct (recalculatePlanetAngles_indices
              (processActionsAtTile tiles (centerPlanetIndex this + 1)
                 (setCenter this planetIndex (centerPlanetIndex this + 1))))
    as [E1 E2].
  destruct (processActionsAtTile_indices tiles (centerPlanetIndex this + 1)
              (setCenter this planetIndex (centerPlanetIndex this + 1)))
    as [E3 E4].
  unfold processActionsAtTile in *.
  rewrite E1, E2, E3, E4. split; reflexivity.
Qed.

(** C5.  On [spacedTiles], three crossings in a row: planet 1 reaches tile
    1, planet 0 reaches tile 2, and then planet 1, swinging around planet
    0, comes by tile 1 again.  The third check looks at
    [tiles[centerPlanetIndex + 1]], that is tile 1, and sets the tile
    index back from 2 to 1 instead of advancing it to 3. *)
Theorem third_crossing_steps_back :
  Math_pow 0 2 = 0 ->
  let s1 := arrive Math_pow Math_atan2 (Some started) 1 (4, 0) in
  let s2 := arrive Math_pow Math_atan2 s1 0 (7, 0) in
  let s3 := arrive Math_pow Math_atan2 s2 1 (4, 0) in
  indices s1 = Some (1, 1)%Z
  /\ indices s2 = Some (0, 2)%Z
  /\ indices s3 = Some (1, 1)%Z.
Proof.
  intros H0. cbv zeta.
  repeat split; cbv; rewrite ?H0; cbv; rewrite ?H0; cbv; rewrite ?H0; cbv;
    reflexivity.
Qed.

End Crossing.

Lemma third_crossing_steps_back_witness :
  indices
    (arrive (fun v _ => v * v) (fun _ _ => 0)
       (arrive (fun v _ => v * v) (fun _ _ => 0)
          (arrive (fun v _ => v * v) (fun _ _ => 0) (Some started) 1 (4, 0))
          0 (7, 0))
       1 (4, 0))
  = Some (1, 1)%Z.
Proof.
  exact (proj2 (proj2 (third_crossing_steps_back
                         (fun v _ => v * v) (fun _ _ => 0) eq_refl))).
Defined.

End PreviewerFacts.


(** ** Export and reload *)

Module ExportFacts.

Import Level.
Import LevelCases.
Import LevelMoreCases.

Lemma array_from_at_length {St A : Type} (f : nat -> St -> A * St) n k s :
  List.length (fst (JS.array_from_at f n k s)) = n.
Proof.
  revert k s. induction n as [|n IH]; intros k s; cbn [JS.array_from_at].
  - reflexivity.
  - destruct (f k s) as [a s1]. specialize (IH (S k) s1).
    destruct (JS.array_from_at f n (S k) s1) as [l s2]. cbn in *. lia.
Qed.


(** The fields of a created tile that do not depend on the accumulators. *)
Lemma created_tile_fields opt n k s j t :
  nth_error (fst (JS.array_from_at (createTile opt) n k s)) j = Some t ->
  direction t = JS.index (opt_angleData opt) (Z.of_nat (k + j))
  /\ _lastdir t
     = JS.Num (JS.orZero (JS.index (opt_angleData opt) (Z.of_nat (k + j) - 1)))
  /\ actions t = map rest (onFloor (opt_actions opt) (Z.of_nat (k + j)))
  /\ addDecorations t
     = _filterByFloorwithDeco (opt_decorations opt) (Z.of_nat (k + j))
  /\ position t = None.
Proof.
  revert k s j. induction n as [|n IH]; intros k s j H.
  - destruct j; discriminate.
  - cbn [JS.array_from_at] in H. rewrite LevelFacts.createTile_eq in H.
    cbv zeta in H.
    match type of H with
    | context [JS.array_from_at ?f n (S k) ?s1] =>
        specialize (IH (S k) s1); destruct (JS.array_from_at f n (S k) s1) as [l s2]
    end.
    cbn [fst] in H, IH. destruct j as [|j]; cbn [nth_error] in H.
    + injection H as <-. rewrite Nat.add_0_r. repeat split.
    + replace (k + S j)%nat with (S k + j)%nat by lia. apply IH. exact H.
Qed.

Lemma index_seq (l : list JS.value) :
  map (fun j => JS.index l (Z.of_nat j)) (seq 0 (List.length l)) = l.
Proof.
  apply nth_error_ext. intros n.
  rewrite nth_error_map.
  destruct (Nat.lt_ge_cases n (List.length l)) as [H|H].
  - rewrite nth_error_seq. 
    destruct (Nat.ltb_spec n (List.length l)); [|lia]. cbn.
    unfold JS.index. destruct (Z.ltb_spec (Z.of_nat n) 0); [lia|].
    rewrite Nat2Z.id.
    destruct (nth_error l n) eqn:E; [reflexivity|].
    apply nth_error_None in E. lia.
  - rewrite (proj2 (nth_error_None _ _)) by (rewrite length_seq; lia).
    cbn. symmetry. apply nth_error_None. exact H.
Qed.

Lemma tilesOf_length agd acts decos :
  List.length (tilesOf agd acts decos) = List.length agd.
Proof.
  rewrite LevelFacts.tilesOf_eq. apply array_from_at_length.
Qed.

Lemma tilesOf_fields agd acts decos j t :
  nth_error (tilesOf agd acts decos) j = Some t ->
  direction t = JS.index agd (Z.of_nat j)
  /\ _lastdir t = JS.Num (JS.orZero (JS.index agd (Z.of_nat j - 1)))
  /\ actions t = map rest (onFloor acts (Z.of_nat j))
  /\ addDecorations t = map rest (onFloor decos (Z.of_nat j))
  /\ position t = None.
Proof.
  rewrite LevelFacts.tilesOf_eq. intros H.
  apply (created_tile_fields (optOf agd acts decos) _ 0%nat _ j t) in H.
  exact H.
Qed.

Lemma flattened_headings_of_tilesOf agd acts decos :
  _flattenAngleDatas (tilesOf agd acts decos) = agd.
Proof.
  unfold _flattenAngleDatas.
  rewrite <- (index_seq agd) at 2.
  apply nth_error_ext. intros n. rewrite !nth_error_map.
  destruct (nth_error (tilesOf agd acts decos) n) as [t|] eqn:E.
  - pose proof (tilesOf_fields _ _ _ _ _ E) as (Hd & _).
    assert (Hn : (n < List.length agd)%nat).
    { rewrite <- (tilesOf_length agd acts decos). apply nth_error_Some. congruence. }
    rewrite nth_error_seq. destruct (Nat.ltb_spec n (List.length agd)); [|lia].
    cbn. rewrite Hd. reflexivity.
  - apply nth_error_None in E. rewrite tilesOf_length in E.
    rewrite (proj2 (nth_error_None _ _)) by (rewrite length_seq; lia).
    reflexivity.
Qed.









Lemma refloor_onFloor acts i :
  map (fun a => {| floor := i; rest := a |}) (map rest (onFloor acts i))
  = onFloor acts i.
Proof.
  unfold onFloor. induction acts as [|a l IH]; [reflexivity|].
  cbn [filter]. destruct (Z.eqb_spec (floor a) i) as [E|E]; [|exact IH].
  cbn [map]. rewrite IH. destruct a as [f r]. cbn in E. subst f. reflexivity.
Qed.

Lemma byFloor_succ acts k n :
  byFloor acts k (S n) = onFloor acts k ++ byFloor acts (k + 1) n.
Proof.
  unfold byFloor. cbn [seq flat_map]. rewrite Z.add_0_r. f_equal.
  rewrite <- seq_shift, flat_map_concat_map, map_map, <- flat_map_concat_map.
  apply flat_map_ext. intros j. f_equal. lia.
Qed.

(** The flattened actions of created tiles: the loaded actions, floor by
    floor. *)
Lemma flatten_created (field : Tile -> list Event) (pick : CreateOpt -> list Floored)
      opt :
  (forall i s, field (fst (createTile opt i s))
               = map rest (onFloor (pick opt) (Z.of_nat i))) ->
  forall n k s,
    flat_map (fun ia => map (fun a => {| floor := fst ia; rest := a |})
                            (field (snd ia)))
             (indexed_from (Z.of_nat k)
                           (fst (JS.array_from_at (createTile opt) n k s)))
    = byFloor (pick opt) (Z.of_nat k) n.
Proof.
  intros Hf. induction n as [|n IH]; intros k s.
  - reflexivity.
  - rewrite byFloor_succ. cbn [JS.array_from_at].
    pose proof (Hf k s) as H0. destruct (createTile opt k s) as [t s1].
    specialize (IH (S k) s1).
    destruct (JS.array_from_at (createTile opt) n (S k) s1) as [l s2].
    cbn [fst snd indexed_from flat_map] in *.
    rewrite H0, refloor_onFloor. f_equal.
    replace (Z.of_nat k + 1) with (Z.of_nat (S k)) by lia. exact IH.
Qed.

Lemma exported_actions_byFloor agd acts decos :
  _flattenActionsWithFloor (tilesOf agd acts decos)
  = byFloor acts 0 (List.length agd).
Proof.
  rewrite LevelFacts.tilesOf_eq. unfold _flattenActionsWithFloor.
  apply (flatten_created actions opt_actions (optOf agd acts decos)
                         ltac:(intros; rewrite LevelFacts.createTile_eq; reflexivity)
                         (List.length agd) 0%nat).
Qed.

Lemma exported_decorations_byFloor agd acts decos :
  _flattenDecorationsWithFloor (tilesOf agd acts decos)
  = byFloor decos 0 (List.length agd).
Proof.
  rewrite LevelFacts.tilesOf_eq. unfold _flattenDecorationsWithFloor.
  apply (flatten_created addDecorations opt_decorations (optOf agd acts decos)
                         ltac:(intros; rewrite LevelFacts.createTile_eq; reflexivity)
                         (List.length agd) 0%nat).
Qed.

Lemma in_byFloor acts k n a :
  In a (byFloor acts k n) <-> In a acts /\ k <= floor a < k + Z.of_nat n.
Proof.
  unfold byFloor, onFloor. rewrite in_flat_map. split.
  - intros (j & Hj & Ha). apply in_seq in Hj. apply filter_In in Ha.
    destruct Ha as [Ha E]. apply Z.eqb_eq in E. split; [exact Ha|lia].
  - intros [Ha Hr]. exists (Z.to_nat (floor a - k)). split.
    + apply in_seq. lia.
    + apply filter_In. split; [exact Ha|]. apply Z.eqb_eq. lia.
Qed.

(** X2.  For a freshly loaded level, [export] writes the heading array that
    was loaded and lists exactly the loaded actions whose floor is the index
    of a tile: an action on a negative floor or on a floor past the last
    tile is attached to no tile by [load] and is missing from the export. *)
Theorem export_keeps_actions_on_tiles_only :
  forall agd acts decos,
    _flattenAngleDatas (tilesOf agd acts decos) = agd
    /\ forall a,
        In a (_flattenActionsWithFloor (tilesOf agd acts decos))
        <-> In a acts /\ 0 <= floor a < Z.of_nat (List.length agd).
Proof.
  intros agd acts decos. split; [apply flattened_headings_of_tilesOf|].
  intros a. rewrite exported_actions_byFloor. apply in_byFloor.
Qed.

Lemma onFloor_none acts k :
  Forall (fun a => k < floor a) acts -> onFloor acts k = [].
Proof.
  unfold onFloor. induction 1 as [|a l Ha _ IH]; [reflexivity|].
  cbn [filter]. destruct (Z.eqb_spec (floor a) k); [lia|exact IH].
Qed.

Lemma byFloor_skip a acts k n :
  floor a < k -> byFloor (a :: acts) k n = byFloor acts k n.
Proof.
  intros H. unfold byFloor. apply flat_map_ext. intros j.
  unfold onFloor. cbn [filter].
  destruct (Z.eqb_spec (floor a) (k + Z.of_nat j)); [lia|reflexivity].
Qed.

Lemma byFloor_app_low l acts k n :
  Forall (fun a => floor a < k) l -> byFloor (l ++ acts) k n = byFloor acts k n.
Proof.
  induction 1 as [|a l Ha _ IH]; [reflexivity|].
  cbn [app]. rewrite byFloor_skip by exact Ha. exact IH.
Qed.

(** A list with ascending floors, all at least [k], starts with its entries
    of floor [k]. *)
Lemma ascending_split acts k :
  floorsAscend acts ->
  Forall (fun a => k <= floor a) acts ->
  exists high,
    acts = onFloor acts k ++ high
    /\ Forall (fun a => k < floor a) high
    /\ floorsAscend high.
Proof.
  induction acts as [|a l IH]; intros Hs Hk.
  - exists []. repeat split; constructor.
  - cbn [floorsAscend] in Hs. destruct Hs as [Hal Hs].
    inversion Hk as [|? ? Ha Hl]; subst.
    destruct (Z.eqb_spec (floor a) k) as [E|E].
    + destruct (IH Hs Hl) as (high & Heq & Hh & Hsh).
      exists high. unfold onFloor in *. cbn [filter].
      destruct (Z.eqb_spec (floor a) k); [|contradiction].
      cbn [app]. rewrite <- Heq.
      split; [reflexivity|]. split; assumption.
    + exists (a :: l).
      assert (Hgt : Forall (fun b => k < floor b) (a :: l)).
      { constructor; [lia|]. eapply Forall_impl; [|exact Hal].
        cbn. intros b Hb. lia. }
      rewrite (onFloor_none _ _ Hgt).
      split; [reflexivity|]. split; [exact Hgt|].
      cbn [floorsAscend]. split; assumption.
Qed.

Lemma onFloor_all acts k :
  Forall (fun a => floor a = k) (onFloor acts k).
Proof.
  unfold onFloor. apply Forall_forall. intros a Ha.
  apply filter_In in Ha. destruct Ha as [_ E]. apply Z.eqb_eq. exact E.
Qed.

Lemma byFloor_ascending n :
  forall k acts,
    floorsAscend acts ->
    Forall (fun a => k <= floor a < k + Z.of_nat n) acts ->
    byFloor acts k n = acts.
Proof.
  induction n as [|n IH]; intros k acts Hs Hr.
  - destruct acts as [|a l]; [reflexivity|].
    inversion Hr; subst. lia.
  - rewrite byFloor_succ.
    destruct (ascending_split acts k Hs) as (high & Heq & Hh & Hsh).
    { eapply Forall_impl; [|exact Hr]. cbn. intros; lia. }
    assert (Hhr : Forall (fun a => k + 1 <= floor a < k + 1 + Z.of_nat n) high).
    { apply Forall_forall. intros a Ha.
      assert (Hin : In a acts) by (rewrite Heq; apply in_or_app; right; exact Ha).
      rewrite Forall_forall in Hr, Hh. specialize (Hr a Hin). specialize (Hh a Ha).
      lia. }
    rewrite Heq at 2 3.
    rewrite byFloor_app_low.
    + rewrite (IH (k + 1) high Hsh Hhr). reflexivity.
    + eapply Forall_impl; [|apply onFloor_all]. cbn. intros; lia.
Qed.

(** X3.  When the actions and the decorations of the loaded file are listed
    by ascending floor and every floor is the index of a tile, [export]
    returns both lists exactly as they were loaded. *)
Theorem export_returns_loaded_events :
  forall agd acts decos,
    floorsAscend acts ->
    floorsAscend decos ->
    Forall (fun a => 0 <= floor a < Z.of_nat (List.length agd)) acts ->
    Forall (fun a => 0 <= floor a < Z.of_nat (List.length agd)) decos ->
    _flattenActionsWithFloor (tilesOf agd acts decos) = acts
    /\ _flattenDecorationsWithFloor (tilesOf agd acts decos) = decos.
Proof.
  intros agd acts decos Ha Hd Hra Hrd.
  rewrite exported_actions_byFloor, exported_decorations_byFloor.
  split; apply byFloor_ascending; assumption.
Qed.

Lemma export_returns_loaded_events_witness :
  _flattenActionsWithFloor
    (tilesOf (nums [0; 90])
             [twirlAt 0 (plainEvent "Twirl"); twirlAt 1 (plainEvent "SetSpeed")]
             [twirlAt 1 (plainEvent "AddDecoration")])
  = [twirlAt 0 (plainEvent "Twirl"); twirlAt 1 (plainEvent "SetSpeed")]
  /\ _flattenDecorationsWithFloor
       (tilesOf (nums [0; 90])
                [twirlAt 0 (plainEvent "Twirl"); twirlAt 1 (plainEvent "SetSpeed")]
                [twirlAt 1 (plainEvent "AddDecoration")])
     = [twirlAt 1 (plainEvent "AddDecoration")].
Proof.
  apply export_returns_loaded_events.
  - cbn. repeat split; repeat constructor; cbn; lia.
  - cbn. repeat split; repeat constructor.
  - repeat constructor; cbn; lia.
  - repeat constructor; cbn; lia.
Defined.

End ExportFacts.

(** ** Queries and counts on the loaded tiles *)

Module TileFacts.

Import Level.
Import LevelCases.
Import LevelMoreCases.

Lemma actions_of_tile_from ts en i : forall k,
  map snd
      (filter (fun p => fst p =? i)
              (filter (fun p => String.eqb (eventType (snd p)) en)
                      (flat_map (fun ia => map (fun b => (fst ia, b))
                                               (actions (snd ia)))
                                (indexed_from k ts))))
  = filter (fun e => String.eqb (eventType e) en)
           (if k <=? i
            then match nth_error ts (Z.to_nat (i - k)) with
                 | Some t => actions t
                 | None => []
                 end
            else []).
Proof.
  induction ts as [|t ts IH]; intros k; cbn [indexed_from flat_map].
  - cbn. destruct (k <=? i); [|reflexivity].
    destruct (Z.to_nat (i - k)); reflexivity.
  - rewrite !filter_app, map_app, IH. cbn [fst snd].
    assert (Hhead :
      map snd (filter (fun p => fst p =? i)
                 (filter (fun p => String.eqb (eventType (snd p)) en)
                         (map (fun b => (k, b)) (actions t))))
      = if k =? i
        then filter (fun e => String.eqb (eventType e) en) (actions t)
        else []).
    { induction (actions t) as [|b l IHl].
      - destruct (k =? i); reflexivity.
      - cbn [map filter snd]. destruct (String.eqb (eventType b) en).
        + cbn [filter fst]. destruct (k =? i); cbn [map snd]; rewrite IHl; reflexivity.
        + exact IHl. }
    rewrite Hhead.
    destruct (Z.eqb_spec k i) as [E|E].
    + subst i. destruct (Z.leb_spec (k + 1) k); [lia|].
      destruct (Z.leb_spec k k); [|lia].
      rewrite Z.sub_diag. cbn [Z.to_nat nth_error filter]. apply app_nil_r.
    + cbn [app].
      destruct (Z.leb_spec (k + 1) i), (Z.leb_spec k i); try lia; try reflexivity.
      replace (Z.to_nat (i - k)) with (S (Z.to_nat (i - (k + 1)))) by lia.
      reflexivity.
Qed.

(** X4.  [getActionsByIndex(en, index)] returns the actions of the tile
    [index] whose event type is [en], in their order on the tile, and
    nothing when [index] is not the index of a tile. *)
Theorem getActionsByIndex_reads_one_tile :
  forall ts en index,
    getActionsByIndex ts en index
    = filter (fun e => String.eqb (eventType e) en)
             (match tileAt ts index with
              | Some t => actions t
              | None => []
              end).
Proof.
  intros ts en index. unfold getActionsByIndex, filterActionsByEventType.
  rewrite actions_of_tile_from. unfold tileAt. rewrite Z.sub_0_r.
  destruct (Z.leb_spec 0 index), (Z.ltb_spec index 0); try lia; reflexivity.
Qed.

Lemma twirlsBelow_succ acts k :
  0 <= k ->
  Z.of_nat (List.length (twirlsBelow acts (k + 1)))
  = Z.of_nat (List.length (twirlsBelow acts k)) + twirlsAt acts k.
Proof.
  intros Hk. unfold twirlsBelow, twirlsAt.
  induction acts as [|a l IH]; [reflexivity|].
  cbn [filter].
  destruct (isTwirlEvent (rest a)) eqn:Et;
    destruct (Z.leb_spec 0 (floor a)), (Z.ltb_spec (floor a) (k + 1)),
             (Z.ltb_spec (floor a) k), (Z.eqb_spec (floor a) k);
    cbn [andb filter List.length]; rewrite ?Et; cbn [List.length]; lia.
Qed.

Lemma twirlsBelow_zero acts : twirlsBelow acts (Z.of_nat 0) = [].
Proof.
  unfold twirlsBelow. induction acts as [|a l IH]; [reflexivity|].
  cbn [filter Z.of_nat].
  destruct (Z.ltb_spec (floor a) 0), (Z.leb_spec 0 (floor a));
    try lia; rewrite ?andb_false_r; cbn [andb]; exact IH.
Qed.

Lemma twirlsUpTo_below acts i : twirlsUpTo acts i = twirlsBelow acts (i + 1).
Proof.
  unfold twirlsUpTo, twirlsBelow. apply filter_ext. intros a.
  destruct (Z.leb_spec (floor a) i), (Z.ltb_spec (floor a) (i + 1)); try lia;
    reflexivity.
Qed.

Lemma created_twirl opt n : forall k s j t,
  _twirlCount s
  = Z.of_nat (List.length (twirlsBelow (opt_actions opt) (Z.of_nat k))) ->
  nth_error (fst (JS.array_from_at (createTile opt) n k s)) j = Some t ->
  twirl t
  = Z.of_nat (List.length (twirlsUpTo (opt_actions opt) (Z.of_nat (k + j)))).
Proof.
  induction n as [|n IH]; intros k s j t Hs H.
  - destruct j; discriminate.
  - cbn [JS.array_from_at] in H. rewrite LevelFacts.createTile_eq in H.
    cbv zeta in H.
    match type of H with
    | context [JS.array_from_at ?f n (S k) ?s1] =>
        specialize (IH (S k) s1);
        destruct (JS.array_from_at f n (S k) s1) as [l s2]
    end.
    cbn [fst _twirlCount] in H, IH.
    assert (Hnext :
      _twirlCount s + twirlsAt (opt_actions opt) (Z.of_nat k)
      = Z.of_nat (List.length (twirlsBelow (opt_actions opt) (Z.of_nat (S k))))).
    { replace (Z.of_nat (S k)) with (Z.of_nat k + 1) by lia.
      rewrite twirlsBelow_succ by lia. lia. }
    destruct j as [|j]; cbn [nth_error] in H.
    + injection H as <-. cbn [twirl]. rewrite Nat.add_0_r, twirlsUpTo_below.
      replace (Z.of_nat k + 1) with (Z.of_nat (S k)) by lia. exact Hnext.
    + replace (k + S j)%nat with (S k + j)%nat by lia.
      apply (IH j t Hnext H).
Qed.

(** X5.  After [load], the [twirl] field of tile [i] is the number of Twirl
    actions registered on the floors 0 to [i], the floor [i] included;
    Twirl actions on negative floors are never counted. *)
Theorem twirl_field_counts_twirls_up_to_tile :
  forall agd acts decos i t,
    nth_error (tilesOf agd acts decos) i = Some t ->
    twirl t = Z.of_nat (List.length (twirlsUpTo acts (Z.of_nat i))).
Proof.
  intros agd acts decos i t H. rewrite LevelFacts.tilesOf_eq in H.
  apply (created_twirl (optOf agd acts decos) (List.length agd) 0%nat start i t);
    [|exact H].
  cbn [optOf opt_actions]. rewrite twirlsBelow_zero. reflexivity.
Qed.

Lemma twirl_field_counts_twirls_up_to_tile_witness :
  exists t,
    nth_error (tilesOf (nums [0; 0; 90])
                       [twirlAt 2 (plainEvent "Twirl");
                        twirlAt 0 (plainEvent "Twirl");
                        twirlAt (-1) (plainEvent "Twirl")] []) 1 = Some t
    /\ twirl t = 1.
Proof.
  eexists. split; [reflexivity|].
  exact (twirl_field_counts_twirls_up_to_tile
           (nums [0; 0; 90])
           [twirlAt 2 (plainEvent "Twirl"); twirlAt 0 (plainEvent "Twirl");
            twirlAt (-1) (plainEvent "Twirl")] [] 1%nat _ eq_refl).
Defined.

Lemma rem360_bound v : -360 < Z.rem v 360 < 360.
Proof.
  destruct (Z.le_gt_cases 0 v) as [H|H].
  - pose proof (Z.rem_bound_pos v 360 H ltac:(lia)). lia.
  - pose proof (Z.rem_bound_pos_neg v 360 ltac:(lia) ltac:(lia)). lia.
Qed.

Lemma parseAngle_numeric d agd i p a :
  (i = 0 \/ d = JS.Num a) ->
  numericHeading (JS.index agd i) ->
  (i = 0 -> JS.index agd i <> JS.Num 999) ->
  numericHeading (JS.index agd (i - 1)) \/ JS.eqZ (JS.index agd i) 999 = false ->
  (if JS.eqZ (JS.index agd i) 999
   then fst (_parseAngle d agd i p) = JS.Num 0
   else exists z,
       fst (_parseAngle d agd i p) = JS.Num z /\ z <> 0
       /\ (if p =? 0 then -360 < z <= 360 else 0 < z < 720))
  /\ numericHeading (snd (_parseAngle d agd i p)).
Proof.
  intros Hd [h Hh] H0 Hprev. unfold _parseAngle.
  rewrite Hh in *. cbn [JS.eqZ] in *.
  destruct (Z.eqb_spec h 999) as [E|E].
  - cbn [fst snd JS.eqNaN]. split; [reflexivity|].
    destruct Hprev as [Hprev|Hprev]; [exact Hprev|discriminate].
  - assert (Hdir : exists b, (if i =? 0 then JS.Num 180 else d) = JS.Num b).
    { destruct (Z.eqb_spec i 0); [eexists; reflexivity|].
      destruct Hd as [Hd|Hd]; [contradiction|]. exists a. exact Hd. }
    destruct Hdir as [b ->]. cbn [JS.sub JS.rem JS.add fst snd].
    split; [|eexists; reflexivity].
    pose proof (rem360_bound (b - h)) as Hb.
    destruct (Z.eqb_spec p 0) as [Ep|Ep].
    + cbn [JS.eqZ]. destruct (Z.eqb_spec (Z.rem (b - h) 360) 0) as [Ez|Ez].
      * exists 360. repeat split; lia.
      * exists (Z.rem (b - h) 360). repeat split; lia.
    + cbn [JS.sub JS.eqZ].
      destruct (Z.eqb_spec (360 - Z.rem (b - h) 360) 0) as [Ez|Ez]; [lia|].
      exists (360 - Z.rem (b - h) 360).
      split; [reflexivity|]. split; [exact Ez|]. lia.
Qed.

Lemma index_numeric agd j :
  Forall numericHeading agd ->
  0 <= j < Z.of_nat (List.length agd) ->
  numericHeading (JS.index agd j).
Proof.
  intros Hall Hj. unfold JS.index.
  destruct (Z.ltb_spec j 0); [lia|].
  destruct (nth_error agd (Z.to_nat j)) as [v|] eqn:E.
  - rewrite Forall_forall in Hall. apply Hall. eapply nth_error_In. exact E.
  - apply nth_error_None in E. lia.
Qed.

Lemma created_angles agd acts decos :
  Forall numericHeading agd ->
  JS.index agd 0 <> JS.Num 999 ->
  forall n k s j t,
    (k + n <= List.length agd)%nat ->
    (k = 0%nat \/ numericHeading (_angleDir s)) ->
    nth_error (fst (JS.array_from_at (createTile (optOf agd acts decos)) n k s)) j
    = Some t ->
    angleWithinReach (direction t) (angle t) (twirl t).
Proof.
  intros Hall Hfirst. induction n as [|n IH]; intros k s j t Hlen Hs H.
  - destruct j; discriminate.
  - cbn [JS.array_from_at] in H. rewrite LevelFacts.createTile_eq in H.
    cbv zeta in H. cbn [optOf opt_angleData opt_actions opt_decorations] in H.
    set (c := _twirlCount s + twirlsAt acts (Z.of_nat k)) in *.
    assert (Hstep :
      (if JS.eqZ (JS.index agd (Z.of_nat k)) 999
       then fst (_parseAngle (_angleDir s) agd (Z.of_nat k) (Z.rem c 2)) = JS.Num 0
       else exists z,
           fst (_parseAngle (_angleDir s) agd (Z.of_nat k) (Z.rem c 2)) = JS.Num z
           /\ z <> 0
           /\ (if Z.rem c 2 =? 0 then -360 < z <= 360 else 0 < z < 720))
      /\ numericHeading
           (snd (_parseAngle (_angleDir s) agd (Z.of_nat k) (Z.rem c 2)))).
    { assert (Ha : exists a, Z.of_nat k = 0 \/ _angleDir s = JS.Num a).
      { destruct Hs as [->|[a Ha]]; [exists 0; left; reflexivity|].
        exists a. right. exact Ha. }
      destruct Ha as [a Ha].
      apply (parseAngle_numeric _ _ _ _ a Ha).
      - apply index_numeric; [exact Hall|lia].
      - intros E. rewrite E. exact Hfirst.
      - destruct (Nat.eq_dec k 0) as [->|Hk].
        + right. cbn [Z.of_nat].
          destruct (index_numeric agd 0 Hall ltac:(lia)) as [h Hh].
          rewrite Hh in *. cbn [JS.eqZ]. apply Z.eqb_neq. congruence.
        + left. apply index_numeric; [exact Hall|lia]. }
    destruct Hstep as [Hangle Hnum].
    match type of H with
    | context [JS.array_from_at ?f n (S k) ?s1] =>
        specialize (IH (S k) s1);
        destruct (JS.array_from_at f n (S k) s1) as [l s2]
    end.
    cbn [fst] in H, IH. destruct j as [|j]; cbn [nth_error] in H.
    + injection H as <-. unfold angleWithinReach. cbn [direction angle twirl].
      exact Hangle.
    + apply (IH j t); [lia| |exact H]. right. exact Hnum.
Qed.

(** X6.  When every loaded heading is a whole number of magnitude at most
    2^51 (fractions and larger numbers, on which the arithmetic of doubles
    rounds, are left out) and the first one is not the midspin sentinel,
    every midspin tile has relative angle 0 and every other tile has a
    relative angle that is a number and never 0: above -360 and at most 360
    while the Twirl count is even, above 0 and below 720 while it is odd. *)
Theorem relative_angle_is_never_zero_off_midspins :
  forall agd acts decos i t,
    Forall wholeHeading agd ->
    JS.index agd 0 <> JS.Num 999 ->
    nth_error (tilesOf agd acts decos) i = Some t ->
    angleWithinReach (direction t) (angle t) (twirl t).
Proof.
  intros agd acts decos i t Hall Hfirst H.
  assert (Hnum : Forall numericHeading agd).
  { apply (Forall_impl _ (P := wholeHeading)); [|exact Hall].
    intros v (z & -> & _). exists z. reflexivity. }
  rewrite LevelFacts.tilesOf_eq in H.
  apply (created_angles agd acts decos Hnum Hfirst (List.length agd) 0%nat
                        start i t); [lia|left; reflexivity|exact H].
Qed.

Lemma relative_angle_is_never_zero_off_midspins_witness :
  exists t,
    nth_error (tilesOf (nums [0; 270; 999; 270])
                       [twirlAt 3 (plainEvent "Twirl")] []) 3 = Some t
    /\ angleWithinReach (direction t) (angle t) (twirl t).
Proof.
  eexists. split; [reflexivity|].
  apply (relative_angle_is_never_zero_off_midspins
           (nums [0; 270; 999; 270]) [twirlAt 3 (plainEvent "Twirl")] [] 3%nat).
  - repeat constructor; eexists; (split; [reflexivity|cbn; lia]).
  - discriminate.
  - reflexivity.
Defined.

End TileFacts.


(** ** The position pass on every tile *)

Module PositionFacts.

Import Level.
Import LevelCases.
Import PositionCases.

Lemma replaceAt_length {A : Type} (l : list A) i a :
  List.length (replaceAt l i a) = List.length l.
Proof.
  revert i. induction l as [|b l IH]; intros [|i]; cbn; try reflexivity.
  rewrite IH. reflexivity.
Qed.

Lemma replaceAt_same {A : Type} (l : list A) i a :
  (i < List.length l)%nat -> nth_error (replaceAt l i a) i = Some a.
Proof.
  revert i. induction l as [|b l IH]; intros [|i] H; cbn in *; try lia.
  - reflexivity.
  - apply IH. lia.
Qed.

Lemma replaceAt_other {A : Type} (l : list A) i j a :
  i <> j -> nth_error (replaceAt l i a) j = nth_error l j.
Proof.
  revert i j. induction l as [|b l IH]; intros [|i] [|j] H; cbn;
    try reflexivity; try contradiction.
  apply IH. congruence.
Qed.

Section Pass.

Variables Math_cos Math_sin toFixed8 : float -> float.

Lemma coordinateStep_places floats before st m :
  List.length floats = List.length before ->
  placedUpTo floats before (snd st) m ->
  placedUpTo floats before
             (snd (coordinateStep Math_cos Math_sin toFixed8 floats st
                                  (Z.of_nat m)))
             (S m).
Proof.
  intros Hlen [Hl Hinv]. destruct st as [[sx sy] now]. cbn [snd] in *.
  unfold coordinateStep.
  match goal with
  | |- context [let '(a, b) := ?e in _] => destruct e as [sx' sy']
  end.
  unfold tileAt. destruct (Z.ltb_spec (Z.of_nat m) 0); [lia|].
  rewrite Nat2Z.id.
  destruct (nth_error now m) as [t|] eqn:E; cbn [snd].
  - assert (Hm : (m < List.length now)%nat) by (apply nth_error_Some; congruence).
    assert (Eb : nth_error before m = Some t)
      by (rewrite <- (proj2 (Hinv m) (le_n m)); exact E).
    split; [rewrite replaceAt_length; exact Hl|].
    intros j. split.
    + intros Hj t' Ht'. destruct (Nat.eq_dec j m) as [->|Hne].
      * rewrite Eb in Ht'. injection Ht' as <-.
        eexists. split; [apply replaceAt_same; exact Hm|].
        unfold recorded. cbn [angle1 angle2 cangle].
        destruct (Z.eqb_spec (Z.of_nat m) (Z.of_nat (List.length floats)));
          [lia|]. repeat split.
      * rewrite replaceAt_other by congruence.
        apply (proj1 (Hinv j)); [lia|exact Ht'].
    + intros Hj. rewrite replaceAt_other by lia. apply (proj2 (Hinv j)). lia.
  - split; [exact Hl|]. intros j. split.
    + intros Hj t' Ht'. destruct (Nat.eq_dec j m) as [->|Hne].
      * rewrite <- (proj2 (Hinv m) (le_n m)) in Ht'. congruence.
      * apply (proj1 (Hinv j)); [lia|exact Ht'].
    + intros Hj. apply (proj2 (Hinv j)). lia.
Qed.

Lemma coordinateSteps_place floats before k :
  List.length floats = List.length before ->
  forall m st,
    placedUpTo floats before (snd st) m ->
    placedUpTo floats before
               (snd (fold_left (coordinateStep Math_cos Math_sin toFixed8 floats)
                               (map Z.of_nat (seq m k)) st))
               (m + k).
Proof.
  intros Hlen. induction k as [|k IH]; intros m st H; cbn [seq map fold_left].
  - rewrite Nat.add_0_r. exact H.
  - replace (m + S k)%nat with (S m + k)%nat by lia.
    apply IH. apply coordinateStep_places; assumption.
Qed.

Lemma calculateTileCoordinates_some this a :
  angleData this = Some (AngleArray a) ->
  calculateTileCoordinates Math_cos Math_sin toFixed8 this
  = Some (setTiles this
            (snd (fold_left
                    (coordinateStep Math_cos Math_sin toFixed8
                                    (floatsOf a (List.length (tiles this))))
                    (map Z.of_nat
                         (seq 0 (S (List.length
                                      (floatsOf a (List.length (tiles this)))))))
                    (0%float, 0%float, tiles this)))
            (acc this)).
Proof.
  intros Ha. unfold calculateTileCoordinates. rewrite Ha.
  destruct (fold_left _ _ _) as [[sx sy] ts'].
  destruct (List.length (tiles this)); reflexivity.
Qed.

Lemma position_pass_exit this a :
  angleData this = Some (AngleArray a) ->
  exists s',
    calculateTileCoordinates Math_cos Math_sin toFixed8 this = Some s'
    /\ placedUpTo (floatsOf a (List.length (tiles this))) (tiles this)
                  (tiles s') (S (List.length (tiles this))).
Proof.
  intros Ha. rewrite (calculateTileCoordinates_some this a Ha).
  set (floats := floatsOf a (List.length (tiles this))).
  assert (Hlen : List.length floats = List.length (tiles this))
    by (unfold floats, floatsOf; rewrite length_map, length_seq; reflexivity).
  pose proof (coordinateSteps_place floats (tiles this) (S (List.length floats))
                Hlen 0%nat (0%float, 0%float, tiles this)) as H.
  cbn [snd] in H.
  specialize (H ltac:(split; [reflexivity|]; intros j; split;
                      [lia|reflexivity])).
  eexists. split; [reflexivity|]. cbn [tiles setTiles].
  rewrite <- Hlen. exact H.
Qed.


End Pass.


End PositionFacts.


(** ** Floor operations *)

Module EditFacts.

Import Level.
Import LevelCases.
Import TilesCases.
Import EditCases.

Lemma changeAngle_from_shape ts : forall y d,
  shape (fst (changeAngle_from y d ts)) = shape ts.
Proof.
  induction ts as [|t ts IH]; intros y d; cbn [changeAngle_from].
  - reflexivity.
  - destruct (_parsechangedAngle _ _ _ _ _) as [a d1].
    specialize (IH (y + 1) d1).
    destruct (changeAngle_from (y + 1) d1 ts) as [l d2].
    cbn [fst shape map] in *. rewrite IH. reflexivity.
Qed.

Lemma changeAngle_shape this : shape (tiles (_changeAngle this)) = shape (tiles this).
Proof.
  unfold _changeAngle.
  pose proof (changeAngle_from_shape (tiles this) 0 (_angleDir (acc this))) as H.
  destruct (changeAngle_from 0 (_angleDir (acc this)) (tiles this)) as [ts d].
  exact H.
Qed.

Lemma shape_app a b : shape (a ++ b) = shape a ++ shape b.
Proof. apply map_app. Qed.

Lemma tileAt_last_none ts :
  tileAt ts (Z.of_nat (List.length ts) - 1) = None <-> ts = [].
Proof.
  unfold tileAt. split.
  - intros H. destruct ts as [|t ts]; [reflexivity|].
    destruct (Z.ltb_spec (Z.of_nat (List.length (t :: ts)) - 1) 0) as [Hl|Hl].
    + cbn [List.length] in Hl. lia.
    + apply nth_error_None in H. cbn [List.length] in H. lia.
  - intros ->. reflexivity.
Qed.

Lemma append_throws this d :
  floorOperation this (appendOf d) = None <-> tiles this = [].
Proof.
  unfold floorOperation, appendOf, appendFloor. cbn [type info_direction].
  rewrite <- tileAt_last_none.
  destruct (tileAt (tiles this) (Z.of_nat (List.length (tiles this)) - 1));
    cbn [option_map]; split; congruence.
Qed.

Lemma append_shape this d s' :
  floorOperation this (appendOf d) = Some s' ->
  shape (tiles s') = shape (tiles this) ++ [blank d].
Proof.
  unfold floorOperation, appendOf, appendFloor. cbn [type info_direction].
  destruct (tileAt (tiles this) (Z.of_nat (List.length (tiles this)) - 1))
    as [lastTile|]; cbn [option_map]; [|discriminate].
  intros Hs. injection Hs as <-.
  rewrite !changeAngle_shape. cbn [tiles setTiles].
  rewrite shape_app. reflexivity.
Qed.

(** X8.  [floorOperation] with type ['append'] throws on a level without
    tiles; otherwise it adds one tile after the last one, with the given
    heading and without actions or decorations, and leaves heading, actions
    and decorations of all tiles that were there as they are. *)
Theorem append_adds_a_blank_last_tile :
  forall this d,
    (floorOperation this (appendOf d) = None <-> tiles this = [])
    /\ forall s',
        floorOperation this (appendOf d) = Some s' ->
        shape (tiles s') = shape (tiles this) ++ [blank d].
Proof.
  intros this d. split.
  - apply append_throws.
  - intros s'. apply append_shape.
Qed.

Lemma append_adds_a_blank_last_tile_witness :
  exists s',
    floorOperation (loaded (nums [0; 90]) [] []) (appendOf (JS.Num 180)) = Some s'
    /\ shape (tiles s')
       = shape (tiles (loaded (nums [0; 90]) [] [])) ++ [blank (JS.Num 180)].
Proof.
  eexists. split; [reflexivity|].
  exact (proj2 (append_adds_a_blank_last_tile
                  (loaded (nums [0; 90]) [] []) (JS.Num 180)) _ eq_refl).
Defined.

Lemma tileAt_none ts i :
  tileAt ts i = None <-> i < 0 \/ Z.of_nat (List.length ts) <= i.
Proof.
  unfold tileAt. destruct (Z.ltb_spec i 0) as [H|H].
  - split; [left; exact H|reflexivity].
  - rewrite nth_error_None. lia.
Qed.

Lemma shape_firstn k ts : shape (firstn k ts) = firstn k (shape ts).
Proof. unfold shape. symmetry. apply firstn_map. Qed.

Lemma shape_skipn k ts : shape (skipn k ts) = skipn k (shape ts).
Proof. unfold shape. symmetry. apply skipn_map. Qed.

(** X9.  [floorOperation] with type ['insert'] throws unless
    [1 <= id <= tiles.length] (there must be a tile before the new one);
    otherwise the new tile, with the given heading and without actions or
    decorations, stands at index [id], the tiles before it keep their index
    and the tiles from [id] on move up by one. *)
Theorem insert_puts_a_blank_tile_at_id :
  forall this i d,
    (floorOperation this (insertOf i d) = None
     <-> ~ (1 <= i <= Z.of_nat (List.length (tiles this))))
    /\ forall s',
        floorOperation this (insertOf i d) = Some s' ->
        shape (tiles s')
        = firstn (Z.to_nat i) (shape (tiles this))
          ++ blank d :: skipn (Z.to_nat i) (shape (tiles this)).
Proof.
  intros this i d. unfold floorOperation, insertOf. cbn [type id info_direction].
  destruct (tileAt (tiles this) (i - 1)) as [before|] eqn:E.
  - assert (Hr : 1 <= i <= Z.of_nat (List.length (tiles this))).
    { destruct (Z.le_gt_cases 1 i) as [H1|H1];
        [destruct (Z.le_gt_cases i (Z.of_nat (List.length (tiles this)))) as [H2|H2]|].
      - lia.
      - assert (tileAt (tiles this) (i - 1) = None)
          by (apply tileAt_none; lia). congruence.
      - assert (tileAt (tiles this) (i - 1) = None)
          by (apply tileAt_none; lia). congruence. }
    split.
    + split; [discriminate|]. intros H. contradiction.
    + intros s' Hs. injection Hs as <-.
      rewrite changeAngle_shape. cbn [tiles setTiles].
      unfold spliceStart. destruct (Z.ltb_spec i 0); [lia|].
      rewrite Nat.min_l by lia.
      rewrite shape_app, shape_firstn. cbn [shape map newTile direction actions
                                            addDecorations].
      fold (shape (skipn (Z.to_nat i) (tiles this))).
      rewrite shape_skipn. reflexivity.
  - split.
    + split; [|reflexivity]. intros _ Hr. apply tileAt_none in E. lia.
    + discriminate.
Qed.

Lemma insert_puts_a_blank_tile_at_id_witness :
  exists s',
    floorOperation (loaded (nums [0; 90]) [] []) (insertOf 1 (JS.Num 45)) = Some s'
    /\ map fst (map fst (shape (tiles s'))) = nums [0; 45; 90].
Proof.
  eexists. split; [reflexivity|].
  rewrite (proj2 (insert_puts_a_blank_tile_at_id
                    (loaded (nums [0; 90]) [] []) 1 (JS.Num 45)) _ eq_refl).
  reflexivity.
Defined.

(** X10.  On a level object whose [tiles] have been assigned (by a [load]
    that had an object to read, and by whatever edits followed),
    [floorOperation] with type ['delete'] never throws.  For
    [0 <= id < tiles.length] it removes the tile [id]; for an [id] at or
    past the end it removes nothing; a negative [id] counts from the end
    ([-1] removes the last tile), and one below [-tiles.length] removes the
    first tile.  Heading, actions and decorations of the remaining tiles are
    unchanged. *)
Theorem delete_removes_the_tile_at_id :
  forall this i,
    tilesAssigned this ->
    exists s',
      floorOperation this (deleteOf i) = Some s'
      /\ let n := Z.of_nat (List.length (tiles this)) in
         let k := if i <? 0 then Z.to_nat (Z.max (n + i) 0) else Z.to_nat i in
         shape (tiles s')
         = firstn k (shape (tiles this)) ++ skipn (S k) (shape (tiles this))
         /\ (n <= i -> shape (tiles s') = shape (tiles this)).
Proof.
  intros this i _. unfold floorOperation, deleteOf. cbn [type id].
  eexists. split; [reflexivity|]. cbv zeta.
  rewrite changeAngle_shape. cbn [tiles setTiles].
  rewrite shape_app, shape_firstn, shape_skipn.
  unfold spliceStart.
  destruct (Z.ltb_spec i 0) as [Hi|Hi].
  - split; [reflexivity|]. intros; lia.
  - destruct (Nat.le_gt_cases (Z.to_nat i) (List.length (tiles this))) as [Hk|Hk].
    + rewrite Nat.min_l by exact Hk. split; [reflexivity|].
      intros Hn. assert (Z.to_nat i = List.length (tiles this)) as -> by lia.
      unfold shape. rewrite <- (length_map (fun t => (direction t, actions t, addDecorations t))).
      rewrite firstn_all, skipn_all2 by lia. apply app_nil_r.
    + rewrite Nat.min_r by lia.
      assert (Hall : forall m, (List.length (shape (tiles this)) <= m)%nat ->
                firstn m (shape (tiles this)) ++ skipn (S m) (shape (tiles this))
                = shape (tiles this)).
      { intros m Hm. rewrite firstn_all2, skipn_all2 by lia. apply app_nil_r. }
      assert (Hlen : List.length (shape (tiles this)) = List.length (tiles this))
        by apply length_map.
      rewrite !Hall by lia. split; [reflexivity|]. reflexivity.
Qed.

Lemma delete_removes_the_tile_at_id_witness :
  exists s',
    floorOperation (loaded (nums [0; 90; 180]) [] []) (deleteOf (-1)) = Some s'
    /\ shape (tiles s') = [blank (JS.Num 0); blank (JS.Num 90)].
Proof.
  destruct (delete_removes_the_tile_at_id
              (loaded (nums [0; 90; 180]) [] []) (-1)
              (assigned_load (fun _ => None)
                 (OptObject (levelFile (nums [0; 90; 180]) [] []))
                 (levelFile (nums [0; 90; 180]) [] []) fresh eq_refl))
    as (s' & Hs & Hshape & _).
  exists s'. split; [exact Hs|]. rewrite Hshape. reflexivity.
Defined.

Lemma floorOperation_keeps_angleData this info s' :
  floorOperation this info = Some s' -> angleData s' = angleData this.
Proof.
  unfold floorOperation, appendFloor, _changeAngle.
  destruct (type info).
  - destruct (tileAt _ _); [|discriminate]. cbn [option_map tiles setTiles acc].
    repeat match goal with
           | |- context [changeAngle_from ?y ?d ?l] =>
               destruct (changeAngle_from y d l)
           end.
    intros H. injection H as <-. reflexivity.
  - destruct (tileAt _ _); [|discriminate]. cbn [tiles setTiles acc].
    destruct (changeAngle_from _ _ _). intros H. injection H as <-. reflexivity.
  - cbn [tiles setTiles acc].
    destruct (changeAngle_from _ _ _). intros H. injection H as <-. reflexivity.
  - intros H. injection H as <-. reflexivity.
Qed.

Lemma loaded_angleData agd acts decos :
  angleData (loaded agd acts decos) = Some (AngleArray agd).
Proof.
  unfold loaded, load, levelFile. cbn -[createArrayOf].
  match goal with
  | |- context [createArrayOf ?a ?x ?y ?s] =>
      destruct (LevelFacts.createArrayOf_arrays a acts decos s)
        as (e & s' & ->)
  end.
  reflexivity.
Qed.

Lemma floatsOf_index a n j :
  (j < n)%nat ->
  JS.index (floatsOf a n) (Z.of_nat j)
  = if JS.eqZ (JS.index a (Z.of_nat j)) 999
    then JS.add (JS.index a (Z.of_nat j - 1)) (JS.Num 180)
    else JS.index a (Z.of_nat j).
Proof.
  intros Hj. unfold JS.index at 1.
  destruct (Z.ltb_spec (Z.of_nat j) 0); [lia|]. rewrite Nat2Z.id.
  unfold floatsOf. rewrite nth_error_map, nth_error_seq.
  destruct (Nat.ltb_spec j n); [|lia]. reflexivity.
Qed.

Lemma parsechangedAngle_plain d agd i l :
  i <> 0 ->
  JS.eqZ agd 999 = false ->
  _parsechangedAngle d agd i 0 l
  = ((let prev := JS.rem (JS.sub d agd) 360 in
      if JS.eqZ prev 0 then JS.Num 360 else prev),
     JS.add agd (JS.Num 180)).
Proof.
  intros Hi Hm. unfold _parsechangedAngle. rewrite Hm.
  destruct (Z.eqb_spec i 0); [contradiction|]. reflexivity.
Qed.

(** In the list that [_changeAngle] returns, a tile that follows another one,
    both without midspin and the second with Twirl count 0, gets the turn
    between the two headings. *)
Lemma changeAngle_from_turn ts : forall y d j tp t t',
  0 <= y ->
  nth_error ts j = Some tp ->
  nth_error ts (S j) = Some t ->
  nth_error (fst (changeAngle_from y d ts)) (S j) = Some t' ->
  JS.eqZ (direction tp) 999 = false ->
  JS.eqZ (direction t) 999 = false ->
  twirl tp = 0 ->
  twirl t = 0 ->
  angle t' = turn (direction tp) (direction t).
Proof.
  induction ts as [|t0 ts IH]; intros y d j tp t t' Hy Hp Ht Hr Mp Mt Tp Tt.
  - destruct j; discriminate.
  - cbn [changeAngle_from] in Hr.
    destruct j as [|j].
    + cbn [nth_error] in Hp, Ht. injection Hp as ->.
      rewrite Tp in Hr.
      rewrite parsechangedAngle_plain in Hr; [|lia|exact Mp].
      destruct ts as [|t1 ts]; [discriminate|].
      cbn [nth_error] in Ht. injection Ht as ->.
      cbn [changeAngle_from] in Hr. rewrite Tt in Hr.
      rewrite parsechangedAngle_plain in Hr; [|lia|exact Mt].
      destruct (changeAngle_from (y + 1 + 1) _ ts) as [l d2].
      cbn [fst nth_error] in Hr. injection Hr as <-. reflexivity.
    + destruct (_parsechangedAngle d (direction t0) (y + 1) (twirl t0) (_lastdir t0))
        as [a d1].
      cbn [nth_error] in Hp, Ht.
      specialize (IH (y + 1) d1 j tp t t' ltac:(lia) Hp Ht).
      destruct (changeAngle_from (y + 1) d1 ts) as [l d2].
      cbn [fst nth_error] in Hr, IH. apply IH; assumption.
Qed.

Lemma changeAngle_from_nth ts : forall y d j t',
  nth_error (fst (changeAngle_from y d ts)) j = Some t' ->
  exists t a, nth_error ts j = Some t /\ t' = setAngle t a.
Proof.
  induction ts as [|t0 ts IH]; intros y d j t' H; cbn [changeAngle_from] in H.
  - destruct j; discriminate.
  - destruct (_parsechangedAngle _ _ _ _ _) as [a d1].
    specialize (IH (y + 1) d1).
    destruct (changeAngle_from (y + 1) d1 ts) as [l d2].
    cbn [fst] in *. destruct j as [|j]; cbn [nth_error] in *.
    + injection H as <-. exists t0, a. split; reflexivity.
    + apply IH. exact H.
Qed.

Lemma no_twirls_on_floor acts i :
  Forall (fun a => isTwirlEvent (rest a) = false) acts -> twirlsAt acts i = 0.
Proof.
  intros H. unfold twirlsAt.
  induction H as [|a l Ha _ IH]; [reflexivity|].
  cbn [filter]. destruct (floor a =? i); [|exact IH].
  cbn [filter]. rewrite Ha. exact IH.
Qed.

(** In a list that [_createArray] builds from actions without any Twirl, a
    tile that follows another one, both without midspin, gets the turn
    between the two headings. *)
Lemma created_turn opt :
  Forall (fun a => isTwirlEvent (rest a) = false) (opt_actions opt) ->
  forall n k s j t',
    _twirlCount s = 0 ->
    nth_error (fst (JS.array_from_at (createTile opt) n k s)) (S j) = Some t' ->
    JS.eqZ (JS.index (opt_angleData opt) (Z.of_nat (k + j))) 999 = false ->
    JS.eqZ (JS.index (opt_angleData opt) (Z.of_nat (k + S j))) 999 = false ->
    angle t' = turn (JS.index (opt_angleData opt) (Z.of_nat (k + j)))
                    (JS.index (opt_angleData opt) (Z.of_nat (k + S j))).
Proof.
  intros Hno. induction n as [|n IH]; intros k s j t' Hs H M0 M1.
  - discriminate.
  - cbn [JS.array_from_at] in H. rewrite LevelFacts.createTile_eq in H.
    cbv zeta in H. rewrite (no_twirls_on_floor _ _ Hno), Hs in H.
    change (Z.rem (0 + 0) 2) with 0 in H. change (0 + 0) with 0 in H.
    destruct j as [|j].
    + rewrite Nat.add_0_r in M0.
      destruct n as [|n]; [discriminate|].
      cbn [JS.array_from_at] in H. rewrite LevelFacts.createTile_eq in H.
      cbv zeta in H. cbn [_twirlCount _angleDir] in H.
      rewrite (no_twirls_on_floor _ _ Hno) in H.
      change (Z.rem (0 + 0) 2) with 0 in H. change (0 + 0) with 0 in H.
      destruct (JS.array_from_at (createTile opt) n (S (S k)) _) as [l s2].
      cbn [fst nth_error] in H. injection H as <-. cbn [angle].
      replace (k + 1)%nat with (S k) in M1 |- * by lia.
      unfold _parseAngle.
      change (Z.pos (Pos.of_succ_nat k)) with (Z.of_nat (S k)).
      rewrite M0, M1.
      destruct (Z.eqb_spec (Z.of_nat (S k)) 0); [lia|].
      cbn [snd fst Z.eqb]. unfold turn. rewrite Nat.add_0_r. reflexivity.
    + match type of H with
      | context [JS.array_from_at ?f (S n) (S k) ?s1] =>
          specialize (IH (S k) s1 j t' eq_refl);
          destruct (JS.array_from_at f (S n) (S k) s1) as [l s2]
      | context [JS.array_from_at ?f n (S k) ?s1] =>
          specialize (IH (S k) s1 j t' eq_refl);
          destruct (JS.array_from_at f n (S k) s1) as [l s2]
      end.
      cbn [fst nth_error] in H, IH.
      replace (k + S j)%nat with (S k + j)%nat by lia.
      replace (k + S (S j))%nat with (S k + S j)%nat by lia.
      apply IH; [exact H| |].
      * replace (S k + j)%nat with (k + S j)%nat by lia. exact M0.
      * replace (S k + S j)%nat with (k + S (S j))%nat by lia. exact M1.
Qed.

Lemma floorOperation_replays this info s' :
  floorOperation this info = Some s' ->
  type info <> otherOp ->
  exists x, s' = _changeAngle x.
Proof.
  unfold floorOperation, appendFloor. intros H Hty.
  destruct (type info); [| | |contradiction].
  - destruct (tileAt _ _); [|discriminate]. cbn [option_map] in H.
    injection H as <-. eexists. reflexivity.
  - destruct (tileAt _ _); [|discriminate].
    injection H as <-. eexists. reflexivity.
  - injection H as <-. eexists. reflexivity.
Qed.

Lemma flattened_actions_untwirled ts : forall k,
  Forall untwirled ts ->
  Forall (fun a => isTwirlEvent (rest a) = false)
         (flat_map (fun ia => map (fun a => {| floor := fst ia; rest := a |})
                                  (actions (snd ia)))
                   (indexed_from k ts)).
Proof.
  induction ts as [|t ts IH]; intros k H; cbn [indexed_from flat_map].
  - constructor.
  - inversion H as [|? ? (_ & _ & Ht) Hts]; subst.
    apply Forall_app. split.
    + cbn [fst snd]. apply Forall_forall. intros a Ha.
      apply in_map_iff in Ha. destruct Ha as (e & <- & He).
      cbn [rest]. rewrite Forall_forall in Ht. apply Ht. exact He.
    + apply IH. exact Hts.
Qed.

Lemma index_direction ts j t :
  nth_error ts j = Some t ->
  JS.index (_flattenAngleDatas ts) (Z.of_nat j) = direction t.
Proof.
  intros H. unfold JS.index, _flattenAngleDatas.
  destruct (Z.ltb_spec (Z.of_nat j) 0); [lia|].
  rewrite Nat2Z.id, nth_error_map, H. reflexivity.
Qed.

(** X11.  After an append, insert or delete on a level in which no tile is a
    midspin, carries a Twirl or has a Twirl count other than 0, every tile
    but the first has the relative angle that loading the edited level would
    give it. *)
Theorem replay_agrees_with_rebuild_after_tile_0 :
  forall this info s',
    floorOperation this info = Some s' ->
    type info <> otherOp ->
    Forall untwirled (tiles s') ->
    forall j t,
      nth_error (tiles s') (S j) = Some t ->
      exists t', nth_error (rebuild (tiles s')) (S j) = Some t'
                 /\ angle t = angle t'.
Proof.
  intros this info s' Hs Hty Hu j t Ht.
  destruct (floorOperation_replays _ _ _ Hs Hty) as (x & ->).
  assert (Hp : exists tp, nth_error (tiles (_changeAngle x)) j = Some tp).
  { destruct (nth_error (tiles (_changeAngle x)) j) as [tp|] eqn:E;
      [eexists; reflexivity|].
    apply nth_error_None in E.
    assert (nth_error (tiles (_changeAngle x)) (S j) <> None) by congruence.
    apply nth_error_Some in H. lia. }
  destruct Hp as (tp & Hp).
  pose proof (proj1 (Forall_forall _ _) Hu _ (nth_error_In _ _ Ht)) as (Mt & Tt & _).
  pose proof (proj1 (Forall_forall _ _) Hu _ (nth_error_In _ _ Hp)) as (Mp & Tp & _).
  assert (Ha : angle t = turn (direction tp) (direction t)).
  { revert Ht Hp. unfold _changeAngle.
    pose proof (changeAngle_from_turn (tiles x) 0 (_angleDir (acc x)) j) as Hturn.
    pose proof (changeAngle_from_nth (tiles x) 0 (_angleDir (acc x))) as Hnth.
    destruct (changeAngle_from 0 (_angleDir (acc x)) (tiles x)) as [ts d].
    cbn [tiles setTiles fst] in *. intros Ht Hp.
    destruct (Hnth _ _ Ht) as (u & a & Hu1 & ->).
    destruct (Hnth _ _ Hp) as (up & ap & Hup & ->).
    cbn [setAngle direction twirl] in *.
    apply (Hturn up u _ (Z.le_refl 0) Hup Hu1 Ht); assumption. }
  assert (Hlen : (S j < List.length (tiles (_changeAngle x)))%nat)
    by (apply nth_error_Some; congruence).
  unfold rebuild, _createArray, JS.array_from.
  set (opt := {| opt_angleData := _flattenAngleDatas (tiles (_changeAngle x));
                 opt_actions := _flattenActionsWithFloor (tiles (_changeAngle x));
                 opt_decorations :=
                   _flattenDecorationsWithFloor (tiles (_changeAngle x)) |}).
  destruct (nth_error
              (fst (JS.array_from_at (createTile opt)
                      (List.length (tiles (_changeAngle x))) 0
                      {| _angleDir := JS.Num (-180); _twirlCount := 0 |}))
              (S j)) as [t'|] eqn:E.
  - exists t'. split; [reflexivity|]. rewrite Ha.
    symmetry.
    pose proof (created_turn opt
                  (flattened_actions_untwirled _ 0 Hu) _ 0%nat
                  {| _angleDir := JS.Num (-180); _twirlCount := 0 |} j t'
                  eq_refl E)
      as Hc.
    cbn [Nat.add opt opt_angleData] in Hc.
    rewrite (index_direction _ _ _ Hp), (index_direction _ _ _ Ht) in Hc.
    apply Hc; assumption.
  - apply nth_error_None in E.
    rewrite ExportFacts.array_from_at_length in E. lia.
Qed.

Lemma replay_agrees_with_rebuild_after_tile_0_witness :
  exists s' t t',
    floorOperation (loaded (nums [0; 90; 45]) [] []) (insertOf 1 (JS.Num 180))
    = Some s'
    /\ nth_error (tiles s') 1 = Some t
    /\ nth_error (rebuild (tiles s')) 1 = Some t'
    /\ angle t = angle t'.
Proof.
  eexists. eexists.
  destruct (replay_agrees_with_rebuild_after_tile_0
              (loaded (nums [0; 90; 45]) [] []) (insertOf 1 (JS.Num 180)) _
              eq_refl ltac:(discriminate)
              ltac:(vm_compute; repeat constructor) 0%nat _ eq_refl)
    as (t' & H1 & H2).
  exists t'. split; [reflexivity|]. split; [reflexivity|]. split; assumption.
Defined.

(** *** The first tile after an append *)

Lemma parsechangedAngle_exit d agd i tw l :
  JS.eqZ agd 999 = false ->
  snd (_parsechangedAngle d agd i tw l) = JS.add agd (JS.Num 180).
Proof.
  intros H. unfold _parsechangedAngle. rewrite H.
  destruct (i =? 0), (tw =? 0); reflexivity.
Qed.

(** The [_angleDir] that a pass of [_changeAngle] leaves behind is the
    heading of the last tile plus 180. *)
Lemma changeAngle_from_exit ts : forall y d0 t,
  JS.eqZ (direction t) 999 = false ->
  snd (changeAngle_from y d0 (ts ++ [t])) = JS.add (direction t) (JS.Num 180).
Proof.
  induction ts as [|t1 ts IH]; intros y d0 t H; cbn [app changeAngle_from].
  - pose proof (parsechangedAngle_exit d0 (direction t) (y + 1) (twirl t)
                                       (_lastdir t) H) as E.
    destruct (_parsechangedAngle d0 (direction t) (y + 1) (twirl t) (_lastdir t))
      as [a d1].
    cbn [snd] in *. exact E.
  - destruct (_parsechangedAngle d0 (direction t1) (y + 1) (twirl t1)
                                 (_lastdir t1)) as [a d1].
    specialize (IH (y + 1) d1 t H).
    destruct (changeAngle_from (y + 1) d1 (ts ++ [t])) as [l d2].
    exact IH.
Qed.

Lemma changeAngle_from_head t0 ts y d0 :
  exists rest,
    fst (changeAngle_from y d0 (t0 :: ts))
    = setAngle t0 (fst (_parsechangedAngle d0 (direction t0) (y + 1) (twirl t0)
                                           (_lastdir t0)))
      :: rest.
Proof.
  cbn [changeAngle_from].
  destruct (_parsechangedAngle d0 (direction t0) (y + 1) (twirl t0) (_lastdir t0))
    as [a d1].
  destruct (changeAngle_from (y + 1) d1 ts) as [l d2].
  exists l. reflexivity.
Qed.

Lemma changeAngle_from_last ts : forall y d0 t,
  exists l a,
    fst (changeAngle_from y d0 (ts ++ [t])) = l ++ [setAngle t a].
Proof.
  induction ts as [|t1 ts IH]; intros y d0 t; cbn [app changeAngle_from].
  - destruct (_parsechangedAngle d0 (direction t) (y + 1) (twirl t) (_lastdir t))
      as [a d1].
    exists [], a. reflexivity.
  - destruct (_parsechangedAngle d0 (direction t1) (y + 1) (twirl t1)
                                 (_lastdir t1)) as [a d1].
    destruct (IH (y + 1) d1 t) as (l & a' & E).
    destruct (changeAngle_from (y + 1) d1 (ts ++ [t])) as [l' d2].
    cbn [fst] in *. rewrite E. exists (setAngle t1 a :: l), a'. reflexivity.
Qed.

(** X12.  The replay after an append measures the first tile against the
    tile that was just appended, as if the track were closed: when neither
    the first tile nor the new heading [d] is a midspin and the first tile
    has Twirl count 0, the first tile ends up with the relative angle of a
    tile of its heading that follows a tile of heading [d]. *)
Theorem append_measures_the_first_tile_against_the_new_one :
  forall this d s' t0,
    floorOperation this (appendOf d) = Some s' ->
    nth_error (tiles this) 0 = Some t0 ->
    JS.eqZ (direction t0) 999 = false ->
    twirl t0 = 0 ->
    JS.eqZ d 999 = false ->
    exists t0',
      nth_error (tiles s') 0 = Some t0'
      /\ direction t0' = direction t0
      /\ angle t0' = turn d (direction t0).
Proof.
  intros this d s' t0 Hs H0 M0 T0 Md.
  unfold floorOperation, appendOf, appendFloor in Hs.
  cbn [type info_direction] in Hs.
  destruct (tileAt (tiles this) (Z.of_nat (List.length (tiles this)) - 1))
    as [lastTile|]; cbn [option_map] in Hs; [|discriminate].
  injection Hs as <-.
  destruct (tiles this) as [|t ts] eqn:Et; [discriminate|].
  cbn [nth_error] in H0. injection H0 as ->.
  set (new := newTile d lastTile).
  change ((t0 :: ts) ++ [new]) with (t0 :: (ts ++ [new])).
  pose proof (changeAngle_from_exit (t0 :: ts) 0 (_angleDir (acc this)) new Md)
    as Hexit.
  change ((t0 :: ts) ++ [new]) with (t0 :: (ts ++ [new])) in Hexit.
  destruct (changeAngle_from_head t0 (ts ++ [new]) 0 (_angleDir (acc this)))
    as (rest1 & Hhead).
  unfold _changeAngle. cbn [tiles setTiles acc].
  (* the first pass *)
  destruct (changeAngle_from 0 (_angleDir (acc this)) (t0 :: ts ++ [new]))
    as [l1 d1].
  cbn [fst snd] in Hexit, Hhead. subst l1 d1.
  cbn [tiles setTiles acc _angleDir].
  (* the second pass *)
  match goal with
  | |- context [changeAngle_from 0 ?dd (?h :: rest1)] =>
      destruct (changeAngle_from_head h rest1 0 dd) as (rest2 & Hhead2);
      destruct (changeAngle_from 0 dd (h :: rest1)) as [l2 d2]
  end.
  cbn [fst] in Hhead2. subst l2. cbn [tiles setTiles nth_error].
  eexists. split; [reflexivity|].
  cbn [setAngle direction angle twirl _lastdir]. split; [reflexivity|].
  rewrite T0. rewrite parsechangedAngle_plain by (try lia; exact M0).
  reflexivity.
Qed.

Lemma append_measures_the_first_tile_against_the_new_one_witness :
  exists s' t0',
    floorOperation (loaded (nums [90]) [] []) (appendOf (JS.Num 90)) = Some s'
    /\ nth_error (tiles s') 0 = Some t0'
    /\ angle t0' = JS.Num 180.
Proof.
  eexists.
  destruct (append_measures_the_first_tile_against_the_new_one
              (loaded (nums [90]) [] []) (JS.Num 90) _ _
              eq_refl eq_refl eq_refl eq_refl eq_refl)
    as (t0' & H1 & _ & H2).
  exists t0'. split; [reflexivity|]. split; [exact H1|exact H2].
Defined.

Section AfterAnEdit.

Variables Math_cos Math_sin toFixed8 : float -> float.

(** X13.  Floor operations do not update [this.angleData], and the position
    pass reads the headings from there: after a tile with any heading [d] has
    been appended to a loaded level, the position pass still succeeds, but it
    finds no heading for the new tile and places it with [angle1 = 0] and an
    undefined [cangle]. *)
Theorem appended_tile_is_placed_with_heading_zero :
  forall agd acts decos d s',
    floorOperation (loaded agd acts decos) (appendOf d) = Some s' ->
    exists s'' t p,
      calculateTileCoordinates Math_cos Math_sin toFixed8 s' = Some s''
      /\ nth_error (tiles s'') (List.length agd) = Some t
      /\ direction t = d
      /\ position t = Some p
      /\ Level.angle1 p = 0
      /\ cangle p = JS.Undefined.
Proof.
  intros agd acts decos d s' Hs.
  pose proof (floorOperation_keeps_angleData _ _ _ Hs) as Ha.
  rewrite loaded_angleData in Ha.
  pose proof (append_shape _ d s' Hs) as Hshape.
  assert (Hlen0 : List.length (tiles (loaded agd acts decos)) = List.length agd)
    by apply ExportFacts.tilesOf_length.
  assert (Hlen : List.length (tiles s') = S (List.length agd)).
  { assert (H : List.length (shape (tiles s'))
                = List.length (shape (tiles (loaded agd acts decos)) ++ [blank d]))
      by (rewrite Hshape; reflexivity).
    unfold shape in H. rewrite length_app, !length_map in H.
    cbn [List.length] in H. lia. }
  assert (Hnew : exists t, nth_error (tiles s') (List.length agd) = Some t
                           /\ direction t = d).
  { destruct (nth_error (tiles s') (List.length agd)) as [t|] eqn:E.
    - exists t. split; [reflexivity|].
      assert (H : nth_error (shape (tiles s')) (List.length agd)
                  = Some (direction t, actions t, addDecorations t))
        by (unfold shape; rewrite nth_error_map, E; reflexivity).
      rewrite Hshape in H.
      rewrite nth_error_app2 in H by (unfold shape; rewrite length_map; lia).
      unfold shape in H. rewrite length_map, Hlen0, Nat.sub_diag in H.
      cbn [nth_error] in H. unfold blank in H. congruence.
    - apply nth_error_None in E. lia. }
  destruct Hnew as (t & Ht & Hd).
  destruct (PositionFacts.position_pass_exit
              Math_cos Math_sin toFixed8 s' agd Ha)
    as (s'' & Hcalc & _ & Hall).
  destruct (proj1 (Hall (List.length agd)) ltac:(lia) _ Ht)
    as (p & Hp & H1 & _ & H3).
  exists s'', (setPosition t p), p.
  split; [exact Hcalc|]. split; [exact Hp|]. split; [exact Hd|].
  split; [reflexivity|].
  rewrite Hlen in H1, H3.
  rewrite floatsOf_index in H1, H3 by lia.
  assert (Hu : JS.index agd (Z.of_nat (List.length agd)) = JS.Undefined).
  { unfold JS.index. destruct (Z.ltb_spec (Z.of_nat (List.length agd)) 0); [lia|].
    rewrite Nat2Z.id.
    rewrite (proj2 (nth_error_None agd (List.length agd)) (le_n _)).
    reflexivity. }
  rewrite Hu in H1, H3. cbn in H1, H3. split; assumption.
Qed.

End AfterAnEdit.

Lemma appended_tile_is_placed_with_heading_zero_witness :
  exists s'' t p,
    calculateTileCoordinates
      (fun v => v) (fun v => v) (fun v => v)
      (match floorOperation (loaded (nums [0; 90]) [] []) (appendOf (JS.Num 180))
       with Some s' => s' | None => fresh end) = Some s''
    /\ nth_error (tiles s'') 2 = Some t
    /\ direction t = JS.Num 180
    /\ position t = Some p
    /\ Level.angle1 p = 0
    /\ cangle p = JS.Undefined.
Proof.
  exact (appended_tile_is_placed_with_heading_zero
           (fun v => v) (fun v => v) (fun v => v)
           (nums [0; 90]) [] [] (JS.Num 180) _ eq_refl).
Defined.

End EditFacts.

(** ** Levels given by a path code *)

Module PathFacts.

Import Level.
Import LevelCases.








End PathFacts.

(** ** What the repair pass leaves alone *)

Module RepairFacts.

Import Parser.
Import RepairCases.

Lemma thinned_refl s : thinned s s.
Proof. split; [reflexivity|lia]. Qed.

Lemma thinned_trans s t u : thinned s t -> thinned t u -> thinned s u.
Proof. intros [H1 L1] [H2 L2]. split; [congruence|lia]. Qed.

Lemma thinned_keep c s t : thinned s t -> thinned (c :: s) (c :: t).
Proof.
  intros [H L]. split.
  - unfold skeleton in *. cbn [filter]. rewrite H. reflexivity.
  - cbn [List.length]. lia.
Qed.

Lemma thinned_drop c s t :
  isFiller c = true -> thinned s t -> thinned (c :: s) t.
Proof.
  intros Hc [H L]. split.
  - unfold skeleton in *. cbn [filter]. rewrite Hc. exact H.
  - cbn [List.length]. lia.
Qed.

Lemma thinned_app p q s t :
  thinned p q -> thinned s t -> thinned (p ++ s) (q ++ t).
Proof.
  intros [H1 L1] [H2 L2]. split.
  - unfold skeleton in *. rewrite !filter_app. congruence.
  - rewrite !length_app. lia.
Qed.

Lemma comma_is_filler : isFiller COMMA = true.
Proof. reflexivity. Qed.

Lemma space_is_filler c : isSpace c = true -> isFiller c = true.
Proof. intros H. unfold isFiller. rewrite H. apply orb_true_r. Qed.

Lemma prefixb_split pat : forall s,
  prefixb pat s = true -> s = pat ++ skipn (List.length pat) s.
Proof.
  induction pat as [|p pat IH]; intros s H; [reflexivity|].
  destruct s as [|c s]; [discriminate|].
  cbn [prefixb] in H. apply andb_true_iff in H. destruct H as [E H].
  apply N.eqb_eq in E. subst c. cbn [List.length skipn app].
  f_equal. apply IH. exact H.
Qed.

(** *** [replace] with a string pattern *)

Lemma replaceFirst_thinned pat rep :
  thinned pat rep -> forall s, thinned s (replaceFirst pat rep s).
Proof.
  intros Hp. induction s as [|c s IH].
  - cbn [replaceFirst]. destruct (prefixb pat []) eqn:E.
    + apply prefixb_split in E. destruct pat; [|discriminate].
      cbn [List.length skipn]. rewrite app_nil_r. exact Hp.
    + apply thinned_refl.
  - cbn [replaceFirst]. destruct (prefixb pat (c :: s)) eqn:E.
    + pose proof (prefixb_split _ _ E) as Hs. rewrite Hs at 1.
      apply thinned_app; [exact Hp|apply thinned_refl].
    + apply thinned_keep. exact IH.
Qed.

(** *** [replaceAll] *)

Lemma replaceAll_from_skip pat rep l : forall r,
  replaceAll_from pat rep (List.length l) (l ++ r) = replaceAll_from pat rep 0 r.
Proof.
  induction l as [|c l IH]; intros r; [reflexivity|].
  cbn [List.length app replaceAll_from]. apply IH.
Qed.

Lemma replaceAll_thinned p pat rep :
  thinned (p :: pat) rep ->
  forall n s, (List.length s <= n)%nat ->
              thinned s (replaceAll (p :: pat) rep s).
Proof.
  intros Hp. unfold replaceAll. induction n as [|n IH]; intros s Hn.
  - destruct s; [apply thinned_refl|cbn in Hn; lia].
  - destruct s as [|c s]; [apply thinned_refl|].
    cbn [replaceAll_from]. destruct (prefixb (p :: pat) (c :: s)) eqn:E.
    + pose proof (prefixb_split _ _ E) as Hs.
      cbn [List.length skipn app] in Hs. injection Hs as -> Hs.
      replace (List.length (p :: pat) - 1)%nat with (List.length pat)
        by (cbn [List.length]; lia).
      rewrite Hs at 2. rewrite replaceAll_from_skip.
      rewrite Hs at 1.
      change (p :: pat ++ skipn (List.length pat) s)
        with ((p :: pat) ++ skipn (List.length pat) s).
      apply thinned_app; [exact Hp|].
      apply IH. cbn [List.length] in Hn.
      pose proof (length_skipn (List.length pat) s). lia.
    + apply thinned_keep. apply IH. cbn [List.length] in Hn. lia.
Qed.

(** *** The three substitutions that drop commas before closing brackets *)

Lemma dropTrailingCommas_from_thinned s : forall keep,
  thinned s (dropTrailingCommas_from keep s).
Proof.
  induction s as [|c s IH]; intros keep; [apply thinned_refl|].
  cbn [dropTrailingCommas_from]. destruct keep as [|k].
  - destruct (N.eqb_spec c COMMA) as [->|Hc].
    + destruct (spacesThen isCloser s).
      * apply thinned_drop; [apply comma_is_filler|apply IH].
      * apply thinned_keep, IH.
    + apply thinned_keep, IH.
  - apply thinned_keep, IH.
Qed.

Lemma spacesThen_spaces close s : forall n,
  spacesThen close s = Some n ->
  Forall (fun c => isSpace c = true) (firstn (n - 1) s).
Proof.
  induction s as [|c s IH]; intros n H; [discriminate|].
  cbn [spacesThen] in H. destruct (close c).
  - injection H as <-. constructor.
  - destruct (isSpace c) eqn:Ec; [|discriminate].
    destruct (spacesThen close s) as [m|] eqn:Em; [|discriminate].
    injection H as <-. cbn [Nat.sub]. rewrite Nat.sub_0_r.
    specialize (IH m eq_refl).
    destruct m as [|m]; [constructor|].
    cbn [firstn]. constructor; [exact Ec|].
    cbn [Nat.sub] in IH. rewrite Nat.sub_0_r in IH. exact IH.
Qed.

Lemma squeezeBefore_from_thinned x s : forall skip,
  Forall (fun c => isSpace c = true) (firstn skip s) ->
  thinned s (squeezeBefore_from x skip s).
Proof.
  induction s as [|c s IH]; intros skip H; [apply thinned_refl|].
  cbn [squeezeBefore_from]. destruct skip as [|k].
  - destruct (N.eqb_spec c COMMA) as [->|Hc].
    + destruct (spacesThen (N.eqb x) s) as [n|] eqn:E.
      * apply thinned_drop; [apply comma_is_filler|].
        apply IH. apply (spacesThen_spaces _ _ _ E).
      * apply thinned_keep, IH. constructor.
    + apply thinned_keep, IH. constructor.
  - cbn [firstn] in H. inversion H as [|? ? Hc Hk]; subst.
    apply thinned_drop; [apply space_is_filler; exact Hc|].
    apply IH. exact Hk.
Qed.

(** *** The substitution that drops a comma before an opening bracket *)

Lemma findCommaBeforeOpener_comma s : forall k,
  findCommaBeforeOpener s = Some k -> nth_error s k = Some COMMA.
Proof.
  induction s as [|c s IH]; intros k H; [discriminate|].
  cbn [findCommaBeforeOpener] in H.
  destruct ((c =? LBRACE) || (c =? RBRACE))%N; [discriminate|].
  destruct (N.eqb_spec c COMMA) as [->|Hc].
  - destruct (spacesThen isOpener s).
    + injection H as <-. reflexivity.
    + destruct (findCommaBeforeOpener s) as [m|]; [|discriminate].
      injection H as <-. cbn [nth_error]. apply IH. reflexivity.
  - destruct (findCommaBeforeOpener s) as [m|]; [|discriminate].
    injection H as <-. cbn [nth_error]. apply IH. reflexivity.
Qed.

Lemma dropCommaBeforeOpener_from_thinned s : forall m,
  match m with
  | Scan => True
  | CopyThenDrop k => nth_error s k = Some COMMA
  end ->
  thinned s (dropCommaBeforeOpener_from m s).
Proof.
  induction s as [|c s IH]; intros m H; [apply thinned_refl|].
  cbn [dropCommaBeforeOpener_from]. destruct m as [|[|k]].
  - destruct (c =? LBRACE)%N.
    + destruct (findCommaBeforeOpener s) as [k|] eqn:E.
      * apply thinned_keep, IH. apply findCommaBeforeOpener_comma. exact E.
      * apply thinned_keep, IH. exact I.
    + apply thinned_keep, IH. exact I.
  - cbn [nth_error] in H. injection H as ->.
    apply thinned_drop; [apply comma_is_filler|]. apply IH. exact I.
  - apply thinned_keep, IH. exact H.
Qed.

Lemma stripBOM_thinned f : thinned f (stripBOM f).
Proof.
  destruct f as [|c f]; [apply thinned_refl|].
  cbn [stripBOM]. destruct (N.eqb_spec c BOM) as [->|H].
  - apply thinned_drop; [reflexivity|apply thinned_refl].
  - apply thinned_refl.
Qed.

(** X15.  The repair pass only ever touches commas and white space: the
    repaired text has the same code units other than commas and white
    space, in the same order, as the input, and it is never longer than the
    input. *)
Theorem parseError_only_touches_commas_and_spaces :
  forall f,
    skeleton (parseError f) = skeleton f
    /\ (List.length (parseError f) <= List.length f)%nat.
Proof.
  intros f. change (thinned f (parseError f)).
  unfold parseError, beforeCommaFix. cbv zeta.
  eapply thinned_trans;
    [|apply replaceFirst_thinned; split; [reflexivity|cbn; lia]].
  eapply thinned_trans;
    [|apply replaceFirst_thinned; split; [reflexivity|cbn; lia]].
  eapply thinned_trans;
    [|apply dropCommaBeforeOpener_from_thinned; exact I].
  eapply thinned_trans; [|apply squeezeBefore_from_thinned; constructor].
  eapply thinned_trans; [|apply squeezeBefore_from_thinned; constructor].
  eapply thinned_trans; [|apply dropTrailingCommas_from_thinned].
  eapply thinned_trans;
    [|eapply replaceAll_thinned;
      [split; [reflexivity|cbn; lia]|apply le_n]].
  apply stripBOM_thinned.
Qed.

End RepairFacts.

(** ** Shape and well-formedness of the track mesh *)

Module TurnFacts.

Import Mesh.
Import MeshCases.
Import TurnCases.

Lemma normalised_opposite_min x :
  (0 <= Z.min (normalised x) (normalised (- x)) <= 180)%Z.
Proof.
  unfold normalised. rewrite Z.rem_opp_l by lia.
  destruct (Z.geb_spec x 0) as [H|H], (Z.geb_spec (- x) 0) as [H'|H'].
  - assert (x = 0)%Z as -> by lia. cbn. lia.
  - pose proof (Z.rem_bound_pos x 360 ltac:(lia) ltac:(lia)). lia.
  - pose proof (Z.rem_bound_pos_neg x 360 ltac:(lia) ltac:(lia)). lia.
  - lia.
Qed.

Lemma normalised_range h : (0 <= normalised h <= 360)%Z.
Proof.
  unfold normalised. destruct (Z.geb_spec h 0) as [H|H].
  - pose proof (Z.rem_bound_pos h 360 ltac:(lia) ltac:(lia)). lia.
  - pose proof (Z.rem_bound_pos_neg h 360 ltac:(lia) ltac:(lia)). lia.
Qed.

Lemma turnDegrees_range s e : (0 <= turnDegrees s e <= 180)%Z.
Proof.
  unfold turnDegrees. replace (e - s)%Z with (- (s - e))%Z by lia.
  apply normalised_opposite_min.
Qed.

(** [fmod(x, 360)] is exact on the whole numbers that doubles hold. *)
Lemma fmod_ofZ x :
  (Z.abs x < 2 ^ 53)%Z ->
  fmod (JSMath.ofZ x) 360 = JSMath.ofZ (normalised x).
Proof.
  intros Hx. destruct (Z.eq_dec x 0) as [->|N]; [reflexivity|].
  unfold fmod, normalised.
  rewrite DoubleFacts.leb_0_ofZ, DoubleFacts.rem_ofZ_360 by lia.
  pose proof (Z.rem_bound_abs x 360 ltac:(lia)) as Hr.
  destruct (Z.leb_spec 0 x) as [H|H], (Z.geb_spec x 0) as [H'|H']; try lia.
  - destruct (Z.eqb_spec (Z.rem x 360) 0) as [E|E]; [|reflexivity].
    rewrite E. destruct (Z.ltb_spec x 0); [lia|reflexivity].
  - destruct (Z.eqb_spec (Z.rem x 360) 0) as [E|E].
    + rewrite E. destruct (Z.ltb_spec x 0); [reflexivity|lia].
    + change 360 with (JSMath.ofZ 360).
      pose proof (Z.rem_bound_pos_neg x 360 ltac:(lia) ltac:(lia)).
      apply DoubleFacts.ofZ_add; lia.
Qed.

Lemma ordersAgree_table :
  forallb (fun a => forallb (ordersAgree a) (map Z.of_nat (seq 0 361)))
          (map Z.of_nat (seq 0 361)) = true.
Proof. vm_compute. reflexivity. Qed.

Lemma ordersAgree_in_range a b :
  (0 <= a <= 360)%Z -> (0 <= b <= 360)%Z ->
  (JSMath.ofZ a <=? JSMath.ofZ b) = (a <=? b)%Z.
Proof.
  intros Ha Hb. pose proof ordersAgree_table as A.
  rewrite forallb_forall in A.
  specialize (A a). rewrite forallb_forall in A.
  apply eqb_prop. apply A.
  - apply in_map_iff. exists (Z.to_nat a). split; [lia|]. apply in_seq. lia.
  - apply in_map_iff. exists (Z.to_nat b). split; [lia|]. apply in_seq. lia.
Qed.

(** On whole headings [sweep] starts at a normalised heading and sweeps the
    turn. *)
Lemma sweep_turn s e :
  (Z.abs s < 2 ^ 52)%Z -> (Z.abs e < 2 ^ 52)%Z ->
  exists h, (0 <= h <= 360)%Z
            /\ sweep (JSMath.ofZ s) (JSMath.ofZ e)
               = (rad h, (rad h + rad (turnDegrees s e))%float).
Proof.
  intros Hs He. unfold sweep, turnDegrees.
  rewrite !DoubleFacts.ofZ_sub by lia.
  rewrite !fmod_ofZ by lia.
  rewrite ordersAgree_in_range by apply normalised_range.
  destruct (Z.leb_spec (normalised (e - s)) (normalised (s - e))) as [H|H].
  - rewrite Z.min_r by lia. exists (normalised s).
    split; [apply normalised_range|reflexivity].
  - rewrite Z.min_l by lia. exists (normalised e).
    split; [apply normalised_range|reflexivity].
Qed.

Lemma testsAgree_table :
  forallb (fun h => forallb (testsAgree h) (map Z.of_nat (seq 0 181)))
          (map Z.of_nat (seq 0 361)) = true.
Proof. vm_compute. reflexivity. Qed.

Lemma testsAgree_in_range h d :
  (0 <= h <= 360)%Z -> (0 <= d <= 180)%Z -> testsAgree h d = true.
Proof.
  intros Hh Hd. pose proof testsAgree_table as A.
  rewrite forallb_forall in A.
  specialize (A h). rewrite forallb_forall in A. apply A.
  - apply in_map_iff. exists (Z.to_nat h). split; [lia|]. apply in_seq. lia.
  - apply in_map_iff. exists (Z.to_nat d). split; [lia|]. apply in_seq. lia.
Qed.

Lemma checked_faces m :
  forallb (fun f => (0 <=? f)%Z && (f <? vertexCount m)%Z) (faces m) = true ->
  Forall (fun f => (0 <= f < vertexCount m)%Z) (faces m).
Proof.
  intros H. rewrite forallb_forall in H. apply Forall_forall.
  intros f Hf. specialize (H f Hf). apply andb_true_iff in H.
  destruct H as [H1 H2]. apply Z.leb_le in H1. apply Z.ltb_lt in H2. lia.
Qed.

Section AnyMath.

Variables Math_cos Math_sin : float -> float.
Variable Math_pow : float -> float -> float.

Ltac families :=
  unfold createTrackMesh;
  match goal with
  | |- context [if ?b then createMidSpinMesh _ _ _ _ _ _ else _] => destruct b
  end;
  [ cbv zeta
  | unfold createTileMesh;
    match goal with
    | |- context [sweep ?s ?e] => destruct (sweep s e) as [a0 a1]
    end;
    cbv zeta;
    match goal with
    | |- context [((?a <? 2.0943952) && (0 <? ?a))%float] =>
        destruct ((a <? 2.0943952) && (0 <? a))%float;
        [ destruct (chamferScale Math_pow a =? 1)%float;
          match goal with
          | |- context [if (?r <? 0)%float then _ else _] =>
              destruct (r <? 0)%float
          end
        | destruct (0 <? a)%float ]
    end ].

(** X16.  Whatever the headings, the flag and the sizes are, every entry of
    [faces] in the mesh that [createTrackMesh] returns is the index of a
    vertex of that mesh: it is at least 0 and below [vertices.length / 3]. *)
Theorem createTrackMesh_faces_index_vertices :
  forall startAngle endAngle isMidspin length width outline,
    let m := createTrackMesh Math_cos Math_sin Math_pow
                             startAngle endAngle isMidspin
                             length width outline in
    Forall (fun f => (0 <= f < vertexCount m)%Z) (faces m).
Proof.
  intros startAngle endAngle isMidspin length width outline m.
  apply checked_faces. subst m. families; reflexivity.
Qed.

(** X17.  The mesh is drawn in two layers of equally many vertices: the
    first half of [colors] is black (all entries 0, the outline layer), the
    second half is white (all entries 1, the inner layer). *)
Theorem createTrackMesh_is_black_then_white :
  forall startAngle endAngle isMidspin length width outline,
    let m := createTrackMesh Math_cos Math_sin Math_pow
                             startAngle endAngle isMidspin
                             length width outline in
    let half := Nat.div (List.length (vertices m)) 2 in
    colors m = repeat 0%float half ++ repeat 1%float half.
Proof.
  intros startAngle endAngle isMidspin length width outline.
  families; reflexivity.
Qed.

Lemma circleRim_grows n : forall i0 resolution center radius color m,
  let m' := circleRim Math_cos Math_sin n i0 resolution center radius color m in
  List.length (vertices m') = (List.length (vertices m) + 3 * n)%nat
  /\ List.length (colors m') = (List.length (colors m) + 3 * n)%nat
  /\ faces m' = faces m.
Proof.
  induction n as [|n IH]; intros i0 resolution center radius color m;
    cbn [circleRim].
  - cbv zeta. repeat split; lia.
  - cbv zeta in *.
    match goal with
    | |- context [circleRim _ _ n ?i ?r ?c ?rad ?col ?m1] =>
        destruct (IH i r c rad col m1) as (Hv & Hc & Hf)
    end.
    rewrite Hv, Hc, Hf.
    cbn [pushVertices pushColors vertices colors faces].
    rewrite !length_app. cbn [List.length]. repeat split; lia.
Qed.

Lemma circleFan_grows n : forall i0 centerIndex m,
  (0 <= i0)%Z ->
  let m' := circleFan n i0 centerIndex m in
  vertices m' = vertices m
  /\ colors m' = colors m
  /\ exists fs,
      faces m' = faces m ++ fs
      /\ List.length fs = (3 * n)%nat
      /\ Forall (fun f => (centerIndex <= f <= centerIndex + i0 + Z.of_nat n)%Z)
                fs.
Proof.
  induction n as [|n IH]; intros i0 centerIndex m Hi; cbn [circleFan].
  - cbv zeta. repeat split. exists []. rewrite app_nil_r.
    repeat split. constructor.
  - cbv zeta in *.
    match goal with
    | |- context [circleFan n ?i ?c ?m1] =>
        destruct (IH i c m1 ltac:(lia)) as (Hv & Hc & fs & Hf & Hl & Hb)
    end.
    rewrite Hv, Hc, Hf. cbn [pushFaces vertices colors faces].
    repeat split.
    exists ([centerIndex; centerIndex + i0; centerIndex + i0 + 1]%Z ++ fs).
    rewrite <- app_assoc. split; [reflexivity|].
    split; [rewrite length_app; cbn [List.length]; lia|].
    apply Forall_app. split.
    + repeat constructor; lia.
    + apply (Forall_impl _ (P := fun f =>
               (centerIndex <= f <= centerIndex + (i0 + 1) + Z.of_nat n)%Z));
        [|exact Hb].
      intros f Hf0. lia.
Qed.

(** X18.  [createCircle] appends a closed fan to the buffers it is given:
    with [n] the resolution (32 when the argument is not positive), it adds
    [n + 1] vertices with their colours and [n] triangles, and every index
    of the new triangles names the centre or a rim vertex that the call
    added, whatever the buffers held before. *)
Theorem createCircle_appends_a_closed_fan :
  forall center radius color m resolution,
    let n := if (resolution <=? 0)%Z then 32%Z else resolution in
    let m' := createCircle Math_cos Math_sin center radius color m resolution in
    List.length (vertices m')
    = (List.length (vertices m) + 3 * (Z.to_nat n + 1))%nat
    /\ List.length (colors m')
       = (List.length (colors m) + 3 * (Z.to_nat n + 1))%nat
    /\ vertexCount m' = (vertexCount m + n + 1)%Z
    /\ exists fs,
        faces m' = faces m ++ fs
        /\ List.length fs = (3 * Z.to_nat n)%nat
        /\ Forall (fun f => (vertexCount m <= f < vertexCount m')%Z) fs.
Proof.
  intros center radius color m resolution. cbv zeta.
  set (n := if (resolution <=? 0)%Z then 32%Z else resolution).
  assert (Hn : (1 <= n)%Z)
    by (unfold n; destruct (Z.leb_spec resolution 0); lia).
  unfold createCircle. cbv zeta. fold n.
  set (c := vertexCount m).
  set (m1 := pushColors (pushVertices m [x center; y center; z center])
                        [r color; g color; b color]).
  destruct (circleRim_grows (Z.to_nat n) 0 n center radius color m1)
    as (Hv & Hc & Hf).
  cbv zeta in Hv, Hc, Hf.
  set (m2 := circleRim Math_cos Math_sin (Z.to_nat n) 0 n center radius
                       color m1) in *.
  destruct (circleFan_grows (Z.to_nat n - 1) 1 c m2 ltac:(lia))
    as (Fv & Fc & fs & Ff & Fl & Fb).
  cbv zeta in Fv, Fc, Ff.
  set (m3 := circleFan (Z.to_nat n - 1) 1 c m2) in *.
  cbn [pushFaces vertices colors faces].
  assert (Hlen : List.length (vertices m3)
                 = (List.length (vertices m) + 3 * (Z.to_nat n + 1))%nat).
  { rewrite Fv, Hv. unfold m1.
    cbn [pushColors pushVertices vertices]. rewrite length_app.
    cbn [List.length]. lia. }
  assert (Hcount : (Z.of_nat (List.length (vertices m3)) / 3
                    = c + n + 1)%Z).
  { rewrite Hlen. unfold c, vertexCount.
    replace (Z.of_nat (List.length (vertices m) + 3 * (Z.to_nat n + 1)))
      with (Z.of_nat (List.length (vertices m)) + (n + 1) * 3)%Z by lia.
    rewrite Z.div_add by lia. lia. }
  split; [exact Hlen|]. split.
  { rewrite Fc, Hc. unfold m1. cbn [pushColors pushVertices colors].
    rewrite length_app. cbn [List.length]. lia. }
  split; [unfold vertexCount; cbn [vertices]; exact Hcount|].
  exists (fs ++ [c; c + n; c + 1]%Z).
  rewrite Ff, Hf. unfold m1. cbn [pushColors pushVertices faces].
  rewrite app_assoc. split; [reflexivity|].
  split; [rewrite length_app, Fl; cbn [List.length]; lia|].
  unfold vertexCount. cbn [vertices pushFaces]. rewrite Hcount.
  apply Forall_app. split.
  - apply (Forall_impl _ (P := fun f =>
             (c <= f <= c + 1 + Z.of_nat (Z.to_nat n - 1))%Z)); [|exact Fb].
    intros f Hf0. fold c. lia.
  - fold c. repeat constructor; lia.
Qed.

Lemma createTileMesh_entries s e length width outline :
  (Z.abs s < 2 ^ 52)%Z -> (Z.abs e < 2 ^ 52)%Z ->
  List.length
    (vertices (createTileMesh Math_cos Math_sin Math_pow
                              (JSMath.ofZ s) (JSMath.ofZ e)
                              length width outline))
  = entriesFor (turnDegrees s e).
Proof.
  intros Bs Be.
  pose proof (turnDegrees_range s e) as Hd.
  destruct (sweep_turn s e Bs Be) as (h & Hh & Hs).
  pose proof (testsAgree_in_range h _ Hh Hd) as T.
  unfold testsAgree in T. cbv zeta in T.
  apply andb_true_iff in T. destruct T as [T1 T2].
  apply eqb_prop in T1. apply eqb_prop in T2.
  unfold createTileMesh. rewrite Hs. cbv zeta.
  rewrite T1. unfold entriesFor.
  destruct (Z.ltb_spec 0 (turnDegrees s e)) as [Hp|Hp];
    destruct (Z.leb_spec (turnDegrees s e) 120) as [Hl|Hl];
    destruct (Z.eqb_spec (turnDegrees s e) 0) as [Hz|Hz]; try lia;
    cbn [andb].
  - destruct (chamferScale Math_pow _ =? 1)%float;
      match goal with
      | |- context [if (?r <? 0)%float then _ else _] =>
          destruct (r <? 0)%float
      end; reflexivity.
  - rewrite T2. reflexivity.
  - rewrite T2. reflexivity.
Qed.

(** X19.  Without the midspin flag and for headings that are whole numbers
    of magnitude at most 2^51 (on larger and on fractional headings the
    subtraction of doubles rounds), the turn between the two headings in
    degrees (the smaller of the two normalised differences, always between
    0 and 180) decides the geometry: no geometry for a turn of 0, the
    family with the chamfer circle (282 vertex entries) for a turn of 1 to
    120 degrees, the wide family (72 vertex entries) for a turn of 121 to
    180 degrees. *)
Theorem turn_decides_the_mesh_family :
  forall startAngle endAngle length width outline,
    safeWhole startAngle -> safeWhole endAngle ->
    let m := createTrackMesh Math_cos Math_sin Math_pow
                             (JSMath.ofZ startAngle) (JSMath.ofZ endAngle)
                             false length width outline in
    (0 <= turnDegrees startAngle endAngle <= 180)%Z
    /\ List.length (vertices m) = entriesFor (turnDegrees startAngle endAngle).
Proof.
  intros s e length width outline Hs He. cbv zeta. split.
  - apply turnDegrees_range.
  - unfold safeWhole in Hs, He. unfold createTrackMesh.
    apply createTileMesh_entries; lia.
Qed.

End AnyMath.

Lemma turn_decides_the_mesh_family_witness :
  List.length
    (vertices (createTrackMesh (fun v => v) (fun v => v) (fun v _ => v)
                               (JSMath.ofZ 0) (JSMath.ofZ 90) false
                               TILE_LENGTH TILE_WIDTH OUTLINE))
  = 282%nat.
Proof.
  apply (proj2 (turn_decides_the_mesh_family
                  (fun v => v) (fun v => v) (fun v _ => v)
                  0%Z 90%Z TILE_LENGTH TILE_WIDTH OUTLINE
                  ltac:(unfold safeWhole; cbn; lia)
                  ltac:(unfold safeWhole; cbn; lia))).
Defined.

End TurnFacts.

(** ** Frames of the playback *)

Module PlaybackFacts.

Import Previewer.
Import PlaybackCases.
Import LevelCases.

Lemma filter_of_map {A B : Type} (f : B -> bool) (g : A -> B) l :
  filter f (map g l) = map g (filter (fun a => f (g a)) l).
Proof.
  induction l as [|a l IH]; [reflexivity|].
  cbn [map filter]. destruct (f (g a)); cbn [map]; rewrite IH; reflexivity.
Qed.

Lemma twirls_of_loaded_tile agd acts decos i :
  (0 <= i < Z.of_nat (List.length agd))%Z ->
  List.length (Level.getActionsByIndex (tilesOf agd acts decos) "Twirl" i)
  = Z.to_nat (twirlsAt acts i).
Proof.
  intros Hi. unfold Level.getActionsByIndex, Level.filterActionsByEventType.
  rewrite TileFacts.actions_of_tile_from. rewrite Z.sub_0_r.
  destruct (Z.leb_spec 0 i); [|lia].
  destruct (nth_error (tilesOf agd acts decos) (Z.to_nat i)) as [t|] eqn:E.
  - apply ExportFacts.tilesOf_fields in E.
    destruct E as (_ & _ & Ha & _). rewrite Ha, Z2Nat.id by lia.
    rewrite filter_of_map, length_map. unfold twirlsAt.
    rewrite Nat2Z.id. reflexivity.
  - apply nth_error_None in E. rewrite ExportFacts.tilesOf_length in E. lia.
Qed.

Lemma applyPause_isClockwise tiles i this :
  isClockwise (applyPause tiles i this) = isClockwise this.
Proof.
  unfold applyPause. destruct (Level.getActionsByIndex tiles "Pause" i);
    reflexivity.
Qed.

Lemma applySetSpeed_isClockwise tiles i this :
  isClockwise (applySetSpeed tiles i this) = isClockwise this.
Proof.
  unfold applySetSpeed.
  destruct (Level.getActionsByIndex tiles "SetSpeed" i) as [|a ?];
    [reflexivity|].
  destruct (speedType a) as [ty|]; [|reflexivity].
  destruct (String.eqb ty "Multiplier"); [reflexivity|].
  destruct (String.eqb ty "Bpm"); reflexivity.
Qed.

(** X20.  Arriving on a floor of a loaded level, the previewer reverses the
    sense of rotation exactly when the floor carries at least one Twirl:
    once, however many Twirl actions the floor has (while [load] counts
    every one of them in the tile's [twirl] field). *)
Theorem twirls_on_a_floor_reverse_the_rotation_once :
  forall agd acts decos i this,
    (0 <= i < Z.of_nat (List.length agd))%Z ->
    isClockwise (processActionsAtTile (tilesOf agd acts decos) i this)
    = xorb (isClockwise this) (0 <? twirlsAt acts i)%Z.
Proof.
  intros agd acts decos i this Hi.
  pose proof (twirls_of_loaded_tile agd acts decos i Hi) as Hn.
  pose proof (LevelFacts.twirlsAt_nonneg acts i) as H0.
  unfold processActionsAtTile, applyTwirl.
  destruct (Level.getActionsByIndex (tilesOf agd acts decos) "Twirl" i)
    as [|a l].
  - cbn [List.length] in Hn.
    destruct (Z.ltb_spec 0 (twirlsAt acts i)); [lia|].
    rewrite applySetSpeed_isClockwise, applyPause_isClockwise.
    destruct (isClockwise this); reflexivity.
  - cbn [List.length] in Hn.
    destruct (Z.ltb_spec 0 (twirlsAt acts i)); [|lia].
    cbn [flipClockwise isClockwise].
    rewrite applySetSpeed_isClockwise, applyPause_isClockwise.
    destruct (isClockwise this); reflexivity.
Qed.

Lemma twirls_on_a_floor_reverse_the_rotation_once_witness :
  isClockwise
    (processActionsAtTile
       (tilesOf (nums [0; 0; 0]%Z)
                [twirlAt 1%Z (plainEvent "Twirl");
                 twirlAt 1%Z (plainEvent "Twirl")]
                [])
       1%Z PreviewerCases.started)
  = xorb (isClockwise PreviewerCases.started) true.
Proof.
  apply (twirls_on_a_floor_reverse_the_rotation_once
           (nums [0; 0; 0]%Z)
           [twirlAt 1%Z (plainEvent "Twirl"); twirlAt 1%Z (plainEvent "Twirl")]
           [] 1%Z PreviewerCases.started).
  cbn. lia.
Defined.

(** *** What a frame keeps *)

Lemma keeps_refl s : centred s -> keeps s s.
Proof. intros H. repeat split; try apply H. left. reflexivity. Qed.

Lemma map_snd_indexed {A : Type} (l : list A) : forall k,
  map snd (Level.indexed_from k l) = l.
Proof.
  induction l as [|a l IH]; intros k; [reflexivity|].
  cbn [Level.indexed_from map snd]. rewrite IH. reflexivity.
Qed.

Lemma ids_of_replaced ps : forall i p q,
  nth_error ps i = Some p -> id q = id p ->
  map id (Level.replaceAt ps i q) = map id ps.
Proof.
  induction ps as [|a ps IH]; intros [|i] p q H E; cbn in *; try discriminate.
  - injection H as ->. rewrite E. reflexivity.
  - rewrite (IH i p q H E). reflexivity.
Qed.

Lemma planetAt_some this i p :
  planetAt this i = Some p ->
  (0 <= i < Z.of_nat (List.length (planets this)))%Z
  /\ nth_error (planets this) (Z.to_nat i) = Some p.
Proof.
  unfold planetAt. destruct (Z.ltb_spec i 0) as [Hi|Hi]; [discriminate|].
  intros Hp. split; [|exact Hp].
  assert (Z.to_nat i < List.length (planets this))%nat
    by (apply nth_error_Some; congruence).
  lia.
Qed.

Lemma same_ids_same_count (s s' : State) :
  map id (planets s') = map id (planets s) ->
  List.length (planets s') = List.length (planets s).
Proof.
  intros H. rewrite <- (length_map id (planets s')), H. apply length_map.
Qed.

Lemma processActionsAtTile_cast tiles i this :
  map id (planets (processActionsAtTile tiles i this)) = map id (planets this)
  /\ playbackState (processActionsAtTile tiles i this) = playbackState this.
Proof.
  unfold processActionsAtTile, applyTwirl, applySetSpeed, applyPause.
  assert (Hmap : forall f : Planet -> Planet,
             (forall p, id (f p) = id p) ->
             map id (map f (planets this)) = map id (planets this)).
  { intros f Hf. rewrite map_map. apply map_ext. exact Hf. }
  destruct (Level.getActionsByIndex tiles "Pause" i);
    destruct (Level.getActionsByIndex tiles "SetSpeed" i) as [|a ?];
    destruct (Level.getActionsByIndex tiles "Twirl" i);
    try destruct (speedType a) as [ty|];
    try destruct (String.eqb ty "Multiplier");
    try destruct (String.eqb ty "Bpm");
    cbn [planets playbackState setPlanets setBpm updateRotationSpeed
         flipClockwise];
    (split; [|reflexivity]); try reflexivity;
    apply Hmap; intros p;
    destruct (id p =? centerPlanetIndex this)%Z; reflexivity.
Qed.

Section AnyMath.

Variables Math_cos Math_sin : float -> float.
Variables Math_pow Math_atan2 : float -> float -> float.

Lemma recalculatePlanetAngles_cast this :
  map id (planets (recalculatePlanetAngles Math_atan2 this))
  = map id (planets this)
  /\ playbackState (recalculatePlanetAngles Math_atan2 this)
     = playbackState this.
Proof.
  unfold recalculatePlanetAngles.
  destruct (planetAt this (centerPlanetIndex this)) as [c|];
    [|split; reflexivity].
  cbn [planets playbackState setPlanets]. split; [|reflexivity].
  rewrite <- (map_snd_indexed (planets this) 0) at 2.
  rewrite !map_map. apply map_ext. intros [k p]. cbn [fst snd].
  destruct (k =? centerPlanetIndex this)%Z; reflexivity.
Qed.

Lemma checkPlanetTileTransition_keeps tiles s0 s index :
  placed tiles -> keeps s0 s ->
  exists s', checkPlanetTileTransition Math_pow Math_atan2 tiles s index
             = Some s'
             /\ keeps s0 s'.
Proof.
  intros Hpl K. unfold checkPlanetTileTransition.
  destruct (Level.tileAt tiles (centerPlanetIndex s + 1)) as [nextTile|] eqn:Et;
    [|exists s; split; [reflexivity|exact K]].
  destruct (planetAt s index) as [planet|] eqn:Ep;
    [|exists s; split; [reflexivity|exact K]].
  destruct (Level.position nextTile) as [p|] eqn:Epos.
  - destruct (closeEnough Math_pow (pos planet) (Level.pos_x p, Level.pos_y p));
      [|exists s; split; [reflexivity|exact K]].
    eexists. split; [reflexivity|].
    destruct K as (Kid & Kpb & Kc & Kt).
    destruct (planetAt_some _ _ _ Ep) as [Hidx _].
    set (s1 := setCenter s index (centerPlanetIndex s + 1)).
    destruct (processActionsAtTile_cast tiles (centerPlanetIndex s + 1) s1)
      as [P1 P2].
    destruct (PreviewerFacts.processActionsAtTile_indices
                tiles (centerPlanetIndex s + 1) s1) as [P3 P4].
    set (s2 := processActionsAtTile tiles (centerPlanetIndex s + 1) s1) in *.
    destruct (recalculatePlanetAngles_cast s2) as [R1 R2].
    destruct (PreviewerFacts.recalculatePlanetAngles_indices Math_atan2 s2)
      as [R3 R4].
    assert (Hids : map id (planets (recalculatePlanetAngles Math_atan2 s2))
                   = map id (planets s))
      by (rewrite R1, P1; reflexivity).
    unfold keeps, centred. rewrite R3, R4, P3, P4, R2, P2.
    rewrite (same_ids_same_count _ _ Hids).
    cbn [s1 setCenter centerPlanetIndex currentTileIndex playbackState].
    split; [congruence|]. split; [exact Kpb|]. split; [exact Hidx|].
    right. unfold centred in Kc.
    rewrite <- (same_ids_same_count _ _ Kid). lia.
  - exfalso. unfold placed in Hpl. rewrite Forall_forall in Hpl.
    apply (Hpl nextTile); [|exact Epos].
    unfold Level.tileAt in Et.
    destruct (centerPlanetIndex s + 1 <? 0)%Z; [discriminate|].
    apply nth_error_In in Et. exact Et.
Qed.

Lemma updatePlanet_keeps tiles c0 delta s0 s index :
  placed tiles -> keeps s0 s ->
  exists s', updatePlanet Math_cos Math_sin Math_pow Math_atan2
                          tiles c0 delta s index = Some s'
             /\ keeps s0 s'.
Proof.
  intros Hpl K. unfold updatePlanet.
  destruct (index =? centerPlanetIndex s)%Z;
    [exists s; split; [reflexivity|exact K]|].
  destruct (planetAt s index) as [planet|] eqn:Ep;
    [|exists s; split; [reflexivity|exact K]].
  destruct (planetAt s c0) as [centerPlanet|];
    [|exists s; split; [reflexivity|exact K]].
  apply checkPlanetTileTransition_keeps; [exact Hpl|].
  destruct K as (Kid & Kpb & Kc & Kt).
  destruct (planetAt_some _ _ _ Ep) as [_ Hn].
  assert (Hids : forall q, id q = id planet ->
             map id (Level.replaceAt (planets s) (Z.to_nat index) q)
             = map id (planets s))
    by (intros q Hq; apply (ids_of_replaced _ _ planet); assumption).
  unfold keeps, centred in *.
  cbn [planets playbackState setPlanets centerPlanetIndex currentTileIndex].
  rewrite Hids by reflexivity.
  split; [exact Kid|]. split; [exact Kpb|]. split; [|exact Kt].
  rewrite PositionFacts.replaceAt_length. exact Kc.
Qed.

Lemma updatePlanet_fold_keeps tiles c0 delta s0 indices : forall s,
  placed tiles -> keeps s0 s ->
  exists s',
    fold_left (fun st index =>
                 match st with
                 | Some s => updatePlanet Math_cos Math_sin Math_pow Math_atan2
                                          tiles c0 delta s index
                 | None => None
                 end)
              indices (Some s) = Some s'
    /\ keeps s0 s'.
Proof.
  induction indices as [|i indices IH]; intros s Hpl K; cbn [fold_left].
  - exists s. split; [reflexivity|exact K].
  - destruct (updatePlanet_keeps tiles c0 delta s0 s i Hpl K) as (s1 & -> & K1).
    apply IH; assumption.
Qed.

Lemma updatePlanets_keeps tiles dt s :
  placed tiles -> centred s ->
  exists s', updatePlanets Math_cos Math_sin Math_pow Math_atan2 tiles dt s
             = Some s'
             /\ keeps s s'.
Proof.
  intros Hpl Hc. unfold updatePlanets.
  destruct (playbackState s);
    [exists s; split; [reflexivity|apply keeps_refl; exact Hc]|].
  destruct (planets s) as [|p ps] eqn:Eps;
    [exists s; split; [reflexivity|apply keeps_refl; exact Hc]|].
  destruct (planetAt s (centerPlanetIndex s));
    [|exists s; split; [reflexivity|apply keeps_refl; exact Hc]].
  apply updatePlanet_fold_keeps; [exact Hpl|apply keeps_refl; exact Hc].
Qed.

(** X21.  On a level whose tiles all have a position, in a run of frames
    (one call of [updatePlanets] each, the particle trails apart) no call
    throws, adds or removes a planet or changes an id or the playback state;
    the centre index always names a planet; and, because the next tile is
    looked up at [centerPlanetIndex + 1], the centre tile index never gets
    past the number of planets: after any number of frames it is the one
    the run started with or lies between 1 and [planets.length]. *)
Theorem frames_never_leave_the_first_tiles :
  forall tiles steps this,
    placed tiles -> centred this ->
    exists s',
      frames Math_cos Math_sin Math_pow Math_atan2 tiles steps this = Some s'
      /\ keeps this s'.
Proof.
  intros tiles steps this Hpl Hc. unfold frames.
  assert (H : forall s, keeps this s ->
            exists s',
              fold_left (fun st dt =>
                           match st with
                           | Some s => updatePlanets Math_cos Math_sin Math_pow
                                                     Math_atan2 tiles dt s
                           | None => None
                           end)
                        steps (Some s) = Some s'
              /\ keeps this s').
  { induction steps as [|dt steps IH]; intros s K; cbn [fold_left].
    - exists s. split; [reflexivity|exact K].
    - destruct (updatePlanets_keeps tiles dt s Hpl (proj1 (proj2 (proj2 K))))
        as (s1 & -> & K1).
      apply IH.
      destruct K as (Kid & Kpb & Kc & Kt), K1 as (Jid & Jpb & Jc & Jt).
      unfold keeps. split; [congruence|]. split; [congruence|].
      split; [exact Jc|].
      rewrite (same_ids_same_count _ _ Kid) in Jt.
      destruct Jt as [Jt|Jt]; [rewrite Jt; exact Kt|right; exact Jt]. }
  apply H. apply keeps_refl. exact Hc.
Qed.

End AnyMath.

Lemma frames_never_leave_the_first_tiles_witness :
  exists s',
    frames (fun v => v) (fun v => v) (fun v _ => v * v) (fun _ _ => 0)
           PreviewerCases.spacedTiles [16; 16] PreviewerCases.started
    = Some s'
    /\ keeps PreviewerCases.started s'.
Proof.
  apply frames_never_leave_the_first_tiles.
  - repeat constructor; discriminate.
  - unfold centred. cbn. lia.
Defined.

End PlaybackFacts.

(** ** The mesh drawn for a tile *)

Module RenderFacts.

Import Previewer.
Import Mesh.
Import MeshCases.
Import TurnCases.

Lemma normalised_multiple h :
  (h mod 360 = 0)%Z ->
  normalised h = (if (h >? 0)%Z then 0 else if (h =? 0)%Z then 0 else 360)%Z.
Proof.
  intros H.
  assert (R : Z.rem h 360 = 0%Z).
  { apply Z.rem_divide; [lia|]. apply Z.mod_divide; [lia|exact H]. }
  unfold normalised. rewrite R.
  destruct (Z.geb_spec h 0), (Z.gtb_spec h 0), (Z.eqb_spec h 0); lia.
Qed.

Lemma turnDegrees_congruent s e :
  ((s - e) mod 360 = 0)%Z -> turnDegrees s e = 0%Z.
Proof.
  intros H.
  assert (H' : ((e - s) mod 360 = 0)%Z).
  { apply Z.mod_divide; [lia|]. apply Z.mod_divide in H; [|lia].
    destruct H as [k Hk]. exists (- k)%Z. lia. }
  unfold turnDegrees.
  rewrite (normalised_multiple _ H), (normalised_multiple _ H').
  destruct (Z.gtb_spec (s - e) 0), (Z.eqb_spec (s - e) 0),
           (Z.gtb_spec (e - s) 0), (Z.eqb_spec (e - s) 0);
    try lia; reflexivity.
Qed.

Section AnyMath.

Variables Math_cos Math_sin : float -> float.
Variable Math_pow : float -> float -> float.

(** X22.  The mesh that the previewer requests for a tile whose heading [h]
    is a whole number of magnitude at most 2^51 and that follows a tile
    whose heading [hp] is such a number as well, neither of them a midspin,
    is decided by the turn between [hp - 180] and [h]: a tile that goes
    straight on ([h = hp]) gets the wide family, and a tile that turns back
    on its predecessor ([h] congruent to [hp - 180]) gets no geometry at
    all.  (On larger and on fractional headings the subtraction of doubles
    rounds, and these are left out.) *)
Theorem tile_mesh_follows_the_turn :
  forall tiles i tp t hp h,
    Level.tileAt tiles (i - 1) = Some tp ->
    Level.tileAt tiles i = Some t ->
    Level.direction tp = JS.Num hp ->
    Level.direction t = JS.Num h ->
    hp <> 999%Z -> h <> 999%Z ->
    safeWhole hp -> safeWhole h ->
    let m := tileMeshData Math_cos Math_sin Math_pow tiles i in
    List.length (vertices m) = entriesFor (turnDegrees (hp - 180) h)
    /\ (h = hp -> List.length (vertices m) = 72%nat)
    /\ (((hp - 180 - h) mod 360 = 0)%Z -> List.length (vertices m) = 0%nat).
Proof.
  intros tiles i tp t hp h Hp Ht Dp Dt Np N Sp Sh. cbv zeta.
  unfold safeWhole in Sp, Sh.
  assert (E : List.length
                (vertices (tileMeshData Math_cos Math_sin Math_pow tiles i))
              = entriesFor (turnDegrees (hp - 180) h)).
  { unfold tileMeshData, directionAt. rewrite Hp, Ht, Dp, Dt.
    cbn [JS.orZero JS.eqZ].
    destruct (Z.eqb_spec hp 999); [contradiction|].
    destruct (Z.eqb_spec h 999); [contradiction|].
    cbv zeta. unfold createTrackMesh.
    change 180 with (JSMath.ofZ 180).
    rewrite DoubleFacts.ofZ_sub by lia.
    apply TurnFacts.createTileMesh_entries; lia. }
  rewrite E. split; [reflexivity|]. split.
  - intros ->. unfold turnDegrees.
    replace (hp - 180 - hp)%Z with (-180)%Z by lia.
    replace (hp - (hp - 180))%Z with 180%Z by lia.
    reflexivity.
  - intros H. rewrite (turnDegrees_congruent _ _ H). reflexivity.
Qed.

End AnyMath.

Lemma tile_mesh_follows_the_turn_witness :
  List.length
    (vertices (tileMeshData (fun v => v) (fun v => v) (fun v _ => v)
                            PreviewerCases.spacedTiles 1))
  = 72%nat.
Proof.
  refine (proj1 (proj2 (tile_mesh_follows_the_turn
                          (fun v => v) (fun v => v) (fun v _ => v)
                          PreviewerCases.spacedTiles 1 _ _ 0 0
                          eq_refl eq_refl eq_refl eq_refl _ _ _ _)) eq_refl);
    try discriminate; unfold safeWhole; cbn; lia.
Defined.

End RenderFacts.

(** ** Clearing events *)

Module EffectFacts.

Import Level.
Import LevelCases.
Import TilesCases.
Import EffectProcessor.
Import LevelEffects.
Import EffectCases.

Lemma flatten_filtered (p : Event -> bool) (f : Tile -> Tile) ts :
  (forall t, actions (f t) = filter p (actions t)) ->
  forall k,
    flat_map (fun ia => map (fun a => {| floor := fst ia; rest := a |})
                            (actions (snd ia)))
             (indexed_from k (map f ts))
    = filter (fun a => p (rest a))
             (flat_map (fun ia => map (fun a => {| floor := fst ia; rest := a |})
                                      (actions (snd ia)))
                       (indexed_from k ts)).
Proof.
  intros Hf. induction ts as [|t ts IH]; intros k; [reflexivity|].
  cbn [map indexed_from flat_map fst snd].
  rewrite filter_app, IH, Hf. f_equal.
  induction (actions t) as [|a l IHl]; [reflexivity|].
  cbn [filter map rest]. destruct (p a); cbn [map]; rewrite IHl; reflexivity.
Qed.

Lemma flatten_same (field : Tile -> list Event) (f : Tile -> Tile) ts :
  (forall t, field (f t) = field t) ->
  forall k,
    flat_map (fun ia => map (fun a => {| floor := fst ia; rest := a |})
                            (field (snd ia)))
             (indexed_from k (map f ts))
    = flat_map (fun ia => map (fun a => {| floor := fst ia; rest := a |})
                              (field (snd ia)))
               (indexed_from k ts).
Proof.
  intros Hf. induction ts as [|t ts IH]; intros k; [reflexivity|].
  cbn [map indexed_from flat_map fst snd]. rewrite IH, Hf. reflexivity.
Qed.

Lemma exported_after_clearEvents eventTypes ts :
  _flattenActionsWithFloor (clearEvents eventTypes ts)
  = filter (cleared eventTypes) (_flattenActionsWithFloor ts).
Proof.
  unfold _flattenActionsWithFloor, clearEvents, cleared.
  apply (flatten_filtered
           (fun action => negb (includes eventTypes (eventType action)))).
  reflexivity.
Qed.

(** X23.  Clearing or keeping event types on the tiles is the same as
    filtering the exported action list: after [clearEvents] the export holds
    the former actions whose type is not listed, after [keepEvents] those
    whose type is listed, with their floors and in their order; the
    exported headings and decorations are the same as before. *)
Theorem clearing_events_filters_the_export :
  forall eventTypes ts,
    _flattenActionsWithFloor (clearEvents eventTypes ts)
    = filter (cleared eventTypes) (_flattenActionsWithFloor ts)
    /\ _flattenActionsWithFloor (keepEvents eventTypes ts)
       = filter (kept eventTypes) (_flattenActionsWithFloor ts)
    /\ _flattenAngleDatas (clearEvents eventTypes ts) = _flattenAngleDatas ts
    /\ _flattenAngleDatas (keepEvents eventTypes ts) = _flattenAngleDatas ts
    /\ _flattenDecorationsWithFloor (clearEvents eventTypes ts)
       = _flattenDecorationsWithFloor ts
    /\ _flattenDecorationsWithFloor (keepEvents eventTypes ts)
       = _flattenDecorationsWithFloor ts.
Proof.
  intros eventTypes ts.
  split; [apply exported_after_clearEvents|].
  split.
  { unfold _flattenActionsWithFloor, keepEvents, kept.
    apply (flatten_filtered
             (fun action => includes eventTypes (eventType action))).
    reflexivity. }
  unfold _flattenAngleDatas, _flattenDecorationsWithFloor,
    clearEvents, keepEvents.
  rewrite !map_map. cbn [withActions direction].
  repeat split; try reflexivity;
    apply (flatten_same addDecorations); reflexivity.
Qed.

(** X24.  After [clearDeco] the export holds no decoration at all; its
    actions are the former ones without the four types MoveDecorations,
    SetText, SetObject and SetDefaultText, with their floors and in their
    order; the headings are unchanged. *)
Theorem clearDeco_empties_the_decorations :
  forall this,
    _flattenDecorationsWithFloor (tiles (clearDeco this)) = []
    /\ _flattenActionsWithFloor (tiles (clearDeco this))
       = filter (cleared (Presets.events Presets.preset_inner_no_deco))
                (_flattenActionsWithFloor (tiles this))
    /\ _flattenAngleDatas (tiles (clearDeco this))
       = _flattenAngleDatas (tiles this).
Proof.
  intros this. unfold clearDeco. cbn [tiles setTiles].
  unfold clearDecorations. split; [|split].
  - unfold _flattenDecorationsWithFloor. generalize 0.
    induction (tiles this) as [|t ts IH]; intros k; [reflexivity|].
    cbn [map indexed_from flat_map snd]. rewrite IH. reflexivity.
  - unfold _flattenActionsWithFloor, cleared.
    apply (flatten_filtered
             (fun action =>
                negb (includes (Presets.events Presets.preset_inner_no_deco)
                               (eventType action)))).
    reflexivity.
  - unfold _flattenAngleDatas. rewrite map_map. reflexivity.
Qed.

(** *** Composition *)

Lemma filter_twice {A : Type} (f g : A -> bool) l :
  filter f (filter g l) = filter (fun a => g a && f a) l.
Proof.
  induction l as [|a l IH]; [reflexivity|].
  cbn [filter]. destruct (g a); cbn [filter andb].
  - destruct (f a); rewrite IH; reflexivity.
  - exact IH.
Qed.

Lemma includes_app l1 l2 ty :
  includes (l1 ++ l2) ty = includes l1 ty || includes l2 ty.
Proof. unfold includes. apply existsb_app. Qed.

Lemma clearEvents_twice l1 l2 ts :
  clearEvents l1 (clearEvents l2 ts) = clearEvents (l2 ++ l1) ts.
Proof.
  unfold clearEvents. rewrite map_map. apply map_ext. intros t.
  unfold withActions. cbn [direction _lastdir actions angle addDecorations
                           twirl position].
  rewrite filter_twice. f_equal. apply filter_ext. intros a.
  rewrite includes_app, negb_orb. reflexivity.
Qed.

(** X25.  Clearing composes: clearing two lists of event types one after
    the other is clearing their concatenation, the order of the two steps
    does not matter, clearing the same list again changes nothing, and
    keeping a list after clearing it leaves no action on any tile. *)
Theorem clearEvents_compose :
  forall l1 l2 ts,
    clearEvents l1 (clearEvents l2 ts) = clearEvents (l2 ++ l1) ts
    /\ clearEvents l1 (clearEvents l2 ts) = clearEvents l2 (clearEvents l1 ts)
    /\ clearEvents l1 (clearEvents l1 ts) = clearEvents l1 ts
    /\ Forall (fun t => actions t = []) (keepEvents l1 (clearEvents l1 ts)).
Proof.
  intros l1 l2 ts. split; [apply clearEvents_twice|]. split; [|split].
  - rewrite !clearEvents_twice. unfold clearEvents.
    apply map_ext. intros t. f_equal. apply filter_ext. intros a.
    rewrite !includes_app. f_equal. apply orb_comm.
  - rewrite clearEvents_twice. unfold clearEvents.
    apply map_ext. intros t. f_equal. apply filter_ext. intros a.
    rewrite includes_app, orb_diag. reflexivity.
  - unfold keepEvents, clearEvents. rewrite map_map.
    apply Forall_forall. intros t Ht. apply in_map_iff in Ht.
    destruct Ht as (t0 & <- & _). cbn [withActions actions].
    rewrite filter_twice.
    induction (actions t0) as [|a l IH]; [reflexivity|].
    cbn [filter]. destruct (includes l1 (eventType a)); exact IH.
Qed.

(** *** The presets and the game play *)

Lemma twirlsAt_cleared eventTypes acts k :
  includes eventTypes "Twirl" = false ->
  twirlsAt (filter (cleared eventTypes) acts) k = twirlsAt acts k.
Proof.
  intros H. unfold twirlsAt. f_equal. f_equal.
  induction acts as [|a l IH]; [reflexivity|].
  cbn [filter]. unfold cleared at 1.
  destruct (includes eventTypes (eventType (rest a))) eqn:E; cbn [negb].
  - destruct (floor a =? k); [|exact IH].
    cbn [filter]. unfold isTwirlEvent at 2.
    destruct (String.eqb_spec (eventType (rest a)) "Twirl") as [Et|Et].
    + rewrite Et in E. congruence.
    + exact IH.
  - cbn [filter]. destruct (floor a =? k); [|exact IH].
    cbn [filter]. rewrite IH. reflexivity.
Qed.

(** The heading, relative angle and Twirl count that [_createArray] gives to
    the tiles only depend on the headings and on the number of Twirl actions
    of each floor. *)
Lemma created_gameplay_ext opt1 opt2 :
  opt_angleData opt1 = opt_angleData opt2 ->
  (forall k, twirlsAt (opt_actions opt1) k = twirlsAt (opt_actions opt2) k) ->
  forall n k s,
    map gameplay (fst (JS.array_from_at (createTile opt1) n k s))
    = map gameplay (fst (JS.array_from_at (createTile opt2) n k s))
    /\ snd (JS.array_from_at (createTile opt1) n k s)
       = snd (JS.array_from_at (createTile opt2) n k s).
Proof.
  intros Ha Ht. induction n as [|n IH]; intros k s; [split; reflexivity|].
  cbn [JS.array_from_at]. rewrite !LevelFacts.createTile_eq. cbv zeta.
  rewrite Ha, Ht.
  match goal with
  | |- context [JS.array_from_at (createTile opt1) n (S k) ?s1] =>
      specialize (IH (S k) s1);
      destruct (JS.array_from_at (createTile opt1) n (S k) s1) as [l1 s1'];
      destruct (JS.array_from_at (createTile opt2) n (S k) s1) as [l2 s2']
  end.
  cbn [fst snd map] in *. destruct IH as [IH1 IH2].
  split; [|exact IH2]. rewrite IH1. reflexivity.
Qed.

Lemma rebuild_after_clearEvents eventTypes ts :
  includes eventTypes "Twirl" = false ->
  map gameplay (rebuild (clearEvents eventTypes ts))
  = map gameplay (rebuild ts).
Proof.
  intros H. unfold rebuild, _createArray, JS.array_from.
  assert (Hlen : List.length (clearEvents eventTypes ts) = List.length ts)
    by (unfold clearEvents; apply length_map).
  rewrite Hlen.
  apply created_gameplay_ext; cbn [opt_angleData opt_actions].
  - unfold _flattenAngleDatas, clearEvents. rewrite map_map. reflexivity.
  - intros k. rewrite exported_after_clearEvents.
    apply twirlsAt_cleared. exact H.
Qed.

(** X26.  On a level object whose [tiles] have been assigned (by a [load]
    that had an object to read, and by whatever edits followed),
    [clearEffect] with the name of one of the five exported presets never
    throws and never touches the game play: loading the export of the
    cleared level gives every tile the heading, the relative angle and the
    Twirl count that loading the export of the uncleared level gives it.
    With any other name [clearEffect] throws. *)
Theorem presets_keep_the_gameplay :
  forall this presetName,
    tilesAssigned this ->
    (In presetName (map fst Presets.exported) ->
     exists s',
       clearEffect this presetName = Some s'
       /\ map gameplay (rebuild (tiles s')) = map gameplay (rebuild (tiles this)))
    /\ (~ In presetName (map fst Presets.exported) ->
        clearEffect this presetName = None).
Proof.
  intros this presetName _. split.
  - intros Hin. cbn in Hin.
    destruct Hin as [<-|[<-|[<-|[<-|[<-|[]]]]]];
      (eexists; split; [reflexivity|]);
      cbn [clearEvent Presets.type Presets.preset_noeffect
           Presets.preset_noholds Presets.preset_nomovecamera
           Presets.preset_noeffect_completely Presets.preset_inner_no_deco
           String.eqb Ascii.eqb Bool.eqb tiles setTiles];
      try reflexivity;
      apply rebuild_after_clearEvents; reflexivity.
  - intros Hnot. unfold clearEffect.
    assert (H : forall l, ~ In presetName (map fst l) ->
                          Presets.lookup l presetName = None).
    { induction l as [|[k v] l IH]; intros Hl; [reflexivity|].
      cbn [Presets.lookup]. destruct (String.eqb_spec k presetName) as [E|E].
      - exfalso. apply Hl. left. exact E.
      - apply IH. intros Hin. apply Hl. right. exact Hin. }
    rewrite (H _ Hnot). reflexivity.
Qed.

Lemma presets_keep_the_gameplay_witness :
  exists s',
    clearEffect (loaded (nums [0; 90; 90])
                        [twirlAt 1 (plainEvent "Twirl");
                         twirlAt 1 (plainEvent "Flash");
                         twirlAt 2 (plainEvent "MoveCamera")] [])
                "preset_noeffect" = Some s'
    /\ map gameplay (rebuild (tiles s'))
       = map gameplay
             (rebuild (tiles (loaded (nums [0; 90; 90])
                                     [twirlAt 1 (plainEvent "Twirl");
                                      twirlAt 1 (plainEvent "Flash");
                                      twirlAt 2 (plainEvent "MoveCamera")] []))).
Proof.
  apply (proj1 (presets_keep_the_gameplay _ "preset_noeffect"
                  (assigned_load (fun _ => None) (OptObject _) _ fresh
                                 eq_refl))).
  cbn. left. reflexivity.
Defined.

End EffectFacts.

(** ** The event registry *)

Module EmitterFacts.

Import Emitter.
Import EmitterCases.

Lemma guid_eqb_eq a b : guid_eqb a b = true <-> a = b.
Proof.
  unfold guid_eqb. destruct a as [a1 a2 a3], b as [b1 b2 b3]. cbn.
  rewrite !andb_true_iff, !Z.eqb_eq. split.
  - intros [[-> ->] ->]. reflexivity.
  - intros H. injection H as -> -> ->. repeat split.
Qed.

Lemma guid_eqb_refl a : guid_eqb a a = true.
Proof. apply guid_eqb_eq. reflexivity. Qed.

Lemma guid_eqb_neq a b : guid_eqb a b = false <-> a <> b.
Proof.
  rewrite <- guid_eqb_eq. destruct (guid_eqb a b); split; congruence.
Qed.

(** *** Maps *)

Section Maps.

Context {K V : Type}.
Variable eqb : K -> K -> bool.
Hypothesis eqb_eq : forall a b, eqb a b = true <-> a = b.

Lemma eqb_same a : eqb a a = true.
Proof. apply eqb_eq. reflexivity. Qed.

Lemma eqb_other a b : a <> b -> eqb a b = false.
Proof.
  intros H. destruct (eqb a b) eqn:E; [|reflexivity].
  apply eqb_eq in E. contradiction.
Qed.

Lemma get_set_same (m : list (K * V)) k v : get eqb (set eqb m k v) k = Some v.
Proof.
  induction m as [|[k' v'] m IH]; cbn [set get].
  - rewrite eqb_same. reflexivity.
  - destruct (eqb k' k) eqn:E; cbn [get]; rewrite E; [reflexivity|exact IH].
Qed.

Lemma get_set_other (m : list (K * V)) k k1 v :
  k <> k1 -> get eqb (set eqb m k v) k1 = get eqb m k1.
Proof.
  intros H. induction m as [|[k' v'] m IH]; cbn [set get].
  - rewrite (eqb_other _ _ H). reflexivity.
  - destruct (eqb k' k) eqn:E; cbn [get].
    + apply eqb_eq in E. subst k'. rewrite (eqb_other _ _ H). reflexivity.
    + rewrite IH. reflexivity.
Qed.

Lemma get_delete_same (m : list (K * V)) k : get eqb (delete eqb m k) k = None.
Proof.
  unfold delete. induction m as [|[k' v'] m IH]; [reflexivity|].
  cbn [filter fst]. destruct (eqb k' k) eqn:E; cbn [negb get].
  - exact IH.
  - rewrite E. exact IH.
Qed.

Lemma get_delete_other (m : list (K * V)) k k1 :
  k <> k1 -> get eqb (delete eqb m k) k1 = get eqb m k1.
Proof.
  intros H. unfold delete. induction m as [|[k' v'] m IH]; [reflexivity|].
  cbn [filter fst get]. destruct (eqb k' k) eqn:E; cbn [negb get].
  - apply eqb_eq in E. subst k'. rewrite (eqb_other _ _ H). exact IH.
  - rewrite IH. reflexivity.
Qed.

Lemma get_in (m : list (K * V)) k v : get eqb m k = Some v -> In (k, v) m.
Proof.
  induction m as [|[k' v'] m IH]; cbn [get]; [discriminate|].
  destruct (eqb k' k) eqn:E.
  - apply eqb_eq in E. subst k'. intros H. injection H as ->. left. reflexivity.
  - intros H. right. apply IH. exact H.
Qed.

Lemma in_set (m : list (K * V)) k v kv :
  In kv (set eqb m k v) -> kv = (k, v) \/ In kv m.
Proof.
  induction m as [|[k' v'] m IH]; cbn [set].
  - intros [<-|[]]. left. reflexivity.
  - destruct (eqb k' k) eqn:E.
    + apply eqb_eq in E. subst k'. intros [<-|H].
      * left. reflexivity.
      * right. right. exact H.
    + intros [<-|H].
      * right. left. reflexivity.
      * destruct (IH H) as [->|H']; [left; reflexivity|right; right; exact H'].
Qed.

Lemma in_delete (m : list (K * V)) k kv : In kv (delete eqb m k) -> In kv m.
Proof. unfold delete. intros H. apply filter_In in H. apply H. Qed.

End Maps.

Lemma string_eqb_eq a b : String.eqb a b = true <-> a = b.
Proof. apply String.eqb_eq. Qed.

(** *** The registry stays consistent *)

Lemma consistent_fresh : consistent fresh.
Proof. split; [intros g o []|intros name l r H; discriminate]. Qed.

Lemma events_after_on this name cb now rnd n :
  get String.eqb (_events (snd (on this name cb now rnd))) n
  = if String.eqb name n
    then Some (match get String.eqb (_events this) name with
               | Some l => l
               | None => []
               end
               ++ [{| guid := {| stamp := now; serial := guidCounter this;
                                 salt := rnd |};
                      callback := cb |}])
    else get String.eqb (_events this) n.
Proof.
  unfold on, generateGUID, has. cbn [snd _events].
  destruct (get String.eqb (_events this) name) as [l|] eqn:E.
  - rewrite E.
    destruct (String.eqb_spec name n) as [<-|Hne].
    + apply (get_set_same _ string_eqb_eq).
    + apply (get_set_other _ string_eqb_eq). exact Hne.
  - rewrite (get_set_same _ string_eqb_eq).
    destruct (String.eqb_spec name n) as [<-|Hne].
    + apply (get_set_same _ string_eqb_eq).
    + rewrite !(get_set_other _ string_eqb_eq) by exact Hne. reflexivity.
Qed.

Lemma unknown_when_late this g :
  consistent this -> guidCounter this <= serial g ->
  get guid_eqb (guidCallbacks this) g = None.
Proof.
  intros [H1 _] Hg.
  destruct (get guid_eqb (guidCallbacks this) g) as [o|] eqn:E; [|reflexivity].
  apply (get_in _ guid_eqb_eq) in E. apply H1 in E. lia.
Qed.

Lemma on_consistent this name cb now rnd :
  consistent this -> consistent (snd (on this name cb now rnd)).
Proof.
  intros C. pose proof C as [H1 H2]. split.
  - unfold on, generateGUID. cbn [snd guidCallbacks guidCounter].
    intros g o Hin. apply (in_set _ guid_eqb_eq) in Hin.
    destruct Hin as [E|Hin].
    + injection E as -> _. cbn [serial]. lia.
    + apply H1 in Hin. lia.
  - intros n l r Hl Hr. rewrite events_after_on in Hl.
    set (g := {| stamp := now; serial := guidCounter this; salt := rnd |}) in *.
    assert (Hold : forall n0 l0 r0,
               get String.eqb (_events this) n0 = Some l0 -> In r0 l0 ->
               get guid_eqb (guidCallbacks (snd (on this name cb now rnd)))
                   (guid r0)
               = Some {| eventName := n0; origin_callback := callback r0 |}).
    { intros n0 l0 r0 Hl0 Hr0. specialize (H2 n0 l0 r0 Hl0 Hr0).
      unfold on, generateGUID. cbn [snd guidCallbacks].
      rewrite (get_set_other _ guid_eqb_eq); [exact H2|].
      intros Eg. pose proof (unknown_when_late this g C) as Hu.
      unfold g in Hu, Eg. cbn [serial] in Hu.
      rewrite <- Eg, Hu in H2 by lia. discriminate. }
    destruct (String.eqb_spec name n) as [<-|Hne].
    + injection Hl as <-. apply in_app_iff in Hr. destruct Hr as [Hr|[<-|[]]].
      * destruct (get String.eqb (_events this) name) as [l0|] eqn:E;
          [|destruct Hr].
        apply (Hold name l0 r E Hr).
      * unfold on, generateGUID. cbn [snd guidCallbacks guid callback].
        apply (get_set_same _ guid_eqb_eq).
    + apply (Hold n l r Hl Hr).
Qed.

Lemma off_consistent this g :
  consistent this -> consistent (snd (off this g)).
Proof.
  intros C. pose proof C as [H1 H2]. unfold off.
  destruct (get guid_eqb (guidCallbacks this) g) as [o|] eqn:Eg;
    [|exact C].
  cbn [snd]. split; cbn [guidCallbacks guidCounter _events].
  - intros g0 o0 Hin. apply in_delete in Hin. apply (H1 _ _ Hin).
  - intros n l r Hl Hr.
    assert (Hkeep : forall l0, get String.eqb (_events this) n = Some l0 ->
                               In r l0 -> guid r <> g ->
               get guid_eqb (delete guid_eqb (guidCallbacks this) g) (guid r)
               = Some {| eventName := n; origin_callback := callback r |}).
    { intros l0 Hl0 Hr0 Hne.
      rewrite (get_delete_other _ guid_eqb_eq) by congruence.
      apply (H2 n l0 r Hl0 Hr0). }
    destruct (get String.eqb (_events this) (eventName o)) as [l0|] eqn:El.
    + destruct (String.eqb_spec (eventName o) n) as [En|Hne].
      * rewrite En in Hl. rewrite (get_set_same _ string_eqb_eq) in Hl.
        injection Hl as <-. apply filter_In in Hr. destruct Hr as [Hr Hf].
        apply andb_true_iff in Hf. destruct Hf as [Hf _].
        apply negb_true_iff, guid_eqb_neq in Hf.
        rewrite En in El. apply (Hkeep l0 El Hr Hf).
      * rewrite (get_set_other _ string_eqb_eq) in Hl by exact Hne.
        apply (Hkeep l Hl Hr).
        intros E. pose proof (H2 n l r Hl Hr) as Hg.
        rewrite E, Eg in Hg. injection Hg as ->. cbn [eventName] in Hne.
        contradiction.
    + (* the array of the event is gone *)
      apply (Hkeep l Hl Hr).
      intros E. pose proof (H2 n l r Hl Hr) as Hg.
      rewrite E, Eg in Hg. injection Hg as ->. cbn [eventName] in El.
      congruence.
Qed.

Lemma deletes_keep_bound (rs : list Registration) :
  forall (m : list (Guid * Origin)) g o,
    In (g, o) (fold_left (fun m r => delete guid_eqb m (guid r)) rs m) ->
    In (g, o) m.
Proof.
  induction rs as [|r rs IH]; intros m g o H; [exact H|].
  cbn [fold_left] in H. apply IH in H. apply in_delete in H. exact H.
Qed.

Lemma deletes_spare (rs : list Registration) :
  forall (m : list (Guid * Origin)) g,
  (forall r, In r rs -> guid r <> g) ->
  get guid_eqb (fold_left (fun m r => delete guid_eqb m (guid r)) rs m) g
  = get guid_eqb m g.
Proof.
  induction rs as [|r rs IH]; intros m g H; [reflexivity|].
  cbn [fold_left]. rewrite IH by (intros r0 Hr0; apply H; right; exact Hr0).
  apply (get_delete_other _ guid_eqb_eq). apply H. left. reflexivity.
Qed.

Lemma offEvent_consistent this name :
  consistent this -> consistent (offEvent this name).
Proof.
  intros C. pose proof C as [H1 H2]. unfold offEvent.
  destruct (get String.eqb (_events this) name) as [l0|] eqn:El; [|exact C].
  split; cbn [guidCallbacks guidCounter _events].
  - intros g o Hin. apply deletes_keep_bound in Hin. apply (H1 _ _ Hin).
  - intros n l r Hl Hr.
    destruct (String.eqb_spec name n) as [<-|Hne].
    + rewrite get_delete_same in Hl. discriminate.
    + rewrite (get_delete_other _ string_eqb_eq) in Hl by exact Hne.
      rewrite deletes_spare; [apply (H2 n l r Hl Hr)|].
      intros r0 Hr0 E.
      pose proof (H2 n l r Hl Hr) as Hg.
      pose proof (H2 name l0 r0 El Hr0) as Hg0.
      rewrite E, Hg in Hg0. injection Hg0 as Hn _. congruence.
Qed.

Lemma run_consistent calls : consistent (run calls).
Proof.
  unfold run.
  assert (H : forall s, consistent s -> consistent (fold_left step calls s)).
  { induction calls as [|c calls IH]; intros s C; [exact C|].
    cbn [fold_left]. apply IH. destruct c; cbn [step].
    - apply on_consistent. exact C.
    - apply off_consistent. exact C.
    - apply offEvent_consistent. exact C. }
  apply H. apply consistent_fresh.
Qed.

(** X27.  After any sequence of calls of [on], [off] and [offEvent] on a new
    level, the GUID that the next [on] returns is not registered yet, even
    when the clock and the random draw repeat earlier values: [off] did not
    know it before the call, and knows it after. *)
Theorem on_returns_an_unused_guid :
  forall calls name cb now rnd,
    let this := run calls in
    let (g, this') := on this name cb now rnd in
    fst (off this g) = false
    /\ fst (off this' g) = true.
Proof.
  intros calls name cb now rnd. cbv zeta.
  pose proof (run_consistent calls) as C.
  destruct (on (run calls) name cb now rnd) as [g this'] eqn:E.
  assert (Eg : g = {| stamp := now; serial := guidCounter (run calls);
                      salt := rnd |})
    by (unfold on, generateGUID in E; injection E as <- _; reflexivity).
  assert (Et : this' = snd (on (run calls) name cb now rnd))
    by (rewrite E; reflexivity).
  split.
  - unfold off. rewrite (unknown_when_late _ g C); [reflexivity|].
    rewrite Eg. cbn [serial]. lia.
  - unfold off. rewrite Et. unfold on, generateGUID.
    cbn [snd guidCallbacks]. rewrite <- Eg.
    rewrite (get_set_same _ guid_eqb_eq). reflexivity.
Qed.

(** *** [off] *)

Lemma filter_by_callback (l : list Registration) g c :
  (forall r, In r l -> guid r = g -> callback r = c) ->
  map callback
      (filter (fun r => negb (guid_eqb (guid r) g)
                        && negb (Nat.eqb (callback r) c)) l)
  = filter (fun cb => negb (Nat.eqb cb c)) (map callback l).
Proof.
  induction l as [|r l IH]; intros H; [reflexivity|].
  cbn [filter map].
  rewrite <- IH by (intros r0 Hr0; apply H; right; exact Hr0).
  destruct (Nat.eqb_spec (callback r) c) as [Ec|Ec]; cbn [negb].
  - rewrite andb_false_r. reflexivity.
  - rewrite andb_true_r.
    destruct (guid_eqb (guid r) g) eqn:Eg; [|reflexivity].
    apply guid_eqb_eq in Eg. exfalso. apply Ec. apply H; [left; reflexivity|].
    exact Eg.
Qed.

(** X28.  After any sequence of calls, [off] with a registered GUID returns
    [true] and silences the callback of that registration altogether:
    [trigger] on its event name calls what it called before except every
    occurrence of that callback, also the occurrences registered under other
    GUIDs; the other event names are not affected; and a second [off] with
    the same GUID returns [false]. *)
Theorem off_silences_the_callback :
  forall calls g o,
    let this := run calls in
    get guid_eqb (guidCallbacks this) g = Some o ->
    fst (off this g) = true
    /\ trigger (snd (off this g)) (eventName o)
       = filter (fun cb => negb (Nat.eqb cb (origin_callback o)))
                (trigger this (eventName o))
    /\ (forall name, name <> eventName o ->
                     trigger (snd (off this g)) name = trigger this name)
    /\ fst (off (snd (off this g)) g) = false.
Proof.
  intros calls g o. cbv zeta. intros Hg.
  pose proof (run_consistent calls) as [_ H2].
  assert (Hoff : off (run calls) g
                 = (true,
                    {| _events :=
                         match get String.eqb (_events (run calls)) (eventName o)
                         with
                         | Some eventCallbacks =>
                             set String.eqb (_events (run calls)) (eventName o)
                                 (filter
                                    (fun r =>
                                       negb (guid_eqb (guid r) g)
                                       && negb (Nat.eqb (callback r)
                                                        (origin_callback o)))
                                    eventCallbacks)
                         | None => _events (run calls)
                         end;
                       guidCallbacks :=
                         delete guid_eqb (guidCallbacks (run calls)) g;
                       guidCounter := guidCounter (run calls) |}))
    by (unfold off; rewrite Hg; reflexivity).
  rewrite Hoff. cbn [fst snd].
  split; [reflexivity|]. split; [|split].
  - unfold trigger. cbn [_events].
    destruct (get String.eqb (_events (run calls)) (eventName o)) as [l|] eqn:El.
    + rewrite (get_set_same _ string_eqb_eq).
      apply filter_by_callback. intros r Hr E.
      pose proof (H2 _ _ _ El Hr) as Hr'. rewrite E, Hg in Hr'.
      injection Hr' as ->. reflexivity.
    + rewrite El. reflexivity.
  - intros name Hne. unfold trigger. cbn [_events].
    destruct (get String.eqb (_events (run calls)) (eventName o)) as [l|];
      [|reflexivity].
    rewrite (get_set_other _ string_eqb_eq) by congruence. reflexivity.
  - unfold off. cbn [guidCallbacks].
    rewrite get_delete_same. reflexivity.
Qed.

Lemma off_silences_the_callback_witness :
  let calls := [CallOn "load" 7%nat 100 5; CallOn "load" 9%nat 100 5;
                CallOn "load" 7%nat 100 5] in
  let g := {| stamp := 100; serial := 0; salt := 5 |} in
  trigger (run calls) "load" = [7%nat; 9%nat; 7%nat]
  /\ trigger (snd (off (run calls) g)) "load" = [9%nat].
Proof.
  split; [reflexivity|].
  exact (proj1 (proj2 (off_silences_the_callback
                         [CallOn "load" 7%nat 100 5; CallOn "load" 9%nat 100 5;
                          CallOn "load" 7%nat 100 5]
                         {| stamp := 100; serial := 0; salt := 5 |}
                         {| eventName := "load"; origin_callback := 7%nat |}
                         eq_refl))).
Defined.

(** *** [trigger] *)

Lemma trigger_after_on this name cb now rnd n :
  trigger (snd (on this name cb now rnd)) n
  = trigger this n ++ (if String.eqb name n then [cb] else []).
Proof.
  unfold trigger. rewrite events_after_on.
  destruct (String.eqb_spec name n) as [<-|Hne].
  - destruct (get String.eqb (_events this) name);
      rewrite map_app; reflexivity.
  - rewrite app_nil_r. reflexivity.
Qed.

(** X29.  Callbacks are called in the order of their registration: after a
    sequence of [on] calls, [trigger] on an event name calls what it called
    before and then the callbacks registered for that name, one call for
    each registration, in the order of the [on] calls; on a new level these
    are all the calls, and an event name without registration calls
    nothing. *)
Theorem trigger_calls_in_registration_order :
  forall requests this name,
    trigger (fold_left register requests this) name
    = trigger this name
      ++ map callbackOf (filter (requested name) requests).
Proof.
  induction requests as [|r requests IH]; intros this name;
    cbn [fold_left filter].
  - cbn [map]. rewrite app_nil_r. reflexivity.
  - rewrite IH. destruct r as [[[n cb] now] rnd].
    cbn [register requested]. rewrite trigger_after_on.
    rewrite <- app_assoc. f_equal.
    destruct (String.eqb n name); reflexivity.
Qed.

End EmitterFacts.

(** ** Lines of the formatted export *)

Module FormatFacts.

Import Format.
Import FormatCases.

Lemma lineFeeds_app a b :
  lineFeeds (String.append a b) = (lineFeeds a + lineFeeds b)%nat.
Proof.
  induction a as [|c a IH]; [reflexivity|].
  cbn [String.append lineFeeds]. rewrite IH. lia.
Qed.

Lemma lineFeeds_spaces n : lineFeeds (spaces n) = 0%nat.
Proof. induction n as [|n IH]; [reflexivity|exact IH]. Qed.

Lemma lineFeeds_join sep parts :
  lineFeeds (join sep parts)
  = (list_sum (map lineFeeds parts)
     + (List.length parts - 1) * lineFeeds sep)%nat.
Proof.
  induction parts as [|p parts IH]; [reflexivity|].
  destruct parts as [|q parts].
  - cbn. lia.
  - change (join sep (p :: q :: parts))
      with (String.append p (String.append sep (join sep (q :: parts)))).
    rewrite !lineFeeds_app, IH.
    cbn [map List.length Nat.sub]. rewrite !Nat.sub_0_r.
    change (list_sum (lineFeeds p :: lineFeeds q :: map lineFeeds parts))
      with (lineFeeds p + list_sum (lineFeeds q :: map lineFeeds parts))%nat.
    cbn [Nat.mul]. lia.
Qed.

Lemma list_sum_zero (l : list nat) :
  Forall (fun n => n = 0%nat) l -> list_sum l = 0%nat.
Proof.
  induction 1 as [|n l Hn _ IH]; [reflexivity|].
  change (list_sum (n :: l)) with (n + list_sum l)%nat. lia.
Qed.

Section Values.

Variable Prim : Type.
Variable stringify : Prim -> string.
Variable quote : string -> string.

Hypothesis stringify_one_line : forall p, lineFeeds (stringify p) = 0%nat.
Hypothesis quote_one_line : forall k, lineFeeds (quote k) = 0%nat.

Lemma formatAsSingleLine_one_line obj :
  lineFeeds (formatAsSingleLine Prim stringify quote obj) = 0%nat.
Proof.
  induction obj as [p|items IH|fields IH] using json_induction.
  - apply stringify_one_line.
  - cbn [formatAsSingleLine]. rewrite !lineFeeds_app, lineFeeds_join.
    rewrite list_sum_zero.
    + cbn. lia.
    + rewrite !Forall_map. exact IH.
  - cbn [formatAsSingleLine]. rewrite !lineFeeds_app, lineFeeds_join.
    rewrite list_sum_zero.
    + cbn. lia.
    + rewrite !Forall_map. rewrite Forall_forall in IH |- *.
      intros kv Hkv.
      rewrite !lineFeeds_app, quote_one_line, (IH kv Hkv). reflexivity.
Qed.

(** X30.  When [JSON.stringify] puts no line feed into a primitive or a key
    (it escapes them), the export prints an array on one line if all its
    items are primitives (an empty array too), and otherwise with every
    item on a line of its own between the two brackets, whatever the items
    contain: [items.length + 1] line feeds.  An object without keys is
    printed with an empty line between its braces. *)
Theorem arrays_print_one_item_per_line :
  forall items indent isRoot,
    lineFeeds (customFormatJSON Prim stringify quote (JArr Prim items)
                                indent isRoot)
    = (if forallb (isPrimitive Prim) items then 0 else List.length items + 1)%nat
    /\ lineFeeds (customFormatJSON Prim stringify quote (JObj Prim [])
                                   indent isRoot)
       = 2%nat.
Proof.
  intros items indent isRoot. split.
  - cbn [customFormatJSON].
    destruct (forallb (isPrimitive Prim) items) eqn:E.
    + rewrite !lineFeeds_app, lineFeeds_join, list_sum_zero.
      * cbn. lia.
      * rewrite !Forall_map. rewrite forallb_forall in E.
        apply Forall_forall. intros item Hi. specialize (E item Hi).
        destruct item; try discriminate. apply stringify_one_line.
    + assert (Hn : items <> []) by (intros ->; discriminate).
      rewrite !lineFeeds_app, lineFeeds_join, list_sum_zero.
      * rewrite lineFeeds_spaces, length_map. cbn.
        destruct items; [contradiction|]. cbn [List.length]. lia.
      * rewrite !Forall_map. apply Forall_forall. intros item _.
        rewrite !lineFeeds_app, lineFeeds_spaces,
          formatAsSingleLine_one_line.
        reflexivity.
  - cbn [customFormatJSON map join].
    destruct isRoot; rewrite !lineFeeds_app, ?lineFeeds_spaces; reflexivity.
Qed.

End Values.

Lemma arrays_print_one_item_per_line_witness :
  lineFeeds
    (customFormatJSON nat (fun _ => "0"%string) (fun _ => "k"%string)
       (JArr nat [JObj nat [("floor"%string, JPrim nat 1%nat)];
                  JArr nat [JPrim nat 2%nat; JPrim nat 3%nat];
                  JPrim nat 4%nat])
       2 false)
  = 4%nat.
Proof.
  exact (proj1 (arrays_print_one_item_per_line
                  nat (fun _ => "0"%string) (fun _ => "k"%string)
                  (fun _ => eq_refl) (fun _ => eq_refl)
                  [JObj nat [("floor"%string, JPrim nat 1%nat)];
                   JArr nat [JPrim nat 2%nat; JPrim nat 3%nat];
                   JPrim nat 4%nat]
                  2 false)).
Defined.

End FormatFacts.
